(** * ax-i18n: extraction / translation pipeline

    A shallow embedding of the core of the TypeScript sources

      - [src/utils/key-generator.ts]  (KeyGenerator, ErrorUtils.withRetry)
      - [src/llm/client.ts]           (LLMClient)
      - the cache manager             (CacheManager)
      - the two file processors       (FileProcessor)
      - [src/config/validation.ts]    (the Joi schema, as a predicate)

    Part I holds the definitions and Part II the theorems about them;
    Part III covers the rest of these classes, each module with its
    definitions first and its theorems after them.

    Conventions.  A JavaScript string is the list of its UTF-16 code units
    (so [length], [substring] and the regular-expression character classes
    mean what they mean in JavaScript); a JavaScript integer [number] is a
    [Z]; [Map], [Set] and plain objects used as dictionaries are stdpp
    [gmap]/[gset] when only their content matters and association lists
    when the iteration order matters; [Date.now()] is an explicit argument
    [now]; a thrown exception is the [inl] branch of a sum.  The libraries
    the sources call ([pinyin-pro], Node's [crypto], the language model)
    are parameters. *)

From Stdlib Require Import ZArith NArith Lia Bool.
From stdpp Require Import base option list sorting gmap sets strings.

Local Open Scope Z_scope.

(* ===================================================================== *)
(** * Part I.  The embedding                                              *)
(* ===================================================================== *)

(** ** JavaScript strings *)

Module JS.

Abbreviation jsstring := (list N).

(** A string literal of the sources that only holds ASCII characters. *)
Definition lit (s : string) : jsstring :=
  (fun a => Ascii.N_of_ascii a) <$> String.list_ascii_of_string s.

(** [s.length] *)
Definition str_length (s : jsstring) : Z := Z.of_nat (length s).

(** [s.substring(0, e)] for an integer [e]: a negative end is read as 0
    and an end past the string as its length. *)
Definition substring0 (s : jsstring) (e : Z) : jsstring := take (Z.to_nat e) s.

(** [s.startsWith(p)] *)
Definition startsWith (s p : jsstring) : bool :=
  bool_decide (take (length p) s = p).

(** [parts.join(sep)] *)
Fixpoint join (sep : jsstring) (parts : list jsstring) : jsstring :=
  match parts with
  | [] => []
  | [p] => p
  | p :: rest => p ++ sep ++ join sep rest
  end.

(** A string is truthy when it is not empty. *)
Definition truthy (s : jsstring) : bool :=
  match s with [] => false | _ :: _ => true end.

(** The digit characters of [Number.prototype.toString(radix)]:
    [0-9] then [a-z]. *)
Definition digit_char (d : N) : N :=
  if (d <? 10)%N then (48 + d)%N else (87 + d)%N.

Fixpoint to_radix (fuel : nat) (radix n : N) (acc : jsstring) : jsstring :=
  match fuel with
  | O => acc
  | S fuel' =>
      let acc' := digit_char (n mod radix) :: acc in
      if (n / radix =? 0)%N then acc' else to_radix fuel' radix (n / radix) acc'
  end.

(** [n.toString(radix)] for a natural number [n]. *)
Definition N_toString (radix n : N) : jsstring :=
  to_radix (S (N.to_nat (N.log2 n))) radix n [].

(** [String(z)] for an integer [z], as in [text + Date.now()]. *)
Definition Z_toString (z : Z) : jsstring :=
  if z <? 0 then 45%N :: N_toString 10 (Z.to_N (- z))
  else N_toString 10 (Z.to_N z).

(** Character classes of the regular expressions in the sources. *)
Definition is_digit (c : N) : bool := (48 <=? c)%N && (c <=? 57)%N.
Definition is_upper (c : N) : bool := (65 <=? c)%N && (c <=? 90)%N.
Definition is_lower (c : N) : bool := (97 <=? c)%N && (c <=? 122)%N.
(** [[一-龥]] *)
Definition is_cjk (c : N) : bool := (0x4e00 <=? c)%N && (c <=? 0x9fa5)%N.
(** [[0-9a-f]], the alphabet of [digest('hex')] *)
Definition is_hex (c : N) : bool :=
  is_digit c || ((97 <=? c)%N && (c <=? 102)%N).
(** [[a-zA-Z0-9_\-\.]], the class of [validateKey] *)
Definition is_key_char (c : N) : bool :=
  is_lower c || is_upper c || is_digit c
  || (c =? 95)%N || (c =? 45)%N || (c =? 46)%N.

(** [c.toLowerCase()] on a character of [[a-zA-Z0-9]]. *)
Definition toLowerCase (c : N) : N := if is_upper c then (c + 32)%N else c.

End JS.

Import JS.

(** ** KeyGenerator ([src/utils/key-generator.ts]) *)

Module KeyGen.

Inductive ToneType := tone_none | tone_num | tone_symbol.
Inductive OutputType := type_string | type_array.

Record PinyinOptions := {
  toneType : ToneType;
  type : OutputType
}.

(** [KeyGenerationConfig]; [duplicateKeySuffix] has the single value
    ['hash'] and is not read by the generator. *)
Record KeyGenerationConfig := {
  maxChineseLength : Z;
  hashLength : Z;
  reuseExistingKey : bool;
  keyPrefix : jsstring;
  separator : jsstring;
  pinyinOptions : PinyinOptions
}.

(** The schema of [src/config/validation.ts] for [keyGeneration]. *)
Definition validated (cfg : KeyGenerationConfig) : Prop :=
  1 <= maxChineseLength cfg /\
  4 <= hashLength cfg <= 16 /\
  (1 <= length (separator cfg))%nat.

(** The two private fields of the class. *)
Record KeyGenerator := {
  existingKeys : gset jsstring;
  textToKeyMap : gmap jsstring jsstring
}.

Definition empty_generator : KeyGenerator :=
  {| existingKeys := ∅; textToKeyMap := ∅ |}.

(** [pinyin(text, {toneType, type, nonZh: 'consecutive'})] of pinyin-pro,
    once per output type; [None] stands for a call that throws. *)
Class PinyinPro := {
  pinyin_array : ToneType -> jsstring -> option (list jsstring);
  pinyin_string : ToneType -> jsstring -> option jsstring
}.

(** [createHash('md5').update(text).digest('hex')]: 32 characters of
    [[0-9a-f]]. *)
Class Md5 := {
  md5_hex : jsstring -> jsstring;
  md5_hex_length : forall s, length (md5_hex s) = 32%nat;
  md5_hex_digits : forall s, forallb is_hex (md5_hex s) = true
}.

Section Generator.
Context `{PinyinPro} `{Md5}.
Variable cfg : KeyGenerationConfig.

Definition generateHash (text : jsstring) (len : Z) : jsstring :=
  substring0 (md5_hex text) len.

Definition fallbackKeyGeneration (text : jsstring) : jsstring :=
  let cleaned :=
    List.filter (fun c => is_cjk c || is_lower c || is_upper c || is_digit c) text in
  match cleaned with
  | [] => generateHash text 8
  | _ =>
      mjoin ((fun c => if is_cjk c then N_toString 36 c else [toLowerCase c])
               <$> cleaned)
  end.

(** The [console.warn] of the [catch] branch is not modelled. *)
Definition convertToPinyin (text : jsstring) : jsstring :=
  match type (pinyinOptions cfg) with
  | type_array =>
      match pinyin_array (toneType (pinyinOptions cfg)) text with
      | Some result => join (separator cfg) result
      | None => fallbackKeyGeneration text
      end
  | type_string =>
      match pinyin_string (toneType (pinyinOptions cfg)) text with
      | Some result => result
      | None => fallbackKeyGeneration text
      end
  end.

Definition limitLength (pinyin originalText : jsstring) : jsstring :=
  if str_length pinyin <=? maxChineseLength cfg then pinyin
  else
    let truncated := substring0 pinyin (maxChineseLength cfg) in
    let hash := generateHash originalText (hashLength cfg) in
    truncated ++ separator cfg ++ hash.

Definition handleDuplicateKey (now : Z) (baseKey text : jsstring) : jsstring :=
  let hash := generateHash (text ++ Z_toString now) (hashLength cfg) in
  baseKey ++ separator cfg ++ hash.

(** The value of the local [baseKey] once the prefix is in place. *)
Definition prefixedKey (text : jsstring) : jsstring :=
  let baseKey := limitLength (convertToPinyin text) text in
  if truthy (keyPrefix cfg) then keyPrefix cfg ++ separator cfg ++ baseKey
  else baseKey.

(** [generateKey(text)]; [now] is what [Date.now()] returns should the
    call read the clock. *)
Definition generateKey (now : Z) (text : jsstring) (g : KeyGenerator)
  : jsstring * KeyGenerator :=
  match (if reuseExistingKey cfg then textToKeyMap g !! text else None) with
  | Some key => (key, g)
  | None =>
      let baseKey := prefixedKey text in
      let finalKey :=
        if negb (reuseExistingKey cfg) && bool_decide (baseKey ∈ existingKeys g)
        then handleDuplicateKey now baseKey text
        else baseKey in
      (finalKey,
       {| existingKeys := {[finalKey]} ∪ existingKeys g;
          textToKeyMap := <[text := finalKey]> (textToKeyMap g) |})
  end.

(** A run of [generateKey] calls on one generator, each with its clock
    reading; the keys come back in call order. *)
Fixpoint generateKey_seq (calls : list (Z * jsstring)) (g : KeyGenerator)
  : list jsstring * KeyGenerator :=
  match calls with
  | [] => ([], g)
  | (now, text) :: rest =>
      let '(key, g1) := generateKey now text g in
      let '(keys, g2) := generateKey_seq rest g1 in
      (key :: keys, g2)
  end.

Definition loadExistingKeys (keys : list jsstring) (g : KeyGenerator) : KeyGenerator :=
  {| existingKeys := list_to_set keys ∪ existingKeys g;
     textToKeyMap := textToKeyMap g |}.

Definition validateKey (key : jsstring) : bool :=
  if negb (truthy key) then false
  else if truthy (keyPrefix cfg) && negb (startsWith key (keyPrefix cfg)) then false
  else forallb is_key_char key.

End Generator.

(** Stand-ins for the two libraries, used to run the generator on
    concrete inputs: a transliterator without tones that knows four
    characters (U+63D0 and U+4F53 read [ti], U+4EA4 and U+6559 read
    [jiao]) and keeps every other character as a token of its own, and a
    digest that only looks at the length of its input. *)
Definition demo_syllable (c : N) : jsstring :=
  if (c =? 0x63d0)%N || (c =? 0x4f53)%N then lit "ti"
  else if (c =? 0x4ea4)%N || (c =? 0x6559)%N then lit "jiao"
  else [c].

#[export] Instance demo_pinyin : PinyinPro := {|
  pinyin_array := fun _ text => Some (demo_syllable <$> text);
  pinyin_string := fun _ text => Some (join (lit " ") (demo_syllable <$> text))
|}.

Definition demo_digest (s : jsstring) : jsstring :=
  replicate 32 (digit_char (N.of_nat (length s) mod 16)).

End KeyGen.

(** ** Thrown values, the console and the clock-free world of the client *)

Module Effects.

(** A JavaScript [Error] object, as far as the sources read it. *)
Record Error := { message : jsstring }.

(** What a [catch] clause receives: an [Error] instance, or any other
    value, given by its [String(...)] rendering. *)
Inductive Thrown :=
| ThrownError (e : Error)
| ThrownValue (s : jsstring).

(** [error instanceof Error ? error : new Error(String(error))] *)
Definition toError (t : Thrown) : Error :=
  match t with
  | ThrownError e => e
  | ThrownValue s => {| message := s |}
  end.

(** [error instanceof Error ? error.message : String(error)] *)
Definition errorMessage (t : Thrown) : jsstring :=
  match t with
  | ThrownError e => message e
  | ThrownValue s => s
  end.

Inductive ConsoleLine :=
| RetryWarning (delay attempt maxRetries : Z) (msg : jsstring)
| BatchWarning (batch : Z) (error : Thrown).

(** What the client does to the outside, in order. *)
Inductive Event :=
| Invoked (prompt : jsstring)
| Slept (ms : Z)
| Warned (line : ConsoleLine).

(** The number of provider invocations made so far and the events so
    far, oldest first. *)
Record World := {
  invocations : nat;
  trace : list Event
}.

Definition log (e : Event) (w : World) : World :=
  {| invocations := invocations w; trace := trace w ++ [e] |}.

(** An asynchronous computation that resolves to an [A] or rejects. *)
Definition M (A : Type) : Type := World -> (Thrown + A) * World.

#[export] Instance M_ret : MRet M := fun A a w => (inr a, w).

#[export] Instance M_bind : MBind M := fun A B k m w =>
  match m w with
  | (inr a, w') => k a w'
  | (inl e, w') => (inl e, w')
  end.

Definition throw {A} (e : Thrown) : M A := fun w => (inl e, w).

(** [try { m } catch (error) { h error }] *)
Definition try_catch {A} (m : M A) (h : Thrown -> M A) : M A := fun w =>
  match m w with
  | (inl e, w') => h e w'
  | (inr a, w') => (inr a, w')
  end.

(** A synchronous call that may throw. *)
Definition lift {A} (r : Thrown + A) : M A := fun w => (r, w).

Definition emit (e : Event) : M unit := fun w => (inr tt, log e w).

End Effects.

Import Effects.

(** ** LLMClient ([src/llm/client.ts]) and ErrorUtils.withRetry *)

Module LLM.

(** [llm.invoke([new HumanMessage(prompt)])] then [response.content]: the
    answer of the model to its [n]-th invocation, or what it rejects
    with. *)
Definition LanguageModel : Type := nat -> jsstring -> Thrown + jsstring.

Record LLMConfig := {
  retryCount : Z;
  translation_batchSize : Z
}.

(** The schema of [src/config/validation.ts] for these two fields. *)
Definition validated (cfg : LLMConfig) : Prop :=
  0 <= retryCount cfg /\ 1 <= translation_batchSize cfg <= 100.

(** The pieces of the runtime and of the template manager the client
    calls: the first group of the fenced-block regular expression,
    [JSON.parse(jsonStr).translations] ([inr None] when the field is
    missing or falsy, [inl] when parsing throws), and
    [TemplateManager.compileTranslationTemplate] (which [translateBatch]
    names but never reaches). *)
Class Runtime := {
  fenced_json : jsstring -> option jsstring;
  json_translations : jsstring -> Thrown + option (gmap jsstring jsstring);
  compileTranslationTemplate :
    list (jsstring * jsstring) -> jsstring -> jsstring -> Thrown + jsstring
}.

Definition msg_call_failed : jsstring :=
  [0x8c03; 0x7528; 0x5931; 0x8d25]%N.
Definition msg_translate_failed : jsstring :=
  [0x6587; 0x672c; 0x7ffb; 0x8bd1; 0x5931; 0x8d25; 0x3a; 0x20]%N.
Definition msg_parse_failed : jsstring :=
  [0x89e3; 0x6790; 0x7ffb; 0x8bd1; 0x54cd; 0x5e94; 0x5931; 0x8d25; 0x3a; 0x20]%N.
Definition msg_missing_field : jsstring :=
  [0x54cd; 0x5e94; 0x683c; 0x5f0f; 0x4e0d; 0x6b63; 0x786e; 0xff0c; 0x7f3a;
   0x5c11; 0x20]%N ++ lit "translations" ++ [0x20; 0x5b57; 0x6bb5]%N.

(** [new TemplateManager()] inside [src/llm/client.ts]: the module does
    not import [TemplateManager] and binds the name nowhere, so evaluating
    the expression throws a [ReferenceError]. *)
Definition msg_not_defined : jsstring := lit "TemplateManager is not defined".

Definition new_TemplateManager : Thrown + unit :=
  inl (ThrownError {| message := msg_not_defined |}).

(** [arr.slice(s, e)] for integers [s] and [e]. *)
Definition slice {A} (l : list A) (s e : Z) : list A :=
  let len := Z.of_nat (length l) in
  let from := if s <? 0 then Z.max (len + s) 0 else Z.min s len in
  let to := if e <? 0 then Z.max (len + e) 0 else Z.min e len in
  take (Z.to_nat (to - from)) (drop (Z.to_nat from) l).

(** [Object.keys(texts)] and [texts[key]] for an object given by its
    entries in enumeration order.  A key that is read always comes from
    [Object.keys], so the property exists. *)
Definition object_keys (texts : list (jsstring * jsstring)) : list jsstring :=
  fst <$> texts.

Fixpoint object_get (texts : list (jsstring * jsstring)) (key : jsstring) : jsstring :=
  match texts with
  | [] => []
  | (k, v) :: rest => if decide (k = key) then v else object_get rest key
  end.

Section Client.
Context `{Runtime}.
Variable config : LLMConfig.
Variable translationLLM : LanguageModel.

(** The body of the [for] loop of [invokeWithRetry] runs for
    [attempt = 0, ..., maxRetries]; [trips] counts the rounds left. *)
Fixpoint retry_loop (llm : LanguageModel) (prompt : jsstring) (maxRetries : Z)
    (trips : nat) (attempt : Z) (lastError : option Error) : M jsstring :=
  fun w =>
  match trips with
  | O => (inl (ThrownError (default {| message := msg_call_failed |} lastError)), w)
  | S trips' =>
      let w1 := {| invocations := S (invocations w);
                   trace := trace w ++ [Invoked prompt] |} in
      match llm (invocations w) prompt with
      | inr content => (inr content, w1)
      | inl error =>
          let lastError := toError error in
          let w2 :=
            if attempt <? maxRetries then
              let delay := 2 ^ attempt * 1000 in
              log (Slept delay)
                (log (Warned (RetryWarning delay (attempt + 1) maxRetries
                                (message lastError))) w1)
            else w1 in
          retry_loop llm prompt maxRetries trips' (attempt + 1) (Some lastError) w2
      end
  end.

Definition invokeWithRetry (llm : LanguageModel) (prompt : jsstring)
    (maxRetries : Z) : M jsstring :=
  retry_loop llm prompt maxRetries (Z.to_nat (maxRetries + 1)) 0 None.

Definition parseTranslationResponse (response : jsstring)
  : M (gmap jsstring jsstring) :=
  try_catch
    (let jsonStr := default response (fenced_json response) in
     translations ← lift (json_translations jsonStr);
     match translations with
     | None => throw (ThrownError {| message := msg_missing_field |})
     | Some translations => mret translations
     end)
    (fun error =>
       throw (ThrownError {| message := msg_parse_failed ++ errorMessage error |})).

Definition translateTexts (prompt : jsstring) : M (gmap jsstring jsstring) :=
  try_catch
    (response ← invokeWithRetry translationLLM prompt (retryCount config);
     parseTranslationResponse response)
    (fun error =>
       throw (ThrownError {| message := msg_translate_failed ++ errorMessage error |})).

(** [translateBatch(texts)].  Its first statement is
    [new TemplateManager()], which throws (see [new_TemplateManager]), so
    the promise rejects there; the two calls that follow in the source are
    never reached. *)
Definition translateBatch (texts : list (jsstring * jsstring))
  : M (gmap jsstring jsstring) :=
  _ ← lift new_TemplateManager;
  prompt ← lift (compileTranslationTemplate texts (lit "zh-CN") (lit "en-US"));
  translateTexts prompt.

(** [for (const key of batchKeys) translations[key] = texts[key]] *)
Definition use_original (texts : list (jsstring * jsstring))
    (batchKeys : list jsstring) (translations : gmap jsstring jsstring)
  : gmap jsstring jsstring :=
  foldl (fun acc key => <[key := object_get texts key]> acc) translations batchKeys.

(** One round of the loop of [batchTranslateTexts]. *)
Definition batch_round (texts : list (jsstring * jsstring)) (i : Z)
    (translations : gmap jsstring jsstring) : World -> gmap jsstring jsstring * World :=
  fun w =>
  let batchSize := translation_batchSize config in
  let batchKeys := slice (object_keys texts) i (i + batchSize) in
  let batchTexts := (fun key => (key, object_get texts key)) <$> batchKeys in
  match translateBatch batchTexts w with
  | (inr batchTranslations, w') => (batchTranslations ∪ translations, w')
  | (inl error, w') =>
      (use_original texts batchKeys translations,
       log (Warned (BatchWarning (i / batchSize + 1) error)) w')
  end.

(** [for (let i = 0; i < keys.length; i += batchSize)]; the loop need not
    end when [batchSize] is not positive, so it runs on fuel and [None]
    is a run that is still going when the fuel is spent. *)
Fixpoint batch_loop (fuel : nat) (texts : list (jsstring * jsstring)) (i : Z)
    (translations : gmap jsstring jsstring) (w : World)
  : option (gmap jsstring jsstring * World) :=
  if i <? Z.of_nat (length (object_keys texts)) then
    match fuel with
    | O => None
    | S fuel' =>
        let '(translations', w') := batch_round texts i translations w in
        batch_loop fuel' texts (i + translation_batchSize config) translations' w'
    end
  else Some (translations, w).

Definition batchTranslateTexts (texts : list (jsstring * jsstring)) (w : World)
  : option (gmap jsstring jsstring * World) :=
  batch_loop (length texts) texts 0 ∅ w.

End Client.

(** [ErrorUtils.withRetry(operation, options)]; [operation] is given by
    its outcome at each invocation. *)
Record RetryOptions := {
  maxRetries : Z;
  baseDelay : Z;
  shouldRetry : Thrown -> bool
}.

(** The defaults of the destructuring in [withRetry]. *)
Definition default_options : RetryOptions :=
  {| maxRetries := 3; baseDelay := 1000; shouldRetry := fun _ => true |}.

Fixpoint withRetry_loop {T} (operation : nat -> Thrown + T) (options : RetryOptions)
    (trips : nat) (attempt : Z) (lastError : Thrown) (w : World)
  : (Thrown + T) * World :=
  match trips with
  | O => (inl lastError, w)
  | S trips' =>
      let w1 := {| invocations := S (invocations w);
                   trace := trace w ++ [Invoked []] |} in
      match operation (invocations w) with
      | inr value => (inr value, w1)
      | inl error =>
          if (attempt =? maxRetries options) || negb (shouldRetry options error)
          then (inl error, w1)
          else
            let delay := baseDelay options * 2 ^ attempt in
            withRetry_loop operation options trips' (attempt + 1) error
              (log (Slept delay)
                 (log (Warned (RetryWarning delay (attempt + 1)
                                 (maxRetries options) (errorMessage error))) w1))
      end
  end.

Definition withRetry {T} (operation : nat -> Thrown + T) (options : RetryOptions)
  : M T :=
  withRetry_loop operation options (Z.to_nat (maxRetries options + 1)) 0
    (ThrownValue (lit "undefined")).

End LLM.

(** ** CacheManager *)

Module Cache.

Record CacheConfig := {
  enabled : bool;
  defaultTTL : Z;
  maxEntries : Z;
  persistent : bool
}.

(** [Partial<CacheConfig>] *)
Record PartialConfig := {
  p_enabled : option bool;
  p_defaultTTL : option Z;
  p_maxEntries : option Z;
  p_persistent : option bool
}.

Definition no_change : PartialConfig :=
  {| p_enabled := None; p_defaultTTL := None; p_maxEntries := None;
     p_persistent := None |}.

(** [{ ...base, ...newConfig }] *)
Definition spread (base : CacheConfig) (newConfig : PartialConfig) : CacheConfig :=
  {| enabled := default (enabled base) (p_enabled newConfig);
     defaultTTL := default (defaultTTL base) (p_defaultTTL newConfig);
     maxEntries := default (maxEntries base) (p_maxEntries newConfig);
     persistent := default (persistent base) (p_persistent newConfig) |}.

(** The defaults of the constructor. *)
Definition default_config : CacheConfig :=
  {| enabled := true; defaultTTL := 24 * 60 * 60 * 1000; maxEntries := 1000;
     persistent := true |}.

Section Manager.
(** The type of the cached data and
    [generateContentHash(JSON.stringify(data))], for data that
    [JSON.stringify] serialises. *)
Variable T : Type.
Variable content_hash : T -> jsstring.

Record CacheEntry := {
  data : T;
  timestamp : Z;
  expiresAt : Z;
  hash : jsstring
}.

(** [memoryCache] is a [Map]: its entries in insertion order, with no key
    twice. *)
Record CacheManager := {
  config : CacheConfig;
  memoryCache : list (jsstring * CacheEntry)
}.

(** [Map.prototype.get], [set] (an existing key keeps its place) and
    [delete]. *)
Fixpoint map_get (key : jsstring) (m : list (jsstring * CacheEntry))
  : option CacheEntry :=
  match m with
  | [] => None
  | (k, e) :: rest => if decide (k = key) then Some e else map_get key rest
  end.

Fixpoint map_set (key : jsstring) (entry : CacheEntry)
    (m : list (jsstring * CacheEntry)) : list (jsstring * CacheEntry) :=
  match m with
  | [] => [(key, entry)]
  | (k, e) :: rest =>
      if decide (k = key) then (key, entry) :: rest
      else (k, e) :: map_set key entry rest
  end.

Definition map_delete (key : jsstring) (m : list (jsstring * CacheEntry))
  : list (jsstring * CacheEntry) :=
  filter (fun p => p.1 <> key) m.

(** [new CacheManager(config)]; the entries of the snapshot on disk are
    read later, by [loadFromDisk]. *)
Definition new_CacheManager (cfg : PartialConfig) : CacheManager :=
  {| config := spread default_config cfg; memoryCache := [] |}.

Definition isExpired (now : Z) (entry : CacheEntry) : bool :=
  now >? expiresAt entry.

Definition cleanExpired (now : Z) (c : CacheManager) : CacheManager :=
  {| config := config c;
     memoryCache := filter (fun p => ~ expiresAt p.2 < now) (memoryCache c) |}.

(** [entries.sort((a, b) => a[1].timestamp - b[1].timestamp)]:
    [Array.prototype.sort] is stable, so entries of equal timestamp keep
    their order. *)
Fixpoint sort_insert (p : jsstring * CacheEntry)
    (sorted : list (jsstring * CacheEntry)) : list (jsstring * CacheEntry) :=
  match sorted with
  | [] => [p]
  | q :: rest =>
      if timestamp q.2 <? timestamp p.2 then q :: sort_insert p rest
      else p :: sorted
  end.

Definition sort_by_timestamp (entries : list (jsstring * CacheEntry))
  : list (jsstring * CacheEntry) :=
  foldr sort_insert [] entries.

(** [for (let i = 0; i < toDelete; i++) memoryCache.delete(entries[i][0])];
    reading [entries[i][0]] past the end of the array throws a
    [TypeError], which is [None] here. *)
Fixpoint delete_oldest (trips i : nat) (entries m : list (jsstring * CacheEntry))
  : option (list (jsstring * CacheEntry)) :=
  match trips with
  | O => Some m
  | S trips' =>
      match entries !! i with
      | Some (key, _) => delete_oldest trips' (S i) entries (map_delete key m)
      | None => None
      end
  end.

Definition enforceSizeLimit (c : CacheManager) : option CacheManager :=
  let entries := memoryCache c in
  if Z.of_nat (length entries) <=? maxEntries (config c) then Some c
  else
    let sorted := sort_by_timestamp entries in
    let toDelete := Z.of_nat (length entries) - maxEntries (config c) in
    m ← delete_oldest (Z.to_nat toDelete) 0 sorted (memoryCache c);
    Some {| config := config c; memoryCache := m |}.

(** [ttl || this.config.defaultTTL] *)
Definition ttl_or_default (ttl : option Z) (c : CacheManager) : Z :=
  match ttl with
  | Some t => if t =? 0 then defaultTTL (config c) else t
  | None => defaultTTL (config c)
  end.

(** [set(key, data, ttl)].  [saveToDisk] is asynchronous: it touches
    [memoryCache] only once it resumes, see [saveToDisk_resumed]. *)
Definition set (now : Z) (key : jsstring) (d : T) (ttl : option Z)
    (c : CacheManager) : option CacheManager :=
  if negb (enabled (config c)) then Some c
  else
    let expiresAt := now + ttl_or_default ttl c in
    let entry := {| data := d; timestamp := now; expiresAt := expiresAt;
                    hash := content_hash d |} in
    enforceSizeLimit
      {| config := config c; memoryCache := map_set key entry (memoryCache c) |}.

(** What [saveToDisk] does to the manager when it resumes after
    [ensureDir], at time [now]. *)
Definition saveToDisk_resumed (now : Z) (c : CacheManager) : CacheManager :=
  if persistent (config c) then cleanExpired now c else c.

Definition get (now : Z) (key : jsstring) (c : CacheManager)
  : option T * CacheManager :=
  if negb (enabled (config c)) then (None, c)
  else
    match map_get key (memoryCache c) with
    | None => (None, c)
    | Some entry =>
        if isExpired now entry then
          (None, {| config := config c;
                    memoryCache := map_delete key (memoryCache c) |})
        else (Some (data entry), c)
    end.

Definition has (now : Z) (key : jsstring) (c : CacheManager)
  : bool * CacheManager :=
  if negb (enabled (config c)) then (false, c)
  else
    match map_get key (memoryCache c) with
    | None => (false, c)
    | Some entry =>
        if isExpired now entry then
          (false, {| config := config c;
                     memoryCache := map_delete key (memoryCache c) |})
        else (true, c)
    end.

Definition clear (c : CacheManager) : CacheManager :=
  {| config := config c; memoryCache := [] |}.

Definition updateConfig (newConfig : PartialConfig) (c : CacheManager)
  : CacheManager :=
  {| config := spread (config c) newConfig; memoryCache := memoryCache c |}.

Definition setEnabled (b : bool) (c : CacheManager) : CacheManager :=
  let c' := updateConfig
              {| p_enabled := Some b; p_defaultTTL := None;
                 p_maxEntries := None; p_persistent := None |} c in
  if negb b then clear c' else c'.

(** [getStats().totalEntries] *)
Definition totalEntries (c : CacheManager) : Z :=
  Z.of_nat (length (memoryCache c)).

End Manager.

Arguments data {T}.
Arguments timestamp {T}.
Arguments expiresAt {T}.
Arguments hash {T}.
Arguments config {T}.
Arguments memoryCache {T}.
Arguments map_get {T}.
Arguments map_set {T}.
Arguments map_delete {T}.
Arguments new_CacheManager {T}.
Arguments isExpired {T}.
Arguments cleanExpired {T}.
Arguments sort_insert {T}.
Arguments sort_by_timestamp {T}.
Arguments delete_oldest {T}.
Arguments enforceSizeLimit {T}.
Arguments ttl_or_default {T}.
Arguments set {T}.
Arguments saveToDisk_resumed {T}.
Arguments get {T}.
Arguments has {T}.
Arguments clear {T}.
Arguments updateConfig {T}.
Arguments setEnabled {T}.
Arguments totalEntries {T}.

End Cache.

(** ** FileProcessor: collecting the extracted texts *)

Module Processor.

Import KeyGen.

(** The fields the collection reads and writes: the key generator (held
    by the processor in the sequential variant and by its
    [CodeTransformer] in the concurrent one), the aggregate store
    [allExtractedTexts], and the lines written with [console.warn]. *)
Record FileProcessor := {
  keyGenerator : KeyGenerator;
  allExtractedTexts : gmap jsstring jsstring;
  console : list jsstring
}.

(** [this.allExtractedTexts[realKey] = text] *)
Definition assign_text (realKey text : jsstring) (p : FileProcessor) : FileProcessor :=
  {| keyGenerator := keyGenerator p;
     allExtractedTexts := <[realKey := text]> (allExtractedTexts p);
     console := console p |}.

Section Collect.
Context `{PinyinPro} `{Md5}.
Variable cfg : KeyGenerationConfig.

(** Sequential variant, the loop over [tempKeys] of [processFile]: each
    entry is a clock reading, a placeholder key and its text. *)
Definition resolve_step (acc : FileProcessor * gmap jsstring jsstring)
    (entry : Z * jsstring * jsstring) : FileProcessor * gmap jsstring jsstring :=
  let '(p, keyMapping) := acc in
  let '(now, tempKey, text) := entry in
  let '(realKey, g) := generateKey cfg now text (keyGenerator p) in
  let p1 := {| keyGenerator := g; allExtractedTexts := allExtractedTexts p;
               console := console p |} in
  (assign_text realKey text p1, <[tempKey := realKey]> keyMapping).

Definition resolve_keys (entries : list (Z * jsstring * jsstring)) (p : FileProcessor)
  : FileProcessor * gmap jsstring jsstring :=
  foldl resolve_step (p, ∅) entries.


End Collect.

(** ... and the loop of [processFile] that collects the texts once the
    file is written: [if (realKey) allExtractedTexts[realKey] = text]. *)
Definition collect_step (keyMapping : gmap jsstring jsstring) (p : FileProcessor)
    (entry : jsstring * jsstring) : FileProcessor :=
  let '(tempKey, text) := entry in
  match keyMapping !! tempKey with
  | Some realKey => if truthy realKey then assign_text realKey text p else p
  | None => p
  end.

Definition collect_texts (keyMapping : gmap jsstring jsstring)
    (entries : list (jsstring * jsstring)) (p : FileProcessor) : FileProcessor :=
  foldl (collect_step keyMapping) p entries.

(** The end of [processAll] in the concurrent variant, once every file
    has its result: the failed files are read off the results, the
    primary-locale file is written ([writeLocalizationFiles] catches its
    own errors), and the translation phase runs unless it is skipped or
    the store is empty. *)
Record FileProcessResult := {
  filePath : jsstring;
  success : bool;
  extractedCount : Z
}.

Record ProcessingStats := {
  filesProcessed : Z;
  textsExtracted : Z;
  textsTranslated : Z;
  failedFiles : list jsstring
}.

Section Run.
Context `{LLM.Runtime}.
Variable config : LLM.LLMConfig.
Variable translationLLM : LLM.LanguageModel.
(** [FileWriter.writeTranslationFile], by the [success] of its result. *)
Variable writeTranslationFile : gmap jsstring jsstring -> bool.

(** [processTranslation]; [texts] are the entries of [allExtractedTexts]
    in enumeration order.  Whatever is thrown is caught and counts as no
    text translated. *)
Definition processTranslation (texts : list (jsstring * jsstring)) (w : World)
  : option (Z * World) :=
  '(translations, w') ← LLM.batchTranslateTexts config translationLLM texts w;
  Some (if writeTranslationFile translations then Z.of_nat (size translations) else 0,
        w').

(** The statistics [processAll] returns for the file results [results]. *)
Definition processAll_stats (results : list FileProcessResult)
    (texts : list (jsstring * jsstring)) (skipTranslate : bool) (w : World)
  : option (ProcessingStats * World) :=
  let failed := filePath <$> List.filter (fun r => negb (success r)) results in
  let totalExtracted := foldl (fun sum r => sum + extractedCount r) 0 results in
  '(translatedCount, w') ←
    (if negb skipTranslate && (0 <? Z.of_nat (length texts))
     then processTranslation texts w
     else Some (0, w));
  Some ({| filesProcessed := Z.of_nat (length (List.filter success results));
           textsExtracted := totalExtracted;
           textsTranslated := translatedCount;
           failedFiles := failed |},
        w').

End Run.

End Processor.

(** ** Object identity: the accessors that hand out collections *)

Module Heap.

Import KeyGen.

(** The mutable collections of the two classes live in a heap; a field
    holds a reference. *)
Inductive Obj :=
| MapObj (m : gmap jsstring jsstring)
| SetObj (s : gset jsstring)
| RecordObj (r : gmap jsstring jsstring).

Abbreviation heap := (gmap positive Obj).

(** [new Map(...)], [new Set(...)], an object literal: a fresh reference. *)
Definition alloc (o : Obj) (h : heap) : positive * heap :=
  let l := fresh (dom h) in (l, <[l := o]> h).

(** A [KeyGenerator] instance: its two private fields. *)
Record KeyGeneratorObj := {
  existingKeys_ref : positive;
  textToKeyMap_ref : positive
}.

(** A [FileProcessor] instance. *)
Record FileProcessorObj := {
  allExtractedTexts_ref : positive;
  keyGenerator_obj : KeyGeneratorObj
}.

(** The content of the generator's collections. *)
Definition generator_state (g : KeyGeneratorObj) (h : heap) : option KeyGenerator :=
  match h !! existingKeys_ref g, h !! textToKeyMap_ref g with
  | Some (SetObj s), Some (MapObj m) =>
      Some {| existingKeys := s; textToKeyMap := m |}
  | _, _ => None
  end.

Definition store_state (p : FileProcessorObj) (h : heap)
  : option (gmap jsstring jsstring) :=
  match h !! allExtractedTexts_ref p with
  | Some (RecordObj r) => Some r
  | _ => None
  end.

Section Methods.
Context `{PinyinPro} `{Md5}.
Variable cfg : KeyGenerationConfig.

(** [generateKey] reads and updates the two collections in place. *)
Definition generateKey (now : Z) (text : jsstring) (g : KeyGeneratorObj) (h : heap)
  : option (jsstring * heap) :=
  st ← generator_state g h;
  let '(key, st') := KeyGen.generateKey cfg now text st in
  Some (key,
        <[existingKeys_ref g := SetObj (existingKeys st')]>
          (<[textToKeyMap_ref g := MapObj (textToKeyMap st')]> h)).

Fixpoint generateKey_seq (calls : list (Z * jsstring)) (g : KeyGeneratorObj)
    (h : heap) : option (list jsstring * heap) :=
  match calls with
  | [] => Some ([], h)
  | (now, text) :: rest =>
      '(key, h1) ← generateKey now text g h;
      '(keys, h2) ← generateKey_seq rest g h1;
      Some (key :: keys, h2)
  end.

(** [this.allExtractedTexts[realKey] = text] *)
Definition assign_text (realKey text : jsstring) (p : FileProcessorObj) (h : heap)
  : option heap :=
  r ← store_state p h;
  Some (<[allExtractedTexts_ref p := RecordObj (<[realKey := text]> r)]> h).

(** One round of the loop over [tempKeys] of [processFile]. *)
Definition merge_text (now : Z) (text : jsstring) (p : FileProcessorObj) (h : heap)
  : option (jsstring * heap) :=
  '(realKey, h1) ← generateKey now text (keyGenerator_obj p) h;
  h2 ← assign_text realKey text p h1;
  Some (realKey, h2).

Fixpoint merge_seq (calls : list (Z * jsstring)) (p : FileProcessorObj) (h : heap)
  : option (list jsstring * heap) :=
  match calls with
  | [] => Some ([], h)
  | (now, text) :: rest =>
      '(key, h1) ← merge_text now text p h;
      '(keys, h2) ← merge_seq rest p h1;
      Some (key :: keys, h2)
  end.

End Methods.

(** [return new Map(this.textToKeyMap)] *)
Definition getTextToKeyMap (g : KeyGeneratorObj) (h : heap) : option (positive * heap) :=
  match h !! textToKeyMap_ref g with
  | Some (MapObj m) => Some (alloc (MapObj m) h)
  | _ => None
  end.

(** [return new Set(this.existingKeys)] *)
Definition getAllKeys (g : KeyGeneratorObj) (h : heap) : option (positive * heap) :=
  match h !! existingKeys_ref g with
  | Some (SetObj s) => Some (alloc (SetObj s) h)
  | _ => None
  end.

(** [return { ...this.allExtractedTexts }] *)
Definition getExtractedTexts (p : FileProcessorObj) (h : heap) : option (positive * heap) :=
  match h !! allExtractedTexts_ref p with
  | Some (RecordObj r) => Some (alloc (RecordObj r) h)
  | _ => None
  end.

(** What a caller can do to a collection it holds a reference to. *)
Inductive Mutation :=
| MapSet (k v : jsstring)
| MapDelete (k : jsstring)
| MapClear
| SetAdd (k : jsstring)
| SetDelete (k : jsstring)
| SetClear
| PropertySet (k v : jsstring)
| PropertyDelete (k : jsstring).

(** The mutation [mu] of the object at [l]; a method the object does not
    have changes nothing. *)
Definition mutate (l : positive) (h : heap) (mu : Mutation) : heap :=
  match h !! l, mu with
  | Some (MapObj m), MapSet k v => <[l := MapObj (<[k := v]> m)]> h
  | Some (MapObj m), MapDelete k => <[l := MapObj (delete k m)]> h
  | Some (MapObj m), MapClear => <[l := MapObj ∅]> h
  | Some (SetObj s), SetAdd k => <[l := SetObj ({[k]} ∪ s)]> h
  | Some (SetObj s), SetDelete k => <[l := SetObj (s ∖ {[k]})]> h
  | Some (SetObj s), SetClear => <[l := SetObj ∅]> h
  | Some (RecordObj r), PropertySet k v => <[l := RecordObj (<[k := v]> r)]> h
  | Some (RecordObj r), PropertyDelete k => <[l := RecordObj (delete k r)]> h
  | _, _ => h
  end.

Definition mutate_all (l : positive) (mus : list Mutation) (h : heap) : heap :=
  foldl (mutate l) h mus.

End Heap.

(* ===================================================================== *)
(** * Part II.  Theorems                                                  *)
(* ===================================================================== *)

(** ** Strings and character classes *)

Module JSFacts.

Lemma digit_char_hex (d : N) : (d < 16)%N -> is_hex (digit_char d) = true.
Proof.
  intros Hd. unfold is_hex, is_digit, digit_char.
  destruct (N.ltb_spec d 10).
  - apply orb_true_iff; left. apply andb_true_iff; split; apply N.leb_le; lia.
  - apply orb_true_iff; right. apply andb_true_iff; split; apply N.leb_le; lia.
Qed.

Lemma digit_char_key_char (d : N) : (d < 36)%N -> is_key_char (digit_char d) = true.
Proof.
  intros Hd. unfold is_key_char, is_lower, is_upper, is_digit, digit_char.
  destruct (N.ltb_spec d 10).
  - replace ((48 <=? 48 + d)%N && (48 + d <=? 57)%N) with true.
    + now rewrite orb_true_r.
    + symmetry. apply andb_true_iff; split; apply N.leb_le; lia.
  - replace ((97 <=? 87 + d)%N && (87 + d <=? 122)%N) with true.
    + reflexivity.
    + symmetry. apply andb_true_iff; split; apply N.leb_le; lia.
Qed.

Lemma is_hex_key_char (c : N) : is_hex c = true -> is_key_char c = true.
Proof.
  unfold is_hex, is_key_char, is_lower. intros Hc.
  apply orb_true_iff in Hc as [Hc | Hc].
  - rewrite Hc. now rewrite orb_true_r.
  - apply andb_true_iff in Hc as [H1 H2].
    apply N.leb_le in H1, H2.
    replace ((97 <=? c)%N && (c <=? 122)%N) with true; [reflexivity |].
    symmetry. apply andb_true_iff; split; apply N.leb_le; lia.
Qed.

Lemma forallb_app_true {A} (f : A -> bool) (l1 l2 : list A) :
  forallb f l1 = true -> forallb f l2 = true -> forallb f (l1 ++ l2) = true.
Proof. intros H1 H2. rewrite forallb_app, H1, H2. reflexivity. Qed.

Lemma forallb_take_true {A} (f : A -> bool) (n : nat) (l : list A) :
  forallb f l = true -> forallb f (take n l) = true.
Proof.
  revert n. induction l as [| x l IH]; intros [| n] Hl; simpl in *; auto.
  apply andb_true_iff in Hl as [Hx Hl]. rewrite Hx. simpl. auto.
Qed.

Lemma to_radix_key_chars (fuel : nat) (radix n : N) (acc : jsstring) :
  (0 < radix <= 36)%N ->
  forallb is_key_char acc = true ->
  forallb is_key_char (to_radix fuel radix n acc) = true.
Proof.
  intros Hr. revert n acc.
  induction fuel as [| fuel IH]; intros n acc Hacc; simpl; [assumption |].
  assert (Hd : is_key_char (digit_char (n mod radix)) = true).
  { apply digit_char_key_char.
    assert (n mod radix < radix)%N by (apply N.mod_lt; lia). lia. }
  destruct (n / radix =? 0)%N.
  - simpl. now rewrite Hd.
  - apply IH. simpl. now rewrite Hd.
Qed.

Lemma to_radix_nonempty (fuel : nat) (radix n : N) (acc : jsstring) :
  acc <> [] -> to_radix fuel radix n acc <> [].
Proof.
  revert n acc. induction fuel as [| fuel IH]; intros n acc Hacc; simpl; [assumption |].
  destruct (n / radix =? 0)%N; [discriminate |]. apply IH. discriminate.
Qed.

Lemma N_toString_key_chars (radix n : N) :
  (0 < radix <= 36)%N -> forallb is_key_char (N_toString radix n) = true.
Proof. intros Hr. unfold N_toString. now apply to_radix_key_chars. Qed.

Lemma N_toString_nonempty (radix n : N) : N_toString radix n <> [].
Proof.
  unfold N_toString. simpl.
  destruct (n / radix =? 0)%N; [discriminate |].
  apply to_radix_nonempty. discriminate.
Qed.

Lemma startsWith_app (p s : jsstring) : startsWith (p ++ s) p = true.
Proof.
  unfold startsWith. apply bool_decide_eq_true.
  rewrite take_app_length. reflexivity.
Qed.

Lemma startsWith_app_r (s p t : jsstring) :
  startsWith s p = true -> startsWith (s ++ t) p = true.
Proof.
  unfold startsWith. rewrite !bool_decide_eq_true. intros Hs.
  assert (Hlen : (length p <= length s)%nat).
  { rewrite <- Hs at 1. rewrite length_take. lia. }
  rewrite take_app_le by exact Hlen. exact Hs.
Qed.

Lemma truthy_nonempty (s : jsstring) : truthy s = true <-> s <> [].
Proof. destruct s; simpl; split; intros; congruence. Qed.

(** [(1700000000000).toString()], [(0x63d0).toString(36)] and
    [["ti", "jiao"].join("_")]. *)
Example N_toString_decimal : Z_toString 1700000000000 = lit "1700000000000".
Proof. vm_compute. reflexivity. Qed.

Example N_toString_base36 : N_toString 36 0x63d0 = lit "jps".
Proof. vm_compute. reflexivity. Qed.

Example join_underscore : join (lit "_") [lit "ti"; lit "jiao"] = lit "ti_jiao".
Proof. vm_compute. reflexivity. Qed.

End JSFacts.

(** ** KeyGenerator *)

Module KeyGenFacts.

Import KeyGen JSFacts.

Lemma demo_digest_length (s : jsstring) : length (demo_digest s) = 32%nat.
Proof. apply length_replicate. Qed.

Lemma demo_digest_digits (s : jsstring) : forallb is_hex (demo_digest s) = true.
Proof.
  unfold demo_digest. generalize 32%nat as n.
  induction n as [| n IH]; simpl; [reflexivity |].
  rewrite IH, digit_char_hex; [reflexivity |]. apply N.mod_lt. lia.
Qed.

#[export] Instance demo_md5 : Md5 := {|
  md5_hex := demo_digest;
  md5_hex_length := demo_digest_length;
  md5_hex_digits := demo_digest_digits
|}.

(** The default [keyGeneration] of the sources, with the lengths of the
    length-handling example. *)
Definition short_config (reuse : bool) : KeyGenerationConfig :=
  {| maxChineseLength := 5; hashLength := 6; reuseExistingKey := reuse;
     keyPrefix := []; separator := lit "_";
     pinyinOptions := {| toneType := tone_none; type := type_array |} |}.

Definition default_config : KeyGenerationConfig :=
  {| maxChineseLength := 10; hashLength := 6; reuseExistingKey := true;
     keyPrefix := []; separator := lit "_";
     pinyinOptions := {| toneType := tone_none; type := type_array |} |}.

(** A configuration the schema accepts whose separator is not a
    character of [validateKey]. *)
Definition slash_config : KeyGenerationConfig :=
  {| maxChineseLength := 10; hashLength := 6; reuseExistingKey := false;
     keyPrefix := lit "app"; separator := lit "/";
     pinyinOptions := {| toneType := tone_none; type := type_array |} |}.

(** [cfg] with [reuseExistingKey] set. *)
Definition with_reuse (reuse : bool) (cfg : KeyGenerationConfig) : KeyGenerationConfig :=
  {| maxChineseLength := maxChineseLength cfg; hashLength := hashLength cfg;
     reuseExistingKey := reuse; keyPrefix := keyPrefix cfg;
     separator := separator cfg; pinyinOptions := pinyinOptions cfg |}.

(** The text of the examples, U+63D0 U+4EA4. *)
Definition ti_jiao : jsstring := [0x63d0; 0x4ea4]%N.

Section Facts.
Context `{PinyinPro} `{Md5}.
Variable cfg : KeyGenerationConfig.

(** *** The memo *)

Lemma generateKey_hit now text g key :
  reuseExistingKey cfg = true ->
  textToKeyMap g !! text = Some key ->
  generateKey cfg now text g = (key, g).
Proof. intros Hr Hm. unfold generateKey. rewrite Hr, Hm. reflexivity. Qed.

Lemma generateKey_records now text g :
  reuseExistingKey cfg = true ->
  textToKeyMap (generateKey cfg now text g).2 !! text
  = Some (generateKey cfg now text g).1.
Proof.
  intros Hr. unfold generateKey. rewrite Hr.
  destruct (textToKeyMap g !! text) as [key |] eqn:Hm; simpl.
  - exact Hm.
  - apply lookup_insert_eq.
Qed.

Lemma generateKey_keeps_memo now text g t key :
  reuseExistingKey cfg = true ->
  textToKeyMap g !! t = Some key ->
  textToKeyMap (generateKey cfg now text g).2 !! t = Some key.
Proof.
  intros Hr Ht. unfold generateKey. rewrite Hr.
  destruct (textToKeyMap g !! text) as [k |] eqn:Hm; simpl; [exact Ht |].
  rewrite lookup_insert_ne; [exact Ht |]. congruence.
Qed.

Lemma generateKey_seq_hit calls g t key j now kj :
  reuseExistingKey cfg = true ->
  textToKeyMap g !! t = Some key ->
  calls !! j = Some (now, t) ->
  (generateKey_seq cfg calls g).1 !! j = Some kj ->
  kj = key.
Proof.
  intros Hr. revert g j.
  induction calls as [| [n text] calls IH]; intros g j Hm Hj Hk; [discriminate |].
  simpl in Hk.
  destruct (generateKey cfg n text g) as [k g1] eqn:Hg.
  destruct (generateKey_seq cfg calls g1) as [keys g2] eqn:Hs.
  destruct j as [| j]; simpl in *.
  - injection Hj as -> ->. injection Hk as <-.
    rewrite (generateKey_hit _ _ _ _ Hr Hm) in Hg. congruence.
  - apply (IH g1 j); [| exact Hj | now rewrite Hs].
    replace g1 with (generateKey cfg n text g).2 by now rewrite Hg.
    now apply generateKey_keeps_memo.
Qed.

Lemma generateKey_seq_ordered calls g i j ni nj text ki kj :
  reuseExistingKey cfg = true ->
  (i < j)%nat ->
  calls !! i = Some (ni, text) ->
  calls !! j = Some (nj, text) ->
  (generateKey_seq cfg calls g).1 !! i = Some ki ->
  (generateKey_seq cfg calls g).1 !! j = Some kj ->
  ki = kj.
Proof.
  intros Hr. revert g i j.
  induction calls as [| [n t] calls IH]; intros g i j Hij Hi Hj Hki Hkj;
    [discriminate |].
  simpl in Hki, Hkj.
  destruct (generateKey cfg n t g) as [k g1] eqn:Hg.
  destruct (generateKey_seq cfg calls g1) as [keys g2] eqn:Hs.
  destruct j as [| j]; [lia |].
  destruct i as [| i]; simpl in *.
  - injection Hi as -> ->. injection Hki as <-.
    symmetry. apply (generateKey_seq_hit calls g1 text k j nj kj Hr);
      [| exact Hj | now rewrite Hs].
    replace g1 with (generateKey cfg ni text g).2 by now rewrite Hg.
    replace k with (generateKey cfg ni text g).1 by now rewrite Hg.
    now apply generateKey_records.
  - apply (IH g1 i j); [lia | exact Hi | exact Hj | |]; now rewrite Hs.
Qed.

(** *** The shape of a key *)

Lemma generateHash_key_chars text len :
  forallb is_key_char (generateHash text len) = true.
Proof.
  unfold generateHash, substring0. apply forallb_take_true.
  pose proof (md5_hex_digits text) as Hd.
  rewrite forallb_forall in *. intros c Hc. apply is_hex_key_char. auto.
Qed.

Lemma generateHash_length text len :
  0 <= len <= 32 -> length (generateHash text len) = Z.to_nat len.
Proof.
  intros Hl. unfold generateHash, substring0.
  rewrite length_take, md5_hex_length. lia.
Qed.

Lemma toLowerCase_key_char (c : N) :
  is_lower c || is_upper c || is_digit c = true ->
  is_key_char (toLowerCase c) = true.
Proof.
  intros Hc. unfold toLowerCase, is_key_char.
  destruct (is_upper c) eqn:Hu.
  - unfold is_upper in Hu. apply andb_true_iff in Hu as [H1 H2].
    apply N.leb_le in H1, H2. unfold is_lower.
    replace ((97 <=? c + 32)%N && (c + 32 <=? 122)%N) with true; [reflexivity |].
    symmetry. apply andb_true_iff; split; apply N.leb_le; lia.
  - rewrite Hu. rewrite orb_false_r in Hc.
    apply orb_true_iff in Hc as [-> | ->]; [reflexivity |].
    now rewrite orb_true_r.
Qed.

Lemma fallback_chars_key_chars (cleaned : jsstring) :
  (forall c, In c cleaned -> is_cjk c || is_lower c || is_upper c || is_digit c = true) ->
  forallb is_key_char
    (mjoin ((fun c => if is_cjk c then N_toString 36 c else [toLowerCase c])
              <$> cleaned)) = true.
Proof.
  induction cleaned as [| c cleaned IH]; intros Hkeep; simpl; [reflexivity |].
  apply forallb_app_true.
  - specialize (Hkeep c (or_introl eq_refl)).
    destruct (is_cjk c) eqn:Hc; [now apply N_toString_key_chars |].
    simpl in *. rewrite andb_true_r. now apply toLowerCase_key_char.
  - apply IH. intros d Hd. apply Hkeep. now right.
Qed.

(** X1.  The degraded path always yields a non-empty string of key
    characters. *)
Lemma fallbackKeyGeneration_key_chars text :
  forallb is_key_char (fallbackKeyGeneration text) = true
  /\ fallbackKeyGeneration text <> [].
Proof.
  unfold fallbackKeyGeneration.
  set (keep := fun c => is_cjk c || is_lower c || is_upper c || is_digit c).
  assert (Hkeep : forall c, In c (List.filter keep text) -> keep c = true).
  { intros c Hc. apply filter_In in Hc. tauto. }
  destruct (List.filter keep text) as [| c cleaned] eqn:Hf.
  - split; [apply generateHash_key_chars |].
    intros He. pose proof (generateHash_length text 8 ltac:(lia)) as Hl.
    rewrite He in Hl. discriminate.
  - split; [now apply fallback_chars_key_chars |].
    simpl. destruct (is_cjk c).
    + intros He. apply app_eq_nil in He as [He _].
      now apply N_toString_nonempty in He.
    + discriminate.
Qed.

Lemma limitLength_key_chars pinyin text :
  forallb is_key_char (separator cfg) = true ->
  forallb is_key_char pinyin = true ->
  forallb is_key_char (limitLength cfg pinyin text) = true.
Proof.
  intros Hsep Hp. unfold limitLength.
  destruct (str_length pinyin <=? maxChineseLength cfg); [exact Hp |].
  apply forallb_app_true; [now apply forallb_take_true |].
  apply forallb_app_true; [exact Hsep | apply generateHash_key_chars].
Qed.

Lemma limitLength_nonempty pinyin text :
  validated cfg -> pinyin <> [] -> limitLength cfg pinyin text <> [].
Proof.
  intros (Hmax & _ & Hsep) Hp. unfold limitLength.
  destruct (str_length pinyin <=? maxChineseLength cfg); [exact Hp |].
  intros He. apply app_eq_nil in He as [_ He]. apply app_eq_nil in He as [He _].
  rewrite He in Hsep. simpl in Hsep. lia.
Qed.

Lemma validateKey_intro key :
  key <> [] ->
  (truthy (keyPrefix cfg) = true -> startsWith key (keyPrefix cfg) = true) ->
  forallb is_key_char key = true ->
  validateKey cfg key = true.
Proof.
  intros Hne Hpre Hchars. unfold validateKey.
  apply truthy_nonempty in Hne. rewrite Hne. simpl.
  destruct (truthy (keyPrefix cfg)); simpl; [| exact Hchars].
  rewrite Hpre by reflexivity. exact Hchars.
Qed.

Lemma validateKey_elim key :
  validateKey cfg key = true ->
  key <> [] /\
  (truthy (keyPrefix cfg) = true -> startsWith key (keyPrefix cfg) = true) /\
  forallb is_key_char key = true.
Proof.
  unfold validateKey. destruct (truthy key) eqn:Hk; simpl; [| discriminate].
  apply truthy_nonempty in Hk.
  destruct (truthy (keyPrefix cfg)); simpl.
  - destruct (startsWith key (keyPrefix cfg)); simpl; [auto | discriminate].
  - intros Hc. repeat split; [exact Hk | discriminate | exact Hc].
Qed.

Lemma prefixedKey_valid text :
  validated cfg ->
  forallb is_key_char (separator cfg) = true ->
  forallb is_key_char (keyPrefix cfg) = true ->
  convertToPinyin cfg text <> [] ->
  forallb is_key_char (convertToPinyin cfg text) = true ->
  validateKey cfg (prefixedKey cfg text) = true.
Proof.
  intros Hv Hsep Hpre Hne Hp. unfold prefixedKey.
  pose proof (limitLength_key_chars _ text Hsep Hp) as Hc.
  pose proof (limitLength_nonempty _ text Hv Hne) as Hn.
  destruct (truthy (keyPrefix cfg)) eqn:Ht.
  - apply validateKey_intro.
    + apply truthy_nonempty in Ht. intros He. apply app_eq_nil in He as [He _]. auto.
    + intros _. apply startsWith_app.
    + apply forallb_app_true; [exact Hpre |]. now apply forallb_app_true.
  - apply validateKey_intro; [exact Hn | rewrite Ht; discriminate | exact Hc].
Qed.

Lemma handleDuplicateKey_valid now baseKey text :
  forallb is_key_char (separator cfg) = true ->
  validateKey cfg baseKey = true ->
  validateKey cfg (handleDuplicateKey cfg now baseKey text) = true.
Proof.
  intros Hsep Hb. apply validateKey_elim in Hb as (Hne & Hpre & Hc).
  unfold handleDuplicateKey. apply validateKey_intro.
  - intros He. apply app_eq_nil in He as [He _]. auto.
  - intros Ht. apply startsWith_app_r. auto.
  - apply forallb_app_true; [exact Hc |].
    apply forallb_app_true; [exact Hsep | apply generateHash_key_chars].
Qed.

(** *** Without reuse *)

Lemma generateKey_no_reuse now text g :
  reuseExistingKey cfg = false ->
  generateKey cfg now text g =
  let baseKey := prefixedKey cfg text in
  let finalKey := if bool_decide (baseKey ∈ existingKeys g)
                  then handleDuplicateKey cfg now baseKey text else baseKey in
  (finalKey, {| existingKeys := {[finalKey]} ∪ existingKeys g;
                textToKeyMap := <[text := finalKey]> (textToKeyMap g) |}).
Proof. intros Hr. unfold generateKey. rewrite Hr. reflexivity. Qed.

Lemma generateKey_no_reuse_marks now text g :
  reuseExistingKey cfg = false ->
  prefixedKey cfg text ∈ existingKeys (generateKey cfg now text g).2.
Proof.
  intros Hr. rewrite generateKey_no_reuse by exact Hr. simpl.
  case_bool_decide; set_solver.
Qed.

Lemma generateKey_no_reuse_duplicate now text g :
  reuseExistingKey cfg = false ->
  prefixedKey cfg text ∈ existingKeys g ->
  (generateKey cfg now text g).1
  = handleDuplicateKey cfg now (prefixedKey cfg text) text.
Proof.
  intros Hr Hin. rewrite generateKey_no_reuse by exact Hr. simpl.
  now rewrite bool_decide_eq_true_2.
Qed.

End Facts.

(** *** The claims about the generator *)

Section Claims.
Context `{PinyinPro} `{Md5}.

(** C8.  When the transliteration of [text] is longer than
    [maxChineseLength], the base key that [limitLength] builds is the
    first [maxChineseLength] characters of the transliteration, then the
    separator, then the first [hashLength] characters of the MD5 digest of
    the original [text]; and this is the key [generateKey] returns when no
    prefix is configured and neither the memo nor the duplicate handling
    steps in. *)
Theorem limitLength_long_transliteration (cfg : KeyGenerationConfig) (text : jsstring) :
  maxChineseLength cfg < str_length (convertToPinyin cfg text) ->
  let pinyin := convertToPinyin cfg text in
  let truncated := take (Z.to_nat (maxChineseLength cfg)) pinyin in
  let digest := take (Z.to_nat (hashLength cfg)) (md5_hex text) in
  limitLength cfg pinyin text = truncated ++ separator cfg ++ digest
  /\ (0 <= maxChineseLength cfg -> length truncated = Z.to_nat (maxChineseLength cfg))
  /\ (0 <= hashLength cfg <= 32 -> length digest = Z.to_nat (hashLength cfg))
  /\ (forall now g,
        keyPrefix cfg = [] ->
        (if reuseExistingKey cfg then textToKeyMap g !! text = None
         else truncated ++ separator cfg ++ digest ∉ existingKeys g) ->
        (generateKey cfg now text g).1 = truncated ++ separator cfg ++ digest).
Proof.
  intros Hlong pinyin truncated digest.
  assert (Hlimit : limitLength cfg pinyin text = truncated ++ separator cfg ++ digest).
  { unfold limitLength. fold pinyin in Hlong.
    destruct (Z.leb_spec (str_length pinyin) (maxChineseLength cfg)); [lia |].
    reflexivity. }
  split; [exact Hlimit |]. split; [| split].
  - intros Hmax. unfold truncated. rewrite length_take.
    unfold str_length in Hlong. fold pinyin in Hlong. lia.
  - intros Hhl. unfold digest. rewrite length_take, md5_hex_length. lia.
  - intros now g Hpre Hfresh. unfold generateKey, prefixedKey.
    fold pinyin. rewrite Hlimit, Hpre. simpl.
    destruct (reuseExistingKey cfg); simpl.
    + rewrite Hfresh. reflexivity.
    + now rewrite bool_decide_eq_false_2.
Qed.

(** C9.  With [reuseExistingKey = true], in any run of [generateKey]
    calls on one generator, two calls with the same text return the same
    key: a later call returns the key of the first one. *)
Theorem generateKey_reuse_deterministic (cfg : KeyGenerationConfig)
    (calls : list (Z * jsstring)) (g : KeyGenerator) (i j : nat) (ni nj : Z)
    (text ki kj : jsstring) :
  reuseExistingKey cfg = true ->
  calls !! i = Some (ni, text) ->
  calls !! j = Some (nj, text) ->
  (generateKey_seq cfg calls g).1 !! i = Some ki ->
  (generateKey_seq cfg calls g).1 !! j = Some kj ->
  ki = kj.
Proof.
  intros Hr Hi Hj Hki Hkj.
  destruct (lt_eq_lt_dec i j) as [[Hlt | ->] | Hgt].
  - exact (generateKey_seq_ordered cfg calls g i j ni nj text ki kj Hr Hlt Hi Hj Hki Hkj).
  - congruence.
  - symmetry.
    exact (generateKey_seq_ordered cfg calls g j i nj ni text kj ki Hr Hgt Hj Hi Hkj Hki).
Qed.

(** Every key a generator has memoized passes [validateKey]. *)
Definition memo_valid (cfg : KeyGenerationConfig) (g : KeyGenerator) : Prop :=
  forall t k, textToKeyMap g !! t = Some k -> validateKey cfg k = true.

(** C2, as amended.  [generateKey] is a total function (it returns a key
    for every text, configuration and generator).  For a configuration
    the schema accepts whose separator and prefix are made of
    [[a-zA-Z0-9_.-]], and a text whose transliteration is not empty and is
    made of such characters, the key passes [validateKey], given that the
    keys memoized so far do; and then the keys memoized afterwards do. *)
Theorem generateKey_valid_on_key_chars (cfg : KeyGenerationConfig) (now : Z)
    (text : jsstring) (g : KeyGenerator) :
  validated cfg ->
  forallb is_key_char (separator cfg) = true ->
  forallb is_key_char (keyPrefix cfg) = true ->
  convertToPinyin cfg text <> [] ->
  forallb is_key_char (convertToPinyin cfg text) = true ->
  memo_valid cfg g ->
  validateKey cfg (generateKey cfg now text g).1 = true
  /\ memo_valid cfg (generateKey cfg now text g).2.
Proof.
  intros Hv Hsep Hpre Hne Hp Hmemo.
  pose proof (prefixedKey_valid cfg text Hv Hsep Hpre Hne Hp) as Hbase.
  unfold generateKey.
  destruct (if reuseExistingKey cfg then textToKeyMap g !! text else None)
    as [key |] eqn:Hhit.
  - simpl. split; [| exact Hmemo].
    destruct (reuseExistingKey cfg); [| discriminate]. eauto.
  - set (finalKey := if negb (reuseExistingKey cfg)
                          && bool_decide (prefixedKey cfg text ∈ existingKeys g)
                     then handleDuplicateKey cfg now (prefixedKey cfg text) text
                     else prefixedKey cfg text).
    assert (Hfinal : validateKey cfg finalKey = true).
    { unfold finalKey.
      destruct (negb (reuseExistingKey cfg)
                && bool_decide (prefixedKey cfg text ∈ existingKeys g));
        [now apply handleDuplicateKey_valid | exact Hbase]. }
    simpl. split; [exact Hfinal |].
    intros t k. simpl. rewrite lookup_insert.
    case_decide; [congruence | apply Hmemo].
Qed.

(** C3, the defect.  With [reuseExistingKey = false], once a text has
    been given a key, two further calls with that text that read the same
    value of [Date.now()] return the same key: the third call repeats the
    key of the second. *)
Theorem generateKey_same_clock_same_key (cfg : KeyGenerationConfig) (now1 now : Z)
    (text : jsstring) (g : KeyGenerator) :
  let cfg' := with_reuse false cfg in
  let g1 := (generateKey cfg' now1 text g).2 in
  let g2 := (generateKey cfg' now text g1).2 in
  (generateKey cfg' now text g2).1 = (generateKey cfg' now text g1).1.
Proof.
  intros cfg' g1 g2.
  assert (Hr : reuseExistingKey cfg' = false) by reflexivity.
  rewrite !generateKey_no_reuse_duplicate; try exact Hr.
  - reflexivity.
  - apply generateKey_no_reuse_marks. exact Hr.
  - apply generateKey_no_reuse_marks. exact Hr.
Qed.

(** X2.  What holds of the first two calls: on a generator that has not
    seen the base key, and with a separator that is not empty, the second
    call returns a key different from the first. *)
Lemma generateKey_no_reuse_first_two_differ (cfg : KeyGenerationConfig) (now1 now2 : Z)
    (text : jsstring) (g : KeyGenerator) :
  reuseExistingKey cfg = false ->
  separator cfg <> [] ->
  prefixedKey cfg text ∉ existingKeys g ->
  let g1 := (generateKey cfg now1 text g).2 in
  (generateKey cfg now1 text g).1 = prefixedKey cfg text
  /\ (generateKey cfg now2 text g1).1
     = handleDuplicateKey cfg now2 (prefixedKey cfg text) text
  /\ (generateKey cfg now2 text g1).1 <> (generateKey cfg now1 text g).1.
Proof.
  intros Hr Hsep Hfresh g1.
  assert (H1 : (generateKey cfg now1 text g).1 = prefixedKey cfg text).
  { rewrite generateKey_no_reuse by exact Hr. simpl.
    now rewrite bool_decide_eq_false_2. }
  assert (H2 : (generateKey cfg now2 text g1).1
               = handleDuplicateKey cfg now2 (prefixedKey cfg text) text).
  { apply generateKey_no_reuse_duplicate; [exact Hr |].
    now apply generateKey_no_reuse_marks. }
  split; [exact H1 |]. split; [exact H2 |].
  rewrite H1, H2. unfold handleDuplicateKey. intros Heq.
  apply (f_equal (@length N)) in Heq. rewrite !length_app in Heq.
  destruct (separator cfg); [congruence | simpl in Heq; lia].
Qed.

End Claims.

(** The end-to-end example of the documentation: the default
    configuration gives U+63D0 U+4EA4 the key [ti_jiao], and a second call
    returns it again. *)
Example generateKey_ti_jiao :
  (generateKey_seq default_config [(0, ti_jiao); (1, ti_jiao)] empty_generator).1
  = [lit "ti_jiao"; lit "ti_jiao"].
Proof. vm_compute. reflexivity. Qed.

(** The length-handling example: [maxChineseLength = 5], [hashLength = 6]. *)
Example generateKey_long_ti_jiao :
  (generateKey (short_config true) 0 ti_jiao empty_generator).1
  = lit "ti_ji" ++ lit "_" ++ take 6 (md5_hex ti_jiao).
Proof. vm_compute. reflexivity. Qed.

(** Three calls without reuse, the last two in the same millisecond. *)
Example generateKey_no_reuse_three_calls :
  (generateKey_seq (with_reuse false default_config)
     [(1700000000000, ti_jiao); (1700000000001, ti_jiao); (1700000000001, ti_jiao)]
     empty_generator).1
  = [lit "ti_jiao"; lit "ti_jiao_ffffff"; lit "ti_jiao_ffffff"].
Proof. vm_compute. reflexivity. Qed.

Lemma limitLength_long_transliteration_witness :
  maxChineseLength (short_config true)
  < str_length (convertToPinyin (short_config true) ti_jiao)
  /\ limitLength (short_config true) (convertToPinyin (short_config true) ti_jiao) ti_jiao
     = lit "ti_ji" ++ lit "_" ++ take 6 (md5_hex ti_jiao).
Proof.
  assert (Hlong : maxChineseLength (short_config true)
                  < str_length (convertToPinyin (short_config true) ti_jiao))
    by (vm_compute; reflexivity).
  split; [exact Hlong |].
  exact (proj1 (limitLength_long_transliteration (short_config true) ti_jiao Hlong)).
Defined.

Lemma generateKey_reuse_deterministic_witness :
  reuseExistingKey default_config = true
  /\ (generateKey_seq default_config [(0, ti_jiao); (1, lit "ok"); (2, ti_jiao)]
        empty_generator).1 !! 0%nat = Some (lit "ti_jiao")
  /\ (generateKey_seq default_config [(0, ti_jiao); (1, lit "ok"); (2, ti_jiao)]
        empty_generator).1 !! 2%nat = Some (lit "ti_jiao")
  /\ lit "ti_jiao" = lit "ti_jiao".
Proof.
  assert (H0 : (generateKey_seq default_config
                  [(0, ti_jiao); (1, lit "ok"); (2, ti_jiao)]
                  empty_generator).1 !! 0%nat = Some (lit "ti_jiao"))
    by (vm_compute; reflexivity).
  assert (H2 : (generateKey_seq default_config
                  [(0, ti_jiao); (1, lit "ok"); (2, ti_jiao)]
                  empty_generator).1 !! 2%nat = Some (lit "ti_jiao"))
    by (vm_compute; reflexivity).
  split; [reflexivity |]. split; [exact H0 |]. split; [exact H2 |].
  exact (generateKey_reuse_deterministic default_config
           [(0, ti_jiao); (1, lit "ok"); (2, ti_jiao)] empty_generator
           0 2 0 2 ti_jiao (lit "ti_jiao") (lit "ti_jiao")
           eq_refl eq_refl eq_refl H0 H2).
Defined.

Lemma memo_valid_empty (cfg : KeyGenerationConfig) : memo_valid cfg empty_generator.
Proof. intros t k Hk. simpl in Hk. rewrite lookup_empty in Hk. discriminate. Qed.

Lemma generateKey_valid_on_key_chars_witness :
  validated default_config
  /\ validateKey default_config (generateKey default_config 0 ti_jiao empty_generator).1
     = true.
Proof.
  assert (Hv : validated default_config).
  { unfold validated. simpl. lia. }
  split; [exact Hv |].
  refine (proj1 (generateKey_valid_on_key_chars default_config 0 ti_jiao
                   empty_generator Hv eq_refl eq_refl _ eq_refl
                   (memo_valid_empty default_config))).
  vm_compute. discriminate.
Defined.

(** C2 as stated fails: [slash_config] passes the schema, and no key it
    produces passes [validateKey], whatever the two libraries return; with
    the stand-in transliterator the key of U+63D0 U+4EA4 is [app/ti/jiao]. *)
Lemma generateKey_key_fails_validateKey :
  validated slash_config
  /\ (generateKey slash_config 0 ti_jiao empty_generator).1 = lit "app/ti/jiao"
  /\ validateKey slash_config (lit "app/ti/jiao") = false
  /\ (forall (P : PinyinPro) (D : Md5) now text g,
        validateKey slash_config (@generateKey P D slash_config now text g).1 = false).
Proof.
  split; [unfold validated; simpl; lia |].
  split; [vm_compute; reflexivity |].
  split; [vm_compute; reflexivity |].
  intros P D now text g.
  rewrite generateKey_no_reuse by reflexivity. simpl.
  unfold validateKey.
  assert (Hshape : forall s, exists rest,
             prefixedKey slash_config s = lit "app" ++ 47%N :: rest).
  { intros s. unfold prefixedKey. simpl. eauto. }
  destruct (Hshape text) as [rest Hrest].
  case_bool_decide; unfold handleDuplicateKey; rewrite Hrest; reflexivity.
Qed.

End KeyGenFacts.

(** ** LLMClient: retries *)

Module RetryFacts.

Import LLM.

(** The delays the client slept for, in order, and the number of
    provider invocations in a list of events. *)
Definition delays (events : list Event) : list Z :=
  omap (fun e => match e with Slept ms => Some ms | _ => None end) events.

Definition invoked (events : list Event) : nat :=
  length (List.filter (fun e => match e with Invoked _ => true | _ => false end) events).

(** What a failed attempt that is retried leaves in the trace. *)
Definition failed_round (prompt : jsstring) (maxRetries attempt : Z)
    (error : Thrown) : list Event :=
  [Invoked prompt;
   Warned (RetryWarning (2 ^ attempt * 1000) (attempt + 1) maxRetries
             (errorMessage error));
   Slept (2 ^ attempt * 1000)].

Fixpoint failed_rounds (prompt : jsstring) (maxRetries : Z) (failure : nat -> Thrown)
    (rounds n : nat) (attempt : Z) : list Event :=
  match rounds with
  | O => []
  | S rounds' =>
      failed_round prompt maxRetries attempt (failure n)
      ++ failed_rounds prompt maxRetries failure rounds' (S n) (attempt + 1)
  end.

(** A provider for the examples: every invocation rejects with the
    [Error] "timeout" followed by the number of the invocation. *)
Definition always_failing : LanguageModel :=
  fun n _ => inl (ThrownError {| message := lit "timeout" ++ N_toString 10 (N.of_nat n) |}).

Definition new_world : World := {| invocations := 0; trace := [] |}.

Section Retry.

Lemma message_toError (t : Thrown) : message (toError t) = errorMessage t.
Proof. destruct t; reflexivity. Qed.

Lemma delays_app (l1 l2 : list Event) : delays (l1 ++ l2) = delays l1 ++ delays l2.
Proof. unfold delays. apply omap_app. Qed.

Lemma invoked_app (l1 l2 : list Event) : invoked (l1 ++ l2) = (invoked l1 + invoked l2)%nat.
Proof. unfold invoked. rewrite List.filter_app, length_app. reflexivity. Qed.

Lemma delays_failed_rounds prompt maxRetries failure rounds n attempt :
  delays (failed_rounds prompt maxRetries failure rounds n attempt)
  = (fun a => 1000 * 2 ^ a) <$> seqZ attempt (Z.of_nat rounds).
Proof.
  revert n attempt. induction rounds as [| rounds IH]; intros n attempt.
  - reflexivity.
  - rewrite seqZ_cons by lia. cbn [failed_rounds]. rewrite delays_app, IH.
    replace (Z.pred (Z.of_nat (S rounds))) with (Z.of_nat rounds) by lia.
    replace (Z.succ attempt) with (attempt + 1) by lia.
    cbn. f_equal. lia.
Qed.

Lemma invoked_failed_rounds prompt maxRetries failure rounds n attempt :
  invoked (failed_rounds prompt maxRetries failure rounds n attempt) = rounds.
Proof.
  revert n attempt. induction rounds as [| rounds IH]; intros n attempt.
  - reflexivity.
  - cbn [failed_rounds]. rewrite invoked_app, IH. reflexivity.
Qed.

Lemma retry_loop_failed_attempt llm prompt maxRetries trips attempt lastError w error :
  llm (invocations w) prompt = inl error ->
  retry_loop llm prompt maxRetries (S trips) attempt lastError w
  = retry_loop llm prompt maxRetries trips (attempt + 1) (Some (toError error))
      (let w1 := {| invocations := S (invocations w);
                    trace := trace w ++ [Invoked prompt] |} in
       if attempt <? maxRetries then
         log (Slept (2 ^ attempt * 1000))
           (log (Warned (RetryWarning (2 ^ attempt * 1000) (attempt + 1) maxRetries
                           (message (toError error)))) w1)
       else w1).
Proof. intros Herr. cbn [retry_loop]. rewrite Herr. reflexivity. Qed.

(** The loop on a provider that rejects every invocation: [rounds]
    attempts are retried, the last one is not. *)
Lemma retry_loop_failing llm prompt maxRetries failure rounds :
  (forall n, llm n prompt = inl (failure n)) ->
  forall attempt lastError w,
  attempt + Z.of_nat rounds = maxRetries ->
  retry_loop llm prompt maxRetries (S rounds) attempt lastError w
  = (inl (ThrownError (toError (failure (invocations w + rounds)%nat))),
     {| invocations := invocations w + S rounds;
        trace := trace w
                 ++ failed_rounds prompt maxRetries failure rounds (invocations w) attempt
                 ++ [Invoked prompt] |}).
Proof.
  intros Hfail. induction rounds as [| rounds IH]; intros attempt lastError w Hlast;
    rewrite (retry_loop_failed_attempt _ _ _ _ _ _ _ _ (Hfail _)).
  - destruct (Z.ltb_spec attempt maxRetries); [lia |].
    cbn. replace (invocations w + 0)%nat with (invocations w) by lia.
    repeat f_equal. lia.
  - destruct (Z.ltb_spec attempt maxRetries); [| lia].
    rewrite IH by lia. cbn [log invocations trace failed_rounds failed_round].
    rewrite message_toError.
    f_equal.
    + replace (S (invocations w) + rounds)%nat with (invocations w + S rounds)%nat by lia.
      reflexivity.
    + f_equal; [lia |]. unfold failed_round. rewrite <- !app_assoc. reflexivity.
Qed.

(** C4.  Against a provider that rejects every invocation, and for a
    retry count that is not negative, [invokeWithRetry] invokes the
    provider exactly [maxRetries + 1] times, sleeps [1000 * 2^attempt]
    milliseconds after the failed attempt number [attempt] for
    [attempt = 0, ..., maxRetries - 1] (so between consecutive attempts,
    and not after the last one), and then rejects with the last error it
    received (turned into an [Error] when the provider rejected with
    something else). *)
Theorem invokeWithRetry_always_failing (llm : LanguageModel) (prompt : jsstring)
    (maxRetries : Z) (failure : nat -> Thrown) (w : World) :
  0 <= maxRetries ->
  (forall n, llm n prompt = inl (failure n)) ->
  exists events,
    invokeWithRetry llm prompt maxRetries w
    = (inl (ThrownError
              (toError (failure (invocations w + Z.to_nat maxRetries)%nat))),
       {| invocations := invocations w + Z.to_nat (maxRetries + 1);
          trace := trace w ++ events |})
    /\ events = failed_rounds prompt maxRetries failure (Z.to_nat maxRetries)
                  (invocations w) 0 ++ [Invoked prompt]
    /\ Z.of_nat (invoked events) = maxRetries + 1
    /\ delays events = (fun attempt => 1000 * 2 ^ attempt) <$> seqZ 0 maxRetries.
Proof.
  intros Hmax Hfail. eexists. split; [| split; [reflexivity | split]].
  - unfold invokeWithRetry.
    replace (Z.to_nat (maxRetries + 1)) with (S (Z.to_nat maxRetries)) by lia.
    rewrite (retry_loop_failing llm prompt maxRetries failure _ Hfail) by lia.
    reflexivity.
  - rewrite invoked_app, invoked_failed_rounds. cbn. lia.
  - rewrite delays_app, delays_failed_rounds. cbn. rewrite app_nil_r.
    f_equal. f_equal. lia.
Qed.

(** A provider that answers at once is invoked once and nothing is
    slept. *)
Lemma invokeWithRetry_first_success llm prompt maxRetries content w :
  0 <= maxRetries ->
  llm (invocations w) prompt = inr content ->
  invokeWithRetry llm prompt maxRetries w
  = (inr content,
     {| invocations := S (invocations w); trace := trace w ++ [Invoked prompt] |}).
Proof.
  intros Hmax Hok. unfold invokeWithRetry.
  replace (Z.to_nat (maxRetries + 1)) with (S (Z.to_nat maxRetries)) by lia.
  cbn [retry_loop]. now rewrite Hok.
Qed.

(** A negative retry count makes no invocation at all. *)
Lemma invokeWithRetry_negative llm prompt maxRetries w :
  maxRetries < 0 ->
  invokeWithRetry llm prompt maxRetries w
  = (inl (ThrownError {| message := msg_call_failed |}), w).
Proof.
  intros Hneg. unfold invokeWithRetry.
  replace (Z.to_nat (maxRetries + 1)) with O by lia. reflexivity.
Qed.

Lemma withRetry_loop_failed_attempt {T} (operation : nat -> Thrown + T) options
    trips attempt lastError w error :
  operation (invocations w) = inl error ->
  withRetry_loop operation options (S trips) attempt lastError w
  = let w1 := {| invocations := S (invocations w);
                 trace := trace w ++ [Invoked []] |} in
    if (attempt =? maxRetries options) || negb (shouldRetry options error)
    then (inl error, w1)
    else withRetry_loop operation options trips (attempt + 1) error
           (log (Slept (baseDelay options * 2 ^ attempt))
              (log (Warned (RetryWarning (baseDelay options * 2 ^ attempt)
                              (attempt + 1) (maxRetries options)
                              (errorMessage error))) w1)).
Proof. intros Herr. cbn [withRetry_loop]. rewrite Herr. reflexivity. Qed.

(** [ErrorUtils.withRetry] with a [shouldRetry] that always agrees (the
    default) follows the same schedule, with [baseDelay] in place of
    1000, and rejects with the last value thrown, as it is. *)
Lemma withRetry_loop_failing {T} (operation : nat -> Thrown + T) options failure rounds :
  (forall n, operation n = inl (failure n)) ->
  (forall e, shouldRetry options e = true) ->
  forall attempt lastError w,
  attempt + Z.of_nat rounds = maxRetries options ->
  exists events,
    withRetry_loop operation options (S rounds) attempt lastError w
    = (inl (failure (invocations w + rounds)%nat),
       {| invocations := invocations w + S rounds; trace := trace w ++ events |})
    /\ invoked events = S rounds
    /\ delays events
       = (fun a => baseDelay options * 2 ^ a) <$> seqZ attempt (Z.of_nat rounds).
Proof.
  intros Hfail Hretry. induction rounds as [| rounds IH]; intros attempt lastError w Hlast;
    rewrite (withRetry_loop_failed_attempt _ _ _ _ _ _ _ (Hfail _)), Hretry;
    cbn [negb orb].
  - exists [Invoked []].
    destruct (Z.eqb_spec attempt (maxRetries options)); [| lia].
    cbn. replace (invocations w + 0)%nat with (invocations w) by lia.
    repeat split. repeat f_equal. lia.
  - destruct (Z.eqb_spec attempt (maxRetries options)); [lia |]. cbn [orb].
    edestruct (IH (attempt + 1) (failure (invocations w))) as (events & Hrun & Hinv & Hdel);
      [lia |].
    rewrite Hrun. eexists. split; [| split].
    + cbn [log invocations trace].
      replace (S (invocations w) + rounds)%nat with (invocations w + S rounds)%nat by lia.
      f_equal. f_equal; [lia |]. rewrite <- !app_assoc. reflexivity.
    + rewrite !invoked_app, Hinv. reflexivity.
    + rewrite !delays_app, Hdel. rewrite (seqZ_cons attempt) by lia.
      replace (Z.pred (Z.of_nat (S rounds))) with (Z.of_nat rounds) by lia.
      replace (Z.succ attempt) with (attempt + 1) by lia. reflexivity.
Qed.

(** X8.  Against an operation that fails every time, with a [shouldRetry]
    that always agrees and a retry count that is not negative,
    [ErrorUtils.withRetry] runs the operation [maxRetries + 1] times,
    pauses [baseDelay * 2^attempt] milliseconds after each attempt but the
    last, and rejects with the last value thrown, as it is. *)
Lemma withRetry_always_failing {T} (operation : nat -> Thrown + T) options failure w :
  0 <= maxRetries options ->
  (forall n, operation n = inl (failure n)) ->
  (forall e, shouldRetry options e = true) ->
  exists events,
    withRetry operation options w
    = (inl (failure (invocations w + Z.to_nat (maxRetries options))%nat),
       {| invocations := invocations w + Z.to_nat (maxRetries options + 1);
          trace := trace w ++ events |})
    /\ Z.of_nat (invoked events) = maxRetries options + 1
    /\ delays events
       = (fun a => baseDelay options * 2 ^ a) <$> seqZ 0 (maxRetries options).
Proof.
  intros Hmax Hfail Hretry. unfold withRetry.
  replace (Z.to_nat (maxRetries options + 1)) with (S (Z.to_nat (maxRetries options)))
    by lia.
  edestruct (withRetry_loop_failing operation options failure
               (Z.to_nat (maxRetries options)) Hfail Hretry 0
               (ThrownValue (lit "undefined")) w)
    as (events & Hrun & Hinv & Hdel); [lia |].
  exists events. rewrite Hrun. split; [reflexivity |]. split; [lia |].
  rewrite Hdel. do 2 f_equal. lia.
Qed.

End Retry.

(** The retry-bound example: two retries, three invocations, delays of
    one and two seconds, and the error of the third invocation. *)
Example invokeWithRetry_two_retries :
  exists events,
    invokeWithRetry always_failing (lit "translate") 2 new_world
    = (inl (ThrownError {| message := lit "timeout2" |}),
       {| invocations := 3; trace := events |})
    /\ invoked events = 3%nat
    /\ delays events = [1000; 2000].
Proof. eexists. split; [vm_compute; reflexivity |]. split; reflexivity. Qed.

Lemma invokeWithRetry_always_failing_witness :
  0 <= 2
  /\ (forall n, always_failing n (lit "translate")
                = inl (ThrownError {| message := lit "timeout" ++ N_toString 10 (N.of_nat n) |}))
  /\ exists events,
       invokeWithRetry always_failing (lit "translate") 2 new_world
       = (inl (ThrownError {| message := lit "timeout" ++ N_toString 10 2 |}),
          {| invocations := 3; trace := events |})
       /\ Z.of_nat (invoked events) = 3
       /\ delays events = [1000; 2000].
Proof.
  assert (Hmax : 0 <= 2) by lia.
  assert (Hfail : forall n, always_failing n (lit "translate")
            = inl (ThrownError {| message := lit "timeout" ++ N_toString 10 (N.of_nat n) |}))
    by reflexivity.
  split; [exact Hmax |]. split; [exact Hfail |].
  destruct (invokeWithRetry_always_failing always_failing (lit "translate") 2 _
              new_world Hmax Hfail) as (events & Hrun & _ & Hinv & Hdel).
  exists events. split; [exact Hrun |]. split; [exact Hinv | exact Hdel].
Defined.

End RetryFacts.

(** ** LLMClient: batch translation *)

Module BatchFacts.

Import LLM RetryFacts.

Section Batches.
Context `{Runtime}.
Variable config : LLMConfig.
Variable translationLLM : LanguageModel.
Variable texts : list (jsstring * jsstring).

(** The keys of the batch that starts at index [i]. *)
Definition batch_keys (i : Z) : list jsstring :=
  slice (object_keys texts) i (i + translation_batchSize config).

(** What the external call of the round that starts at index [i]
    resolves or rejects with, in the world [w]. *)
Definition round_outcome (i : Z) (w : World) : Thrown + gmap jsstring jsstring :=
  (translateBatch config translationLLM
     ((fun key => (key, object_get texts key)) <$> batch_keys i) w).1.

(** The rounds of a run from index [i] on: the start index of each round
    and the outcome of its external call. *)
Fixpoint rounds (fuel : nat) (i : Z) (w : World)
  : list (Z * (Thrown + gmap jsstring jsstring)) :=
  if i <? Z.of_nat (length (object_keys texts)) then
    match fuel with
    | O => []
    | S fuel' =>
        (i, round_outcome i w)
        :: rounds fuel' (i + translation_batchSize config)
             (batch_round config translationLLM texts i ∅ w).2
    end
  else [].

(** What a round does to the mapping. *)
Definition absorb (translations : gmap jsstring jsstring)
    (round : Z * (Thrown + gmap jsstring jsstring)) : gmap jsstring jsstring :=
  match round.2 with
  | inr batchTranslations => batchTranslations ∪ translations
  | inl _ => use_original texts (batch_keys round.1) translations
  end.

Lemma use_original_lookup (batchKeys : list jsstring)
    (translations : gmap jsstring jsstring) (key : jsstring) :
  use_original texts batchKeys translations !! key
  = if decide (key ∈ batchKeys) then Some (object_get texts key)
    else translations !! key.
Proof.
  unfold use_original. revert translations.
  induction batchKeys as [| k batchKeys IH]; intros translations; simpl.
  - destruct (decide (key ∈ [])) as [Hin | _]; [set_solver | reflexivity].
  - rewrite IH.
    destruct (decide (key ∈ batchKeys)) as [Hin | Hout];
      destruct (decide (key ∈ k :: batchKeys)) as [Hhere | Hnot].
    + reflexivity.
    + exfalso. apply Hnot. now apply elem_of_cons; right.
    + apply elem_of_cons in Hhere as [-> | Hin]; [| contradiction].
      apply lookup_insert_eq.
    + apply lookup_insert_ne. intros ->. apply Hnot. now apply elem_of_cons; left.
Qed.

Lemma absorb_failure (translations : gmap jsstring jsstring) (i : Z) (error : Thrown) :
  absorb translations (i, inl error) = use_original texts (batch_keys i) translations.
Proof. reflexivity. Qed.

Lemma batch_round_absorbs (i : Z) (translations : gmap jsstring jsstring) (w : World) :
  (batch_round config translationLLM texts i translations w).1
  = absorb translations (i, round_outcome i w).
Proof.
  unfold batch_round, absorb, round_outcome, batch_keys. cbn [fst snd].
  destruct (translateBatch config translationLLM _ w)
    as [[error | batchTranslations] w']; reflexivity.
Qed.

Lemma batch_round_world (i : Z) (translations : gmap jsstring jsstring) (w : World) :
  (batch_round config translationLLM texts i translations w).2
  = (batch_round config translationLLM texts i ∅ w).2.
Proof.
  unfold batch_round.
  destruct (translateBatch config translationLLM _ w)
    as [[error | batchTranslations] w']; reflexivity.
Qed.

Lemma batch_loop_rounds (fuel : nat) (i : Z) (translations : gmap jsstring jsstring)
    (w : World) (result : gmap jsstring jsstring) (w' : World) :
  batch_loop config translationLLM fuel texts i translations w = Some (result, w') ->
  result = foldl absorb translations (rounds fuel i w).
Proof.
  revert i translations w.
  induction fuel as [| fuel IH]; intros i translations w; cbn [batch_loop rounds];
    destruct (i <? Z.of_nat (length (object_keys texts)));
    try discriminate; try (intros [= <- <-]; reflexivity).
  destruct (batch_round config translationLLM texts i translations w)
    as [translations1 w1] eqn:Hround.
  intros Hloop. apply IH in Hloop. rewrite Hloop. cbn [foldl].
  rewrite <- batch_round_absorbs, <- (batch_round_world i translations), Hround.
  reflexivity.
Qed.

(** With a positive batch size the loop ends within [length texts]
    rounds. *)
Lemma batch_loop_returns (fuel : nat) (i : Z) (translations : gmap jsstring jsstring)
    (w : World) :
  1 <= translation_batchSize config ->
  Z.of_nat (length texts) - i <= Z.of_nat fuel ->
  is_Some (batch_loop config translationLLM fuel texts i translations w).
Proof.
  intros Hsize. revert i translations w.
  induction fuel as [| fuel IH]; intros i translations w Hfuel; simpl;
    unfold object_keys; rewrite length_fmap;
    destruct (Z.ltb_spec i (Z.of_nat (length texts))); eauto; try lia.
  destruct (batch_round config translationLLM texts i translations w)
    as [translations1 w1].
  apply IH. lia.
Qed.

(** Once a key holds its original text, later rounds keep it there
    unless one of them resolves with a response that has that key. *)
Lemma original_text_stays (key : jsstring)
    (later : list (Z * (Thrown + gmap jsstring jsstring)))
    (translations : gmap jsstring jsstring) :
  translations !! key = Some (object_get texts key) ->
  (forall j response, (j, inr response) ∈ later -> response !! key = None) ->
  foldl absorb translations later !! key = Some (object_get texts key).
Proof.
  revert translations.
  induction later as [| [j [error | response]] later IH]; intros translations Hkey Hlater;
    simpl; [exact Hkey | |].
  - apply IH; [| intros; eapply Hlater; right; eassumption].
    rewrite absorb_failure, use_original_lookup.
    case_decide; [reflexivity | exact Hkey].
  - apply IH; [| intros; eapply Hlater; right; eassumption].
    unfold absorb. simpl.
    rewrite lookup_union_r; [exact Hkey |]. eapply Hlater. left.
Qed.

(** In this client the external call of a round always fails, and it
    fails before a template is compiled or the provider invoked. *)
Lemma translateBatch_rejects (batchTexts : list (jsstring * jsstring)) (w : World) :
  translateBatch config translationLLM batchTexts w
  = (inl (ThrownError {| message := msg_not_defined |}), w).
Proof. reflexivity. Qed.

Lemma rounds_all_failed (fuel : nat) (i : Z) (w : World) :
  Forall (fun round => round.2 = inl (ThrownError {| message := msg_not_defined |}))
    (rounds fuel i w).
Proof.
  revert i w. induction fuel as [| fuel IH]; intros i w; simpl;
    destruct (i <? Z.of_nat (length (object_keys texts))); constructor; auto.
Qed.

(** C5.  With a positive batch size [batchTranslateTexts] returns a
    mapping (it never rejects).  For every round whose external call
    fails, each key of that batch is mapped to its original text in the
    mapping returned, and a failed round leaves the translation of every
    key outside its batch as it was.  (As the client is written the call
    of every round fails: [translateBatch] throws on
    [new TemplateManager()], so no later round resolves and writes over
    an original text.)  The run is not aborted: [processAll] returns its
    statistics, and the files it reports as failed are those whose own
    processing failed, whatever happened to the batches. *)
Theorem batchTranslateTexts_failed_batch (w : World) :
  1 <= translation_batchSize config ->
  (exists translations w',
     batchTranslateTexts config translationLLM texts w = Some (translations, w')
     /\ (forall earlier i error later key,
           rounds (length texts) 0 w = earlier ++ (i, inl error) :: later ->
           key ∈ batch_keys i ->
           translations !! key = Some (object_get texts key))
     /\ (forall i error before w0 key,
           round_outcome i w0 = inl error ->
           key ∉ batch_keys i ->
           (batch_round config translationLLM texts i before w0).1 !! key
           = before !! key)
     /\ Forall (fun round =>
                  round.2 = inl (ThrownError {| message := msg_not_defined |}))
          (rounds (length texts) 0 w))
  /\ (forall writeTranslationFile results skipTranslate,
       exists stats w',
         Processor.processAll_stats config translationLLM writeTranslationFile
           results texts skipTranslate w = Some (stats, w')
         /\ Processor.failedFiles stats
            = Processor.filePath
                <$> List.filter (fun r => negb (Processor.success r)) results).
Proof.
  intros Hsize.
  destruct (batch_loop_returns (length texts) 0 ∅ w Hsize ltac:(lia))
    as [[translations w'] Hrun].
  split.
  - exists translations, w'. split; [exact Hrun |]. split; [| split].
    + intros earlier i error later key Hrounds Hin.
      rewrite (batch_loop_rounds _ _ _ _ _ _ Hrun), Hrounds.
      rewrite foldl_app. cbn [foldl]. apply original_text_stays.
      * rewrite absorb_failure, use_original_lookup.
        case_decide; [reflexivity | contradiction].
      * intros j response Hlater.
        pose proof (rounds_all_failed (length texts) 0 w) as Hall.
        rewrite Hrounds in Hall. apply Forall_app in Hall as [_ Hall].
        apply Forall_cons in Hall as [_ Hall].
        rewrite Forall_forall in Hall. apply Hall in Hlater. discriminate.
    + intros i error before w0 key Hfail Hout.
      rewrite batch_round_absorbs, Hfail, absorb_failure, use_original_lookup.
      case_decide; [contradiction | reflexivity].
    + apply rounds_all_failed.
  - intros writeTranslationFile results skipTranslate.
    unfold Processor.processAll_stats, Processor.processTranslation.
    fold (batchTranslateTexts config translationLLM texts w) in Hrun.
    destruct (negb skipTranslate && (0 <? Z.of_nat (length texts)));
      [rewrite Hrun |]; simpl; eauto.
Qed.

(** For every configuration the schema accepts the run ends. *)
Lemma batchTranslateTexts_returns (w : World) :
  LLM.validated config ->
  is_Some (batchTranslateTexts config translationLLM texts w).
Proof.
  intros [_ [Hsize _]]. apply batch_loop_returns; [exact Hsize | lia].
Qed.

End Batches.

(** A runtime for the examples: responses are not fenced, every response
    parses to the same two translations, and the prompt lists the keys. *)
#[export] Instance fixed_runtime : Runtime := {|
  fenced_json := fun _ => None;
  json_translations := fun _ =>
    inr (Some ({[ lit "a" := lit "X"; lit "b" := lit "Y" ]} : gmap jsstring jsstring));
  compileTranslationTemplate := fun texts _ _ => inr (mjoin (fst <$> texts))
|}.

Definition two_texts : list (jsstring * jsstring) :=
  [(lit "a", lit "A"); (lit "b", lit "B")].

(** The batch example of the documentation, with three keys for twenty:
    one batch, whose call fails.  Every key is mapped to its original
    text; the provider was not invoked. *)
Example batchTranslateTexts_one_failed_batch :
  let config := {| retryCount := 2; translation_batchSize := 20 |} in
  let texts := [(lit "k1", lit "A"); (lit "k2", lit "B"); (lit "k3", lit "C")] in
  exists w',
    batchTranslateTexts config always_failing texts new_world
    = Some (list_to_map texts, w')
    /\ invocations w' = 0%nat.
Proof. eexists. split; vm_compute; reflexivity. Qed.

(** The same run seen from [processAll]: the two files were processed,
    the batch failed, three texts count as translated and no file is
    reported as failed. *)
Example processAll_stats_one_failed_batch :
  let config := {| retryCount := 2; translation_batchSize := 20 |} in
  let texts := [(lit "k1", lit "A"); (lit "k2", lit "B"); (lit "k3", lit "C")] in
  let results :=
    [{| Processor.filePath := lit "a.tsx"; Processor.success := true;
        Processor.extractedCount := 2 |};
     {| Processor.filePath := lit "b.tsx"; Processor.success := true;
        Processor.extractedCount := 1 |}] in
  fst <$> Processor.processAll_stats config always_failing (fun _ => true)
            results texts false new_world
  = Some {| Processor.filesProcessed := 2; Processor.textsExtracted := 3;
            Processor.textsTranslated := 3; Processor.failedFiles := [] |}.
Proof. vm_compute. reflexivity. Qed.

(** A provider that answers every invocation. *)
Definition always_answers : LanguageModel := fun _ _ => inr (lit "{}").

Lemma batchTranslateTexts_failed_batch_witness :
  1 <= translation_batchSize {| retryCount := 0; translation_batchSize := 1 |}
  /\ exists translations w',
       batchTranslateTexts {| retryCount := 0; translation_batchSize := 1 |}
         always_answers two_texts new_world = Some (translations, w')
       /\ translations !! lit "a" = Some (lit "A")
       /\ translations !! lit "b" = Some (lit "B").
Proof.
  assert (Hsize : 1 <= translation_batchSize
                         {| retryCount := 0; translation_batchSize := 1 |})
    by (simpl; lia).
  split; [exact Hsize |].
  destruct (proj1 (batchTranslateTexts_failed_batch
                     {| retryCount := 0; translation_batchSize := 1 |}
                     always_answers two_texts new_world Hsize))
    as (translations & w' & Hrun & Hfailed & _).
  exists translations, w'. split; [exact Hrun |]. split.
  - eapply (Hfailed [] 0 _ [(1, _)] (lit "a")).
    + vm_compute. reflexivity.
    + vm_compute. left.
  - eapply (Hfailed [(0, _)] 1 _ [] (lit "b")).
    + vm_compute. reflexivity.
    + vm_compute. left.
Defined.

End BatchFacts.

(** ** CacheManager *)

Module CacheFacts.

Import Cache.

Lemma filter_none {A} (P : A -> Prop) `{forall x, Decision (P x)} (l : list A) :
  (forall x, x ∈ l -> ~ P x) -> filter P l = [].
Proof.
  induction l as [| x l IH]; intros Hl; [reflexivity |].
  rewrite filter_cons_False by (apply Hl; left).
  apply IH. intros y Hy. apply Hl. now right.
Qed.

Lemma filter_all {A} (P : A -> Prop) `{forall x, Decision (P x)} (l : list A) :
  (forall x, x ∈ l -> P x) -> filter P l = l.
Proof.
  induction l as [| x l IH]; intros Hl; [reflexivity |].
  rewrite filter_cons_True by (apply Hl; left).
  f_equal. apply IH. intros y Hy. apply Hl. now right.
Qed.

Section Facts.
Context {T : Type}.
Variable content_hash : T -> jsstring.
Implicit Types (m : list (jsstring * CacheEntry T)) (c : CacheManager T).
Implicit Types (key k : jsstring) (e entry : CacheEntry T).

(** *** The map *)

Lemma map_get_delete key m : map_get key (map_delete key m) = None.
Proof.
  unfold map_delete. induction m as [| [k e] m IH]; [reflexivity |].
  rewrite filter_cons. simpl. destruct (decide (k <> key)) as [Hne | Heq].
  - simpl. case_decide; [contradiction | exact IH].
  - exact IH.
Qed.

Lemma map_get_delete_ne key k m :
  k <> key -> map_get k (map_delete key m) = map_get k m.
Proof.
  intros Hk. unfold map_delete. induction m as [| [k' e] m IH]; [reflexivity |].
  rewrite filter_cons. simpl. destruct (decide (k' <> key)) as [Hne | Heq].
  - simpl. now rewrite IH.
  - rewrite IH. case_decide; [| reflexivity].
    exfalso. apply Heq. congruence.
Qed.

Lemma map_get_elem_of key m e : map_get key m = Some e -> (key, e) ∈ m.
Proof.
  induction m as [| [k e'] m IH]; simpl; [discriminate |].
  case_decide as Hk.
  - intros [= ->]. subst. left.
  - intros Hget. right. auto.
Qed.

Lemma map_get_NoDup key m e :
  NoDup m.*1 -> (key, e) ∈ m -> map_get key m = Some e.
Proof.
  induction m as [| [k e'] m IH]; simpl; intros Hnd Hin; [inversion Hin |].
  apply NoDup_cons in Hnd as [Hk Hnd].
  apply elem_of_cons in Hin as [[= -> ->] | Hin].
  - case_decide; [reflexivity | contradiction].
  - case_decide as Heq; [| auto].
    subst. exfalso. apply Hk. apply list_elem_of_fmap. exists (key, e). auto.
Qed.

Lemma map_get_set key entry m : map_get key (map_set key entry m) = Some entry.
Proof.
  induction m as [| [k e] m IH]; simpl.
  - case_decide; [reflexivity | contradiction].
  - destruct (decide (k = key)) as [-> | Hne]; simpl.
    + case_decide; [reflexivity | contradiction].
    + case_decide; [contradiction | exact IH].
Qed.

Lemma map_get_set_ne key k entry m :
  k <> key -> map_get k (map_set key entry m) = map_get k m.
Proof.
  intros Hk. induction m as [| [k' e] m IH]; simpl.
  - case_decide; [congruence | reflexivity].
  - destruct (decide (k' = key)) as [-> | Hne]; simpl.
    + repeat case_decide; congruence.
    + case_decide; [reflexivity | exact IH].
Qed.

Lemma map_set_keys key k entry m :
  k ∈ (map_set key entry m).*1 <-> k = key \/ k ∈ m.*1.
Proof.
  induction m as [| [k' e] m IH]; simpl.
  - rewrite elem_of_cons. split; intros [? | ?]; auto.
  - destruct (decide (k' = key)) as [-> | Hne]; simpl;
      rewrite !elem_of_cons; [tauto |]. rewrite IH. tauto.
Qed.

Lemma map_set_NoDup key entry m : NoDup m.*1 -> NoDup (map_set key entry m).*1.
Proof.
  induction m as [| [k e] m IH]; simpl; intros Hnd.
  - apply NoDup_singleton.
  - apply NoDup_cons in Hnd as [Hk Hnd].
    destruct (decide (k = key)) as [-> | Hne]; simpl; apply NoDup_cons.
    + auto.
    + split; [| auto]. rewrite map_set_keys. intros [-> | Hin]; contradiction.
Qed.

(** *** The sort *)

(** [p] was not created after [q]. *)
Definition not_younger (p q : jsstring * CacheEntry T) : Prop :=
  timestamp p.2 <= timestamp q.2.

Lemma sort_insert_Permutation p m : sort_insert p m ≡ₚ p :: m.
Proof.
  induction m as [| q m IH]; simpl; [reflexivity |].
  destruct (timestamp q.2 <? timestamp p.2); [| reflexivity].
  rewrite IH. apply Permutation_swap.
Qed.

Lemma sort_by_timestamp_Permutation m : sort_by_timestamp m ≡ₚ m.
Proof.
  unfold sort_by_timestamp. induction m as [| p m IH]; simpl; [reflexivity |].
  now rewrite sort_insert_Permutation, IH.
Qed.

Lemma sort_insert_sorted p m :
  StronglySorted not_younger m -> StronglySorted not_younger (sort_insert p m).
Proof.
  induction m as [| q m IH]; simpl; intros Hs.
  - repeat constructor.
  - apply StronglySorted_inv in Hs as [Hm Hq].
    destruct (Z.ltb_spec (timestamp q.2) (timestamp p.2)) as [Hlt | Hge].
    + constructor; [auto |].
      rewrite Forall_forall in *. intros x Hx.
      rewrite sort_insert_Permutation in Hx.
      apply elem_of_cons in Hx as [-> | Hx].
      * unfold not_younger. lia.
      * now apply Hq.
    + constructor; [constructor; assumption |].
      constructor; [exact Hge |].
      rewrite Forall_forall in *. intros x Hx. specialize (Hq x Hx).
      unfold not_younger in *. lia.
Qed.

Lemma sort_by_timestamp_sorted m : StronglySorted not_younger (sort_by_timestamp m).
Proof.
  unfold sort_by_timestamp. induction m as [| p m IH]; simpl; [constructor |].
  now apply sort_insert_sorted.
Qed.

(** *** The size limit *)

Lemma delete_oldest_filter trips i entries m :
  (i + trips <= length entries)%nat ->
  delete_oldest trips i entries m
  = Some (filter (fun p => p.1 ∉ (take trips (drop i entries)).*1) m).
Proof.
  revert i m. induction trips as [| trips IH]; intros i m Hlen; simpl.
  - f_equal. induction m as [| p m IHm]; [reflexivity |].
    rewrite filter_cons_True; [now f_equal | apply not_elem_of_nil].
  - destruct (lookup_lt_is_Some_2 entries i ltac:(lia)) as [[key e] Hi].
    rewrite Hi, IH by lia. f_equal.
    rewrite (drop_S _ _ _ Hi). simpl.
    unfold map_delete. rewrite list_filter_filter.
    apply list_filter_iff. intros p. rewrite not_elem_of_cons. tauto.
Qed.

(** The entries [enforceSizeLimit] removes when the limit is exceeded:
    the first ones of the sorted array. *)
Definition oldest c : list (jsstring * CacheEntry T) :=
  take (Z.to_nat (Z.of_nat (length (memoryCache c)) - maxEntries (config c)))
    (sort_by_timestamp (memoryCache c)).

Lemma enforceSizeLimit_within c :
  Z.of_nat (length (memoryCache c)) <= maxEntries (config c) ->
  enforceSizeLimit c = Some c.
Proof.
  intros Hle. unfold enforceSizeLimit.
  destruct (Z.leb_spec (Z.of_nat (length (memoryCache c))) (maxEntries (config c)));
    [reflexivity | lia].
Qed.

Lemma enforceSizeLimit_exceeded c :
  0 <= maxEntries (config c) < Z.of_nat (length (memoryCache c)) ->
  enforceSizeLimit c
  = Some {| config := config c;
            memoryCache := filter (fun p => p.1 ∉ (oldest c).*1) (memoryCache c) |}.
Proof.
  intros Hgt. unfold enforceSizeLimit.
  destruct (Z.leb_spec (Z.of_nat (length (memoryCache c))) (maxEntries (config c)));
    [lia |].
  rewrite delete_oldest_filter.
  - reflexivity.
  - rewrite (Permutation_length (sort_by_timestamp_Permutation _)). simpl. lia.
Qed.

Lemma filter_oldest_length c :
  0 <= maxEntries (config c) < Z.of_nat (length (memoryCache c)) ->
  Z.of_nat (length (filter (fun p => p.1 ∉ (oldest c).*1) (memoryCache c)))
  <= maxEntries (config c).
Proof.
  intros Hgt.
  set (d := Z.to_nat (Z.of_nat (length (memoryCache c)) - maxEntries (config c))).
  set (sorted := sort_by_timestamp (memoryCache c)).
  assert (Hperm : memoryCache c ≡ₚ take d sorted ++ drop d sorted).
  { rewrite take_drop. symmetry. apply sort_by_timestamp_Permutation. }
  rewrite Hperm, filter_app.
  assert (Hnone : filter (fun p => p.1 ∉ (oldest c).*1) (take d sorted) = []).
  { apply filter_none. intros p Hp Hout. apply Hout.
    apply list_elem_of_fmap. exists p. split; [reflexivity | exact Hp]. }
  rewrite Hnone. simpl.
  pose proof (length_filter (fun p => p.1 ∉ (oldest c).*1) (drop d sorted)) as Hl.
  rewrite length_drop in Hl.
  assert (length sorted = length (memoryCache c))
    by apply Permutation_length, sort_by_timestamp_Permutation.
  lia.
Qed.

Lemma NoDup_keys_eq m (p q : jsstring * CacheEntry T) :
  NoDup m.*1 -> p ∈ m -> q ∈ m -> p.1 = q.1 -> p = q.
Proof.
  intros Hnd Hp Hq Hk. destruct p as [k e], q as [k' e']. simpl in Hk. subst k'.
  pose proof (map_get_NoDup _ _ _ Hnd Hp) as H1.
  pose proof (map_get_NoDup _ _ _ Hnd Hq) as H2. congruence.
Qed.

Lemma oldest_split c :
  let d := Z.to_nat (Z.of_nat (length (memoryCache c)) - maxEntries (config c)) in
  sort_by_timestamp (memoryCache c)
  = oldest c ++ drop d (sort_by_timestamp (memoryCache c)).
Proof. intros d. unfold oldest. fold d. now rewrite take_drop. Qed.

(** With no key twice, exactly the entries of [oldest] go. *)
Lemma filter_oldest_exact c :
  NoDup (memoryCache c).*1 ->
  filter (fun p => p.1 ∉ (oldest c).*1) (memoryCache c)
  ≡ₚ drop (Z.to_nat (Z.of_nat (length (memoryCache c)) - maxEntries (config c)))
       (sort_by_timestamp (memoryCache c)).
Proof.
  intros Hnd.
  set (d := Z.to_nat (Z.of_nat (length (memoryCache c)) - maxEntries (config c))).
  set (sorted := sort_by_timestamp (memoryCache c)).
  assert (Hsplit : sorted = oldest c ++ drop d sorted) by apply oldest_split.
  assert (Hperm : memoryCache c ≡ₚ oldest c ++ drop d sorted).
  { rewrite <- Hsplit. symmetry. apply sort_by_timestamp_Permutation. }
  assert (Hnd' : NoDup (oldest c ++ drop d sorted).*1) by now rewrite <- Hperm.
  rewrite fmap_app in Hnd'. apply NoDup_app in Hnd' as (_ & Hdisj & _).
  rewrite Hperm, filter_app.
  rewrite filter_none, filter_all; [reflexivity | |].
  - intros p Hp Hin. apply (Hdisj p.1 Hin).
    apply list_elem_of_fmap. now exists p.
  - intros p Hp Hout. apply Hout. apply list_elem_of_fmap. now exists p.
Qed.

Lemma evicted_not_younger c p q :
  NoDup (memoryCache c).*1 ->
  p ∈ memoryCache c ->
  p ∉ filter (fun p => p.1 ∉ (oldest c).*1) (memoryCache c) ->
  q ∈ filter (fun p => p.1 ∉ (oldest c).*1) (memoryCache c) ->
  timestamp p.2 <= timestamp q.2.
Proof.
  intros Hnd Hp Hgone Hkept.
  assert (Hold : p ∈ oldest c).
  { destruct (decide (p.1 ∈ (oldest c).*1)) as [Hin | Hout].
    - apply list_elem_of_fmap in Hin as (p0 & Hk & Hp0).
      assert (Hp0m : p0 ∈ memoryCache c).
      { rewrite <- (sort_by_timestamp_Permutation (memoryCache c)).
        rewrite (oldest_split c). apply elem_of_app. now left. }
      now rewrite (NoDup_keys_eq _ p p0 Hnd Hp Hp0m Hk).
    - exfalso. apply Hgone. apply list_elem_of_filter. auto. }
  rewrite (filter_oldest_exact c Hnd) in Hkept.
  pose proof (sort_by_timestamp_sorted (memoryCache c)) as Hsorted.
  rewrite (oldest_split c) in Hsorted.
  exact (StronglySorted_app_1_elem_of _ _ _ _ _ Hsorted Hold Hkept).
Qed.

Lemma sort_insert_head (p q : jsstring * CacheEntry T) m :
  timestamp p.2 <= timestamp q.2 -> sort_insert p (q :: m) = p :: q :: m.
Proof.
  intros Hle. simpl. destruct (Z.ltb_spec (timestamp q.2) (timestamp p.2)); [lia |].
  reflexivity.
Qed.

Lemma set_enabled c now key d ttl :
  enabled (config c) = true ->
  set content_hash now key d ttl c
  = enforceSizeLimit
      {| config := config c;
         memoryCache :=
           map_set key {| data := d; timestamp := now;
                          expiresAt := now + ttl_or_default ttl c;
                          hash := content_hash d |} (memoryCache c) |}.
Proof. intros Hon. unfold set. rewrite Hon. reflexivity. Qed.

Lemma set_disabled c now key d ttl :
  enabled (config c) = false -> set content_hash now key d ttl c = Some c.
Proof. intros Hoff. unfold set. rewrite Hoff. reflexivity. Qed.

Lemma delete_oldest_overrun trips i entries m :
  (length entries < i + trips)%nat -> (i <= length entries)%nat ->
  delete_oldest trips i entries m = None.
Proof.
  revert i m. induction trips as [| trips IH]; intros i m Hover Hle; [lia |].
  simpl. destruct (entries !! i) as [[key e] |] eqn:Hi; [| reflexivity].
  apply IH; [lia |]. apply lookup_lt_Some in Hi. lia.
Qed.

(** With a negative limit the loop of [enforceSizeLimit] reads past the
    end of the sorted array: the call throws. *)
Lemma enforceSizeLimit_negative c :
  maxEntries (config c) < 0 -> enforceSizeLimit c = None.
Proof.
  intros Hneg. unfold enforceSizeLimit.
  destruct (Z.leb_spec (Z.of_nat (length (memoryCache c))) (maxEntries (config c)));
    [lia |].
  rewrite delete_oldest_overrun; [reflexivity | |].
  - rewrite (Permutation_length (sort_by_timestamp_Permutation _)). lia.
  - lia.
Qed.

(** The deferred part of [saveToDisk] only removes entries. *)
Lemma saveToDisk_resumed_sublist now c :
  memoryCache (saveToDisk_resumed now c) `sublist_of` memoryCache c.
Proof.
  unfold saveToDisk_resumed. destruct (persistent (config c)); [| reflexivity].
  apply sublist_filter.
Qed.

(** [setEnabled(false)] empties the cache; [updateConfig] does not. *)
Lemma setEnabled_false_empties c : memoryCache (setEnabled false c) = [].
Proof. reflexivity. Qed.

(** *** What [set] leaves in the cache *)

Lemma set_limits_size c now key d ttl :
  enabled (config c) = true ->
  0 <= maxEntries (config c) ->
  NoDup (memoryCache c).*1 ->
  let entry := {| data := d; timestamp := now;
                  expiresAt := now + ttl_or_default ttl c;
                  hash := content_hash d |} in
  let inserted := map_set key entry (memoryCache c) in
  exists c',
    set content_hash now key d ttl c = Some c'
    /\ config c' = config c
    /\ NoDup (memoryCache c').*1
    /\ Z.of_nat (length (memoryCache c')) <= maxEntries (config c)
    /\ memoryCache c' `sublist_of` inserted
    /\ (maxEntries (config c) < Z.of_nat (length inserted) ->
        Z.of_nat (length (memoryCache c')) = maxEntries (config c))
    /\ (forall p q, p ∈ inserted -> p ∉ memoryCache c' -> q ∈ memoryCache c' ->
        timestamp p.2 <= timestamp q.2).
Proof.
  intros Hon Hmax Hnd entry inserted.
  pose proof (map_set_NoDup key entry _ Hnd) as Hnd'. fold inserted in Hnd'.
  unfold set. rewrite Hon. cbn [negb]. fold entry. fold inserted.
  set (c1 := {| config := config c; memoryCache := inserted |}).
  destruct (Z.le_gt_cases (Z.of_nat (length inserted)) (maxEntries (config c)))
    as [Hle | Hgt].
  - exists c1. rewrite enforceSizeLimit_within by exact Hle.
    repeat split; try assumption; try reflexivity.
    + lia.
    + intros p q Hp Hgone. contradiction.
  - assert (Hgt' : 0 <= maxEntries (config c1) < Z.of_nat (length (memoryCache c1)))
      by (simpl; lia).
    rewrite (enforceSizeLimit_exceeded c1 Hgt'). eexists. split; [reflexivity |].
    cbn [config memoryCache].
    split; [reflexivity |]. split; [| split; [| split; [| split]]].
    + eapply sublist_NoDup; [exact Hnd' |]. apply fmap_sublist, sublist_filter.
    + exact (filter_oldest_length c1 Hgt').
    + apply sublist_filter.
    + intros _. rewrite (filter_oldest_exact c1 Hnd'), length_drop.
      rewrite (Permutation_length (sort_by_timestamp_Permutation _)). simpl. lia.
    + intros p q Hp Hgone Hkept. exact (evicted_not_younger c1 p q Hnd' Hp Hgone Hkept).
Qed.

End Facts.


Section Claims.
Context {T : Type}.
Variable content_hash : T -> jsstring.

(** The constructor options of the scenarios: the defaults, with a
    limit of two entries. *)
Definition limit_two : PartialConfig :=
  {| p_enabled := None; p_defaultTTL := None; p_maxEntries := Some 2;
     p_persistent := None |}.

(** Three keys set in the order of their timestamps on a fresh cache
    limited to two entries. *)
Lemma three_sets_keep_two_newest (k1 k2 k3 : jsstring) (d1 d2 d3 : T)
    (t1 t2 t3 : Z) (ttl1 ttl2 ttl3 : option Z) :
  k1 <> k2 -> k1 <> k3 -> k2 <> k3 -> t1 < t2 < t3 ->
  let c0 := new_CacheManager limit_two in
  exists c1 c2 c3,
    set content_hash t1 k1 d1 ttl1 c0 = Some c1
    /\ set content_hash t2 k2 d2 ttl2 c1 = Some c2
    /\ set content_hash t3 k3 d3 ttl3 c2 = Some c3
    /\ (memoryCache c3).*1 = [k2; k3]
    /\ (forall now, (get now k1 c3).1 = None)
    /\ (forall now, now <= t2 + ttl_or_default ttl2 c0 -> (get now k2 c3).1 = Some d2)
    /\ (forall now, now <= t3 + ttl_or_default ttl3 c0 -> (get now k3 c3).1 = Some d3).
Proof.
  intros H12 H13 H23 Ht c0.
  set (cfg := spread default_config limit_two).
  set (e1 := {| data := d1; timestamp := t1; expiresAt := t1 + ttl_or_default ttl1 c0;
                hash := content_hash d1 |}).
  set (e2 := {| data := d2; timestamp := t2; expiresAt := t2 + ttl_or_default ttl2 c0;
                hash := content_hash d2 |}).
  set (e3 := {| data := d3; timestamp := t3; expiresAt := t3 + ttl_or_default ttl3 c0;
                hash := content_hash d3 |}).
  exists {| config := cfg; memoryCache := [(k1, e1)] |},
         {| config := cfg; memoryCache := [(k1, e1); (k2, e2)] |},
         {| config := cfg; memoryCache := [(k2, e2); (k3, e3)] |}.
  split; [| split; [| split; [| split; [| split; [| split]]]]].
  - rewrite set_enabled by reflexivity. apply enforceSizeLimit_within. simpl. lia.
  - rewrite set_enabled by reflexivity. cbn [config memoryCache map_set].
    rewrite decide_False by exact H12.
    apply enforceSizeLimit_within. simpl. lia.
  - rewrite set_enabled by reflexivity. cbn [config memoryCache map_set].
    rewrite decide_False by exact H13. rewrite decide_False by exact H23.
    change (ttl_or_default ttl3 _) with (ttl_or_default ttl3 c0). fold e3.
    rewrite enforceSizeLimit_exceeded by (simpl; lia).
    assert (Hold : oldest {| config := cfg;
                             memoryCache := [(k1, e1); (k2, e2); (k3, e3)] |}
                   = [(k1, e1)]).
    { unfold oldest, sort_by_timestamp. cbn [memoryCache config foldr].
      change (sort_insert (k3, e3) []) with [(k3, e3)].
      rewrite (sort_insert_head (k2, e2) (k3, e3)) by (simpl; lia).
      rewrite (sort_insert_head (k1, e1) (k2, e2)) by (simpl; lia).
      reflexivity. }
    rewrite Hold. cbn [config memoryCache]. f_equal. f_equal.
    rewrite filter_cons_False by (simpl; intros Hout; apply Hout; left).
    rewrite filter_cons_True
      by (simpl; intros Hin; apply list_elem_of_singleton in Hin; congruence).
    rewrite filter_cons_True
      by (simpl; intros Hin; apply list_elem_of_singleton in Hin; congruence).
    reflexivity.
  - reflexivity.
  - intros now. unfold get. cbn [config memoryCache enabled cfg spread negb map_get].
    simpl. rewrite decide_False by congruence. rewrite decide_False by congruence.
    reflexivity.
  - intros now Hnow. unfold get. simpl.
    rewrite decide_True by reflexivity. unfold isExpired. simpl.
    destruct (Z.gtb_spec now (t2 + ttl_or_default ttl2 c0)); [lia | reflexivity].
  - intros now Hnow. unfold get. simpl.
    rewrite decide_False by congruence. rewrite decide_True by reflexivity.
    unfold isExpired. simpl.
    destruct (Z.gtb_spec now (t3 + ttl_or_default ttl3 c0)); [lia | reflexivity].
Qed.

(** C7, as amended.  On an enabled cache, every [set] that completes
    leaves at most [maxEntries] entries, and [set] completes whenever the
    limit is not negative; the entries left are entries of the map after
    the insertion, in their order; when the insertion exceeds the limit
    exactly [maxEntries] entries are left, and every entry that went was
    created no later than every entry that stays.  In particular, on a
    fresh cache limited to two entries, setting three distinct keys with
    increasing timestamps leaves the second and the third retrievable
    (until they expire) and the first gone.  (A disabled cache ignores
    [set].) *)
Theorem set_enforces_maxEntries (c : CacheManager T) (now : Z) (key : jsstring)
    (d : T) (ttl : option Z) :
  enabled (config c) = true ->
  NoDup (memoryCache c).*1 ->
  (let entry := {| data := d; timestamp := now;
                   expiresAt := now + ttl_or_default ttl c;
                   hash := content_hash d |} in
   let inserted := map_set key entry (memoryCache c) in
   (0 <= maxEntries (config c) ->
    exists c', set content_hash now key d ttl c = Some c')
   /\ forall c',
       set content_hash now key d ttl c = Some c' ->
       config c' = config c
       /\ NoDup (memoryCache c').*1
       /\ Z.of_nat (length (memoryCache c')) <= maxEntries (config c)
       /\ memoryCache c' `sublist_of` inserted
       /\ (maxEntries (config c) < Z.of_nat (length inserted) ->
           Z.of_nat (length (memoryCache c')) = maxEntries (config c))
       /\ (forall p q, p ∈ inserted -> p ∉ memoryCache c' -> q ∈ memoryCache c' ->
           timestamp p.2 <= timestamp q.2))
  /\ (forall (k1 k2 k3 : jsstring) (d1 d2 d3 : T) (t1 t2 t3 : Z)
        (ttl1 ttl2 ttl3 : option Z),
      k1 <> k2 -> k1 <> k3 -> k2 <> k3 -> t1 < t2 < t3 ->
      let c0 := new_CacheManager limit_two in
      exists c1 c2 c3,
        set content_hash t1 k1 d1 ttl1 c0 = Some c1
        /\ set content_hash t2 k2 d2 ttl2 c1 = Some c2
        /\ set content_hash t3 k3 d3 ttl3 c2 = Some c3
        /\ (memoryCache c3).*1 = [k2; k3]
        /\ (forall now, (get now k1 c3).1 = None)
        /\ (forall now, now <= t2 + ttl_or_default ttl2 c0 ->
                        (get now k2 c3).1 = Some d2)
        /\ (forall now, now <= t3 + ttl_or_default ttl3 c0 ->
                        (get now k3 c3).1 = Some d3)).
Proof.
  intros Hon Hnd. split; [| exact three_sets_keep_two_newest].
  intros entry inserted.
  destruct (Z.lt_ge_cases (maxEntries (config c)) 0) as [Hneg | Hmax].
  - split; [lia |]. intros c' Hset.
    rewrite (set_enabled content_hash c now key d ttl Hon) in Hset.
    rewrite enforceSizeLimit_negative in Hset by exact Hneg. discriminate.
  - destruct (set_limits_size content_hash c now key d ttl Hon Hmax Hnd)
      as (c1 & Hset & Hprops).
    split; [eauto |]. intros c' Hset'.
    assert (c' = c1) as -> by congruence. exact Hprops.
Qed.

(** C6, as amended.  [get] and [has] never return or report an entry
    whose expiry time has passed.  When the entry under the key has
    expired, both report a miss; an enabled cache then deletes that entry
    and leaves every other key as it was, and a disabled cache is left
    untouched. *)
Theorem get_has_skip_expired (c : CacheManager T) (now : Z) (key : jsstring) :
  (forall d, (get now key c).1 = Some d ->
     exists entry, map_get key (memoryCache c) = Some entry
                   /\ data entry = d /\ now <= expiresAt entry)
  /\ ((has now key c).1 = true ->
      exists entry, map_get key (memoryCache c) = Some entry
                    /\ now <= expiresAt entry)
  /\ (forall entry,
        map_get key (memoryCache c) = Some entry ->
        expiresAt entry < now ->
        (get now key c).1 = None
        /\ (has now key c).1 = false
        /\ (enabled (config c) = true ->
            (get now key c).2 = (has now key c).2
            /\ map_get key (memoryCache (get now key c).2) = None
            /\ forall k, k <> key ->
                 map_get k (memoryCache (get now key c).2)
                 = map_get k (memoryCache c))
        /\ (enabled (config c) = false ->
            (get now key c).2 = c /\ (has now key c).2 = c)).
Proof.
  unfold get, has, isExpired. split; [| split].
  - intros d. destruct (enabled (config c)); cbn [negb]; [| discriminate].
    destruct (map_get key (memoryCache c)) as [entry |]; [| discriminate].
    destruct (Z.gtb_spec now (expiresAt entry)); [discriminate |].
    intros [= <-]. exists entry. auto.
  - destruct (enabled (config c)); cbn [negb]; [| discriminate].
    destruct (map_get key (memoryCache c)) as [entry |]; [| discriminate].
    destruct (Z.gtb_spec now (expiresAt entry)); [discriminate |].
    intros _. exists entry. auto.
  - intros entry Hentry Hexpired. rewrite Hentry.
    destruct (Z.gtb_spec now (expiresAt entry)); [| lia].
    destruct (enabled (config c)); cbn.
    + repeat split; try discriminate.
      * apply map_get_delete.
      * intros k Hk. now apply map_get_delete_ne.
    + repeat split; discriminate.
Qed.

End Claims.

(** A cache of strings for the examples. *)
Definition entry_k : jsstring := lit "k".

Definition not_persistent : PartialConfig :=
  {| p_enabled := None; p_defaultTTL := None; p_maxEntries := None;
     p_persistent := Some false |}.

Definition switched_off : PartialConfig :=
  {| p_enabled := Some false; p_defaultTTL := None; p_maxEntries := None;
     p_persistent := None |}.

Definition switched_off_limit_two : PartialConfig :=
  {| p_enabled := Some false; p_defaultTTL := None; p_maxEntries := Some 2;
     p_persistent := None |}.

(** C6 as stated fails on a cache that [updateConfig] has disabled: the
    entry set at time 0 with a time to live of 1000 is still in the map
    after [get] and [has] at time 5000. *)
Lemma get_disabled_keeps_expired_entry :
  exists c1 entry,
    set id 0 entry_k (lit "v") (Some 1000) (new_CacheManager not_persistent) = Some c1
    /\ let c2 := updateConfig switched_off c1 in
       map_get entry_k (memoryCache c2) = Some entry
       /\ expiresAt entry = 1000
       /\ get 5000 entry_k c2 = (None, c2)
       /\ has 5000 entry_k c2 = (false, c2)
       /\ map_get entry_k (memoryCache (get 5000 entry_k c2).2) = Some entry
       /\ totalEntries (get 5000 entry_k c2).2 = 1.
Proof. eexists _, _. split; [reflexivity |]. cbn. repeat split; reflexivity. Qed.

(** C7 as stated fails on a disabled cache: three entries are set under
    the default limit, [updateConfig] lowers the limit to two and disables
    the cache, and a fourth [set] completes with three entries in the
    map. *)
Lemma set_disabled_exceeds_maxEntries :
  exists c1 c2 c3 c5,
    let c0 := new_CacheManager not_persistent in
    set id 1 (lit "k1") (lit "v1") None c0 = Some c1
    /\ set id 2 (lit "k2") (lit "v2") None c1 = Some c2
    /\ set id 3 (lit "k3") (lit "v3") None c2 = Some c3
    /\ set id 4 (lit "k4") (lit "v4") None (updateConfig switched_off_limit_two c3)
       = Some c5
    /\ maxEntries (config c5) = 2
    /\ totalEntries c5 = 3.
Proof. eexists _, _, _, _. cbn. repeat split; reflexivity. Qed.

(** The eviction example on concrete keys. *)
Example set_three_keys_limit_two :
  exists c1 c2 c3,
    set id 1 (lit "k1") (lit "v1") None (new_CacheManager limit_two) = Some c1
    /\ set id 2 (lit "k2") (lit "v2") None c1 = Some c2
    /\ set id 3 (lit "k3") (lit "v3") None c2 = Some c3
    /\ (get 10 (lit "k1") c3).1 = None
    /\ (get 10 (lit "k2") c3).1 = Some (lit "v2")
    /\ (get 10 (lit "k3") c3).1 = Some (lit "v3").
Proof. eexists _, _, _. repeat split; vm_compute; reflexivity. Qed.

Lemma set_enforces_maxEntries_witness :
  enabled (config (new_CacheManager (T := jsstring) limit_two)) = true
  /\ NoDup (memoryCache (new_CacheManager (T := jsstring) limit_two)).*1
  /\ exists c',
       set id 1 (lit "k1") (lit "v1") None (new_CacheManager limit_two) = Some c'
       /\ Z.of_nat (length (memoryCache c')) <= 2.
Proof.
  assert (Hon : enabled (config (new_CacheManager (T := jsstring) limit_two)) = true)
    by reflexivity.
  assert (Hnd : NoDup (memoryCache (new_CacheManager (T := jsstring) limit_two)).*1)
    by apply NoDup_nil_2.
  split; [exact Hon |]. split; [exact Hnd |].
  destruct (proj1 (set_enforces_maxEntries id (new_CacheManager limit_two) 1
                     (lit "k1") (lit "v1") None Hon Hnd))
    as [Hreturns Hbound].
  destruct (Hreturns ltac:(simpl; lia)) as [c' Hset].
  exists c'. split; [exact Hset |].
  exact (proj1 (proj2 (proj2 (Hbound c' Hset)))).
Defined.

Lemma get_has_skip_expired_witness :
  let c := {| config := default_config;
              memoryCache := [(entry_k, {| data := lit "v"; timestamp := 0;
                                           expiresAt := 1000; hash := lit "v" |})] |} in
  (get 5000 entry_k c).1 = None
  /\ (has 5000 entry_k c).1 = false
  /\ map_get entry_k (memoryCache (get 5000 entry_k c).2) = None.
Proof.
  intros c.
  destruct (proj2 (proj2 (get_has_skip_expired c 5000 entry_k))
              {| data := lit "v"; timestamp := 0; expiresAt := 1000; hash := lit "v" |}
              eq_refl ltac:(simpl; lia))
    as (Hget & Hhas & Hon & _).
  split; [exact Hget |]. split; [exact Hhas |].
  exact (proj1 (proj2 (Hon eq_refl))).
Defined.

End CacheFacts.

(** ** FileProcessor: the aggregate store *)

Module ProcessorFacts.

Import KeyGen Processor KeyGenFacts.

(** The pairs a unit contributes in the concurrent variant: the entries
    whose placeholder has a non-empty final key. *)
Definition final_pairs (keyMapping : gmap jsstring jsstring)
    (entries : list (jsstring * jsstring)) : list (jsstring * jsstring) :=
  omap (fun entry =>
          match keyMapping !! entry.1 with
          | Some realKey => if truthy realKey then Some (realKey, entry.2) else None
          | None => None
          end) entries.

(** The text the last pair for [key] carries, if any. *)
Fixpoint last_text (key : jsstring) (pairs : list (jsstring * jsstring))
  : option jsstring :=
  match pairs with
  | [] => None
  | (k, text) :: rest =>
      match last_text key rest with
      | Some later => Some later
      | None => if decide (k = key) then Some text else None
      end
  end.

Lemma assign_text_same realKey text p :
  allExtractedTexts p !! realKey = Some text -> assign_text realKey text p = p.
Proof.
  intros Hsame. destruct p as [g store lines]. unfold assign_text. simpl in *.
  f_equal. now apply insert_id.
Qed.

Lemma collect_step_assigns keyMapping p tempKey text realKey :
  keyMapping !! tempKey = Some realKey ->
  truthy realKey = true ->
  collect_step keyMapping p (tempKey, text) = assign_text realKey text p.
Proof. intros Hk Ht. unfold collect_step. now rewrite Hk, Ht. Qed.

Lemma collect_step_console keyMapping p entry :
  console (collect_step keyMapping p entry) = console p.
Proof.
  destruct entry as [tempKey text]. unfold collect_step.
  destruct (keyMapping !! tempKey) as [realKey |]; [| reflexivity].
  destruct (truthy realKey); reflexivity.
Qed.

Lemma collect_texts_console keyMapping entries p :
  console (collect_texts keyMapping entries p) = console p.
Proof.
  unfold collect_texts. revert p.
  induction entries as [| entry entries IH]; intros p; simpl; [reflexivity |].
  now rewrite IH, collect_step_console.
Qed.

Lemma collect_texts_generator keyMapping entries p :
  keyGenerator (collect_texts keyMapping entries p) = keyGenerator p.
Proof.
  unfold collect_texts. revert p.
  induction entries as [| [tempKey text] entries IH]; intros p; simpl; [reflexivity |].
  rewrite IH. unfold collect_step.
  destruct (keyMapping !! tempKey) as [realKey |]; [| reflexivity].
  destruct (truthy realKey); reflexivity.
Qed.

(** After a unit is collected, a key holds the text of the last pair
    that carries it, and its former text if no pair does. *)
Lemma collect_texts_lookup keyMapping entries p key :
  allExtractedTexts (collect_texts keyMapping entries p) !! key
  = match last_text key (final_pairs keyMapping entries) with
    | Some text => Some text
    | None => allExtractedTexts p !! key
    end.
Proof.
  unfold collect_texts. revert p.
  induction entries as [| [tempKey text] entries IH]; intros p; simpl; [reflexivity |].
  rewrite IH. unfold collect_step, final_pairs. simpl.
  destruct (keyMapping !! tempKey) as [realKey |]; [| reflexivity].
  destruct (truthy realKey); [| reflexivity].
  simpl. fold (final_pairs keyMapping entries).
  destruct (last_text key (final_pairs keyMapping entries)); [reflexivity |].
  rewrite lookup_insert. case_decide; reflexivity.
Qed.

Lemma processor_eq (p q : FileProcessor) :
  keyGenerator p = keyGenerator q ->
  allExtractedTexts p = allExtractedTexts q ->
  console p = console q ->
  p = q.
Proof. destruct p, q. simpl. now intros -> -> ->. Qed.

(** C1, as amended.  Writing a final key that already holds the same
    text leaves the processor as it was; writing a final key that holds a
    different text replaces that text by the new one (the last writer
    wins), leaves every other key as it was and writes nothing to the
    console.  Both variants of [processFile] write the store this way, and
    collecting the same unit a second time changes nothing. *)
Theorem collecting_texts_overwrites `{PinyinPro} `{Md5} (p : FileProcessor)
    (realKey text : jsstring) :
  (allExtractedTexts p !! realKey = Some text -> assign_text realKey text p = p)
  /\ (forall old,
        allExtractedTexts p !! realKey = Some old ->
        allExtractedTexts (assign_text realKey text p) !! realKey = Some text
        /\ (forall key, key <> realKey ->
              allExtractedTexts (assign_text realKey text p) !! key
              = allExtractedTexts p !! key)
        /\ console (assign_text realKey text p) = console p)
  /\ (forall keyMapping tempKey,
        keyMapping !! tempKey = Some realKey ->
        truthy realKey = true ->
        collect_step keyMapping p (tempKey, text) = assign_text realKey text p)
  /\ (forall cfg now tempKey keyMapping,
        (generateKey cfg now text (keyGenerator p)).1 = realKey ->
        (resolve_step cfg (p, keyMapping) (now, tempKey, text)).1
        = assign_text realKey text
            {| keyGenerator := (generateKey cfg now text (keyGenerator p)).2;
               allExtractedTexts := allExtractedTexts p;
               console := console p |})
  /\ (forall keyMapping entries,
        collect_texts keyMapping entries (collect_texts keyMapping entries p)
        = collect_texts keyMapping entries p).
Proof.
  split; [apply assign_text_same |]. split; [| split; [| split]].
  - intros old Hold. simpl. split; [apply lookup_insert_eq |].
    split; [| reflexivity]. intros key Hkey. now apply lookup_insert_ne.
  - intros keyMapping tempKey. apply collect_step_assigns.
  - intros cfg now tempKey keyMapping <-. unfold resolve_step.
    destruct (generateKey cfg now text (keyGenerator p)) as [k g]. reflexivity.
  - intros keyMapping entries. apply processor_eq.
    + now rewrite !collect_texts_generator.
    + apply map_eq. intros key. rewrite !collect_texts_lookup.
      destruct (last_text key (final_pairs keyMapping entries)); reflexivity.
    + now rewrite !collect_texts_console.
Qed.

(** The store and the unit of the merge example. *)
Definition store_k1_A : FileProcessor :=
  {| keyGenerator := empty_generator;
     allExtractedTexts := {[ lit "k1" := lit "A" ]};
     console := [] |}.

Definition placeholder_to_k1 : gmap jsstring jsstring := {[ lit "__P1__" := lit "k1" ]}.

(** C1 as stated fails: collecting the pair [k1 -> B] into a store that
    holds [k1 -> A] leaves [B] under [k1], and the console is as empty as
    before. *)
Lemma collecting_texts_drops_first_writer :
  allExtractedTexts store_k1_A !! lit "k1" = Some (lit "A")
  /\ allExtractedTexts
       (collect_texts placeholder_to_k1 [(lit "__P1__", lit "B")] store_k1_A)
     !! lit "k1" = Some (lit "B")
  /\ console (collect_texts placeholder_to_k1 [(lit "__P1__", lit "B")] store_k1_A)
     = [].
Proof. repeat split; vm_compute; reflexivity. Qed.

Example collecting_same_text_is_a_no_op :
  collect_texts placeholder_to_k1 [(lit "__P1__", lit "A")] store_k1_A = store_k1_A.
Proof. vm_compute. reflexivity. Qed.

(** How two texts come to share a final key: with reuse on, two
    homophones have the same toneless transliteration, so the sequential
    variant gives both placeholders the key [ti_jiao] and the store keeps
    the text written last. *)
Example resolve_keys_homophones :
  resolve_keys default_config
    [(0, lit "__P1__", ti_jiao); (0, lit "__P2__", [0x4f53; 0x6559]%N)]
    {| keyGenerator := empty_generator; allExtractedTexts := ∅; console := [] |}
  = ({| keyGenerator :=
          {| existingKeys := {[ lit "ti_jiao" ]};
             textToKeyMap := {[ ti_jiao := lit "ti_jiao";
                                [0x4f53; 0x6559]%N := lit "ti_jiao" ]} |};
        allExtractedTexts := {[ lit "ti_jiao" := [0x4f53; 0x6559]%N ]};
        console := [] |},
     {[ lit "__P1__" := lit "ti_jiao"; lit "__P2__" := lit "ti_jiao" ]}).
Proof. vm_compute. reflexivity. Qed.

Lemma collecting_texts_overwrites_witness :
  allExtractedTexts store_k1_A !! lit "k1" = Some (lit "A")
  /\ assign_text (lit "k1") (lit "A") store_k1_A = store_k1_A
  /\ allExtractedTexts (assign_text (lit "k1") (lit "B") store_k1_A) !! lit "k1"
     = Some (lit "B").
Proof.
  assert (Hold : allExtractedTexts store_k1_A !! lit "k1" = Some (lit "A"))
    by (vm_compute; reflexivity).
  split; [exact Hold |]. split.
  - exact (proj1 (collecting_texts_overwrites store_k1_A (lit "k1") (lit "A")) Hold).
  - exact (proj1 (proj1 (proj2 (collecting_texts_overwrites store_k1_A (lit "k1")
                                   (lit "B"))) (lit "A") Hold)).
Defined.

End ProcessorFacts.

(** ** The accessors hand out copies *)

Module HeapFacts.

Import KeyGen Heap KeyGenFacts.

(** Two heaps in which the collections of the processor [p] (those of
    its generator and its store) have the same content. *)
Definition agree (p : FileProcessorObj) (h h' : heap) : Prop :=
  generator_state (keyGenerator_obj p) h = generator_state (keyGenerator_obj p) h'
  /\ store_state p h = store_state p h'.

Lemma alloc_fresh (o : Obj) (h h1 : heap) (l : positive) :
  alloc o h = (l, h1) ->
  h !! l = None /\ h1 !! l = Some o /\ forall r, r <> l -> h1 !! r = h !! r.
Proof.
  unfold alloc. intros [= <- <-]. split; [| split].
  - apply not_elem_of_dom. apply is_fresh.
  - apply lookup_insert_eq.
  - intros r Hr. now apply lookup_insert_ne.
Qed.

Lemma mutate_other (l r : positive) (h : heap) (mu : Mutation) :
  r <> l -> mutate l h mu !! r = h !! r.
Proof.
  intros Hr. unfold mutate.
  destruct (h !! l) as [[m | s | rec] |], mu;
    try reflexivity; now apply lookup_insert_ne.
Qed.

Lemma mutate_all_other (l r : positive) (mus : list Mutation) (h : heap) :
  r <> l -> mutate_all l mus h !! r = h !! r.
Proof.
  intros Hr. unfold mutate_all. revert h.
  induction mus as [| mu mus IH]; intros h; simpl; [reflexivity |].
  now rewrite IH, mutate_other.
Qed.

Lemma generator_state_frame (g : KeyGeneratorObj) (h h' : heap) :
  h' !! existingKeys_ref g = h !! existingKeys_ref g ->
  h' !! textToKeyMap_ref g = h !! textToKeyMap_ref g ->
  generator_state g h' = generator_state g h.
Proof. intros He Ht. unfold generator_state. now rewrite He, Ht. Qed.

Lemma store_state_frame (p : FileProcessorObj) (h h' : heap) :
  h' !! allExtractedTexts_ref p = h !! allExtractedTexts_ref p ->
  store_state p h' = store_state p h.
Proof. intros Hr. unfold store_state. now rewrite Hr. Qed.

Lemma generator_state_refs (g : KeyGeneratorObj) (h : heap) (st : KeyGenerator) :
  generator_state g h = Some st ->
  h !! existingKeys_ref g = Some (SetObj (existingKeys st))
  /\ h !! textToKeyMap_ref g = Some (MapObj (textToKeyMap st))
  /\ existingKeys_ref g <> textToKeyMap_ref g.
Proof.
  unfold generator_state.
  destruct (h !! existingKeys_ref g) as [[| s |] |] eqn:He; try discriminate.
  destruct (h !! textToKeyMap_ref g) as [[m | |] |] eqn:Ht; try discriminate.
  intros [= <-]. simpl. repeat split. intros Heq. rewrite Heq in He. congruence.
Qed.

Lemma store_state_ref (p : FileProcessorObj) (h : heap) (r : gmap jsstring jsstring) :
  store_state p h = Some r -> h !! allExtractedTexts_ref p = Some (RecordObj r).
Proof.
  unfold store_state.
  destruct (h !! allExtractedTexts_ref p) as [[| | r'] |]; try discriminate.
  now intros [= <-].
Qed.

(** A copy made by an accessor and then mutated at will leaves the
    collections of the processor as they were. *)
Lemma copy_then_mutate_agrees (p : FileProcessorObj) (o : Obj) (h h1 : heap)
    (l : positive) (mus : list Mutation) :
  is_Some (generator_state (keyGenerator_obj p) h) ->
  is_Some (store_state p h) ->
  alloc o h = (l, h1) ->
  agree p (mutate_all l mus h1) h.
Proof.
  intros [st Hst] [r Hr] Halloc.
  apply alloc_fresh in Halloc as (Hfresh & _ & Hframe).
  apply generator_state_refs in Hst as (He & Ht & _).
  apply store_state_ref in Hr.
  assert (existingKeys_ref (keyGenerator_obj p) <> l) by congruence.
  assert (textToKeyMap_ref (keyGenerator_obj p) <> l) by congruence.
  assert (allExtractedTexts_ref p <> l) by congruence.
  split.
  - apply generator_state_frame; rewrite mutate_all_other by assumption; auto.
  - apply store_state_frame. rewrite mutate_all_other by assumption. auto.
Qed.

Section Frame.
Context `{PinyinPro} `{Md5}.
Variable cfg : KeyGenerationConfig.

Lemma generateKey_state (now : Z) (text : jsstring) (g : KeyGeneratorObj) (h : heap)
    (st : KeyGenerator) :
  generator_state g h = Some st ->
  exists h1,
    generateKey cfg now text g h = Some ((KeyGen.generateKey cfg now text st).1, h1)
    /\ generator_state g h1 = Some (KeyGen.generateKey cfg now text st).2
    /\ forall r, r <> existingKeys_ref g -> r <> textToKeyMap_ref g -> h1 !! r = h !! r.
Proof.
  intros Hst. unfold generateKey. rewrite Hst. simpl.
  apply generator_state_refs in Hst as (_ & _ & Hne).
  destruct (KeyGen.generateKey cfg now text st) as [key st'].
  eexists. split; [reflexivity |]. split.
  - unfold generator_state.
    rewrite lookup_insert_eq, lookup_insert_ne, lookup_insert_eq by congruence.
    now destruct st'.
  - intros r Hr1 Hr2. now rewrite !lookup_insert_ne by congruence.
Qed.

Lemma generateKey_none (now : Z) (text : jsstring) (g : KeyGeneratorObj) (h : heap) :
  generator_state g h = None -> generateKey cfg now text g h = None.
Proof. intros Hst. unfold generateKey. now rewrite Hst. Qed.

(** [generateKey] only looks at the content of the generator's
    collections. *)
Lemma generateKey_seq_agree (calls : list (Z * jsstring)) (g : KeyGeneratorObj)
    (h h' : heap) :
  generator_state g h = generator_state g h' ->
  fst <$> generateKey_seq cfg calls g h = fst <$> generateKey_seq cfg calls g h'.
Proof.
  revert h h'. induction calls as [| [now text] calls IH]; intros h h' Hst;
    [reflexivity |].
  cbn [generateKey_seq].
  destruct (generator_state g h) as [st |] eqn:Hh; symmetry in Hst.
  - destruct (generateKey_state now text g h st Hh) as (h1 & -> & Hst1 & _).
    destruct (generateKey_state now text g h' st Hst) as (h1' & -> & Hst1' & _).
    simpl. specialize (IH h1 h1' ltac:(congruence)).
    destruct (generateKey_seq cfg calls g h1) as [[keys h2] |],
             (generateKey_seq cfg calls g h1') as [[keys' h2'] |];
      simpl in *; congruence.
  - now rewrite !generateKey_none.
Qed.

Lemma merge_text_agree (now : Z) (text : jsstring) (p : FileProcessorObj)
    (h h' : heap) :
  agree p h h' ->
  match merge_text cfg now text p h, merge_text cfg now text p h' with
  | Some (key, h2), Some (key', h2') => key = key' /\ agree p h2 h2'
  | None, None => True
  | _, _ => False
  end.
Proof.
  intros [Hg Hs]. unfold merge_text.
  destruct (generator_state (keyGenerator_obj p) h) as [st |] eqn:Hh; symmetry in Hg.
  - destruct (generateKey_state now text _ h st Hh) as (h1 & -> & Hst1 & Hframe).
    destruct (generateKey_state now text _ h' st Hg) as (h1' & -> & Hst1' & Hframe').
    simpl. unfold assign_text.
    apply generator_state_refs in Hst1 as (He1 & Ht1 & _).
    apply generator_state_refs in Hst1' as (He1' & Ht1' & _).
    destruct (decide (allExtractedTexts_ref p = existingKeys_ref (keyGenerator_obj p)))
      as [Hre | Hre].
    { unfold store_state. rewrite Hre, He1, He1'. exact I. }
    destruct (decide (allExtractedTexts_ref p = textToKeyMap_ref (keyGenerator_obj p)))
      as [Hrt | Hrt].
    { unfold store_state. rewrite Hrt, Ht1, Ht1'. exact I. }
    assert (Hs1 : store_state p h1 = store_state p h)
      by (apply store_state_frame; auto).
    assert (Hs1' : store_state p h1' = store_state p h')
      by (apply store_state_frame; auto).
    rewrite Hs1, Hs1', <- Hs.
    destruct (store_state p h) as [r |]; simpl; [| exact I].
    split; [reflexivity |]. split.
    + transitivity (Some (KeyGen.generateKey cfg now text st).2).
      * unfold generator_state.
        rewrite !lookup_insert_ne by congruence. rewrite He1, Ht1.
        now destruct (KeyGen.generateKey cfg now text st).2.
      * unfold generator_state.
        rewrite !lookup_insert_ne by congruence. rewrite He1', Ht1'.
        now destruct (KeyGen.generateKey cfg now text st).2.
    + unfold store_state. now rewrite !lookup_insert_eq.
  - now rewrite !generateKey_none.
Qed.

(** A run of merges returns the same keys and leaves the same content in
    two heaps that agree. *)
Lemma merge_seq_agree (calls : list (Z * jsstring)) (p : FileProcessorObj)
    (h h' : heap) :
  agree p h h' ->
  match merge_seq cfg calls p h, merge_seq cfg calls p h' with
  | Some (keys, h2), Some (keys', h2') => keys = keys' /\ agree p h2 h2'
  | None, None => True
  | _, _ => False
  end.
Proof.
  revert h h'. induction calls as [| [now text] calls IH]; intros h h' Hagree.
  - simpl. auto.
  - cbn [merge_seq].
    pose proof (merge_text_agree now text p h h' Hagree) as Hstep.
    destruct (merge_text cfg now text p h) as [[key h1] |],
             (merge_text cfg now text p h') as [[key' h1'] |];
      simpl; try contradiction; [| exact I].
    destruct Hstep as [<- Hagree1]. specialize (IH h1 h1' Hagree1).
    destruct (merge_seq cfg calls p h1) as [[keys h2] |],
             (merge_seq cfg calls p h1') as [[keys' h2'] |];
      simpl; try contradiction; [| exact I].
    destruct IH as [<- Hagree2]. auto.
Qed.

End Frame.

(** C10.  [getTextToKeyMap], [getAllKeys] and [getExtractedTexts] each
    return a new object that holds the current content of the
    collection.  Whatever the caller then does to the object it received,
    the collections of the generator and of the processor keep their
    content, and every later run of [generateKey] calls and of merges
    returns the same keys and leaves the same content as it would have
    without those mutations. *)
Theorem accessors_hand_out_copies `{PinyinPro} `{Md5} (cfg : KeyGenerationConfig)
    (p : FileProcessorObj) (h : heap) (st : KeyGenerator)
    (store : gmap jsstring jsstring) :
  let g := keyGenerator_obj p in
  generator_state g h = Some st ->
  store_state p h = Some store ->
  exists l1 h1 l2 h2 l3 h3,
    getTextToKeyMap g h = Some (l1, h1)
    /\ h1 !! l1 = Some (MapObj (textToKeyMap st))
    /\ getAllKeys g h = Some (l2, h2)
    /\ h2 !! l2 = Some (SetObj (existingKeys st))
    /\ getExtractedTexts p h = Some (l3, h3)
    /\ h3 !! l3 = Some (RecordObj store)
    /\ forall l hc mus,
         (l, hc) ∈ [(l1, h1); (l2, h2); (l3, h3)] ->
         let hm := mutate_all l mus hc in
         generator_state g hm = Some st
         /\ store_state p hm = Some store
         /\ (forall calls,
               fst <$> generateKey_seq cfg calls g hm
               = fst <$> generateKey_seq cfg calls g h)
         /\ (forall calls,
               match merge_seq cfg calls p hm, merge_seq cfg calls p h with
               | Some (keys, hm'), Some (keys', h') =>
                   keys = keys'
                   /\ generator_state g hm' = generator_state g h'
                   /\ store_state p hm' = store_state p h'
               | None, None => True
               | _, _ => False
               end).
Proof.
  intros g Hst Hstore.
  pose proof (generator_state_refs g h st Hst) as (He & Ht & _).
  pose proof (store_state_ref p h store Hstore) as Hr.
  destruct (alloc (MapObj (textToKeyMap st)) h) as [l1 h1] eqn:H1.
  destruct (alloc (SetObj (existingKeys st)) h) as [l2 h2] eqn:H2.
  destruct (alloc (RecordObj store) h) as [l3 h3] eqn:H3.
  exists l1, h1, l2, h2, l3, h3.
  unfold getTextToKeyMap, getAllKeys, getExtractedTexts.
  fold g. rewrite He, Ht, Hr, H1, H2, H3.
  split; [reflexivity |]. split; [exact (proj1 (proj2 (alloc_fresh _ _ _ _ H1))) |].
  split; [reflexivity |]. split; [exact (proj1 (proj2 (alloc_fresh _ _ _ _ H2))) |].
  split; [reflexivity |]. split; [exact (proj1 (proj2 (alloc_fresh _ _ _ _ H3))) |].
  intros l hc mus Hin. set (hm := mutate_all l mus hc).
  assert (Hagree : agree p hm h).
  { unfold hm. rewrite !elem_of_cons in Hin.
    destruct Hin as [[= -> ->] | [[= -> ->] | [[= -> ->] | Hin]]];
      [| | | now apply elem_of_nil in Hin];
      eapply copy_then_mutate_agrees; eauto. }
  destruct Hagree as [Hg Hs]. fold g in Hg.
  split; [congruence |]. split; [congruence |]. split.
  - intros calls. now apply generateKey_seq_agree.
  - intros calls.
    pose proof (merge_seq_agree cfg calls p hm h (conj Hg Hs)) as Hrun.
    destruct (merge_seq cfg calls p hm) as [[keys hm'] |],
             (merge_seq cfg calls p h) as [[keys' h'] |]; exact Hrun.
Qed.

(** A processor for the examples: the set at 1, the memo at 2 and the
    store at 3, all empty. *)
Definition demo_processor : FileProcessorObj :=
  {| allExtractedTexts_ref := 3;
     keyGenerator_obj := {| existingKeys_ref := 1; textToKeyMap_ref := 2 |} |}.

Definition demo_heap : heap :=
  {[ 1%positive := SetObj ∅; 2%positive := MapObj ∅; 3%positive := RecordObj ∅ ]}.

(** The model tells a copy from the field itself: writing to the memo of
    the generator, not to a copy of it, changes the next key. *)
Example mutating_the_memo_itself_changes_keys :
  fst <$> generateKey default_config 0 ti_jiao (keyGenerator_obj demo_processor) demo_heap
  = Some (lit "ti_jiao")
  /\ fst <$> generateKey default_config 0 ti_jiao (keyGenerator_obj demo_processor)
              (mutate 2 demo_heap (MapSet ti_jiao (lit "x")))
     = Some (lit "x").
Proof. split; vm_compute; reflexivity. Qed.

Lemma accessors_hand_out_copies_witness :
  generator_state (keyGenerator_obj demo_processor) demo_heap = Some empty_generator
  /\ store_state demo_processor demo_heap = Some ∅
  /\ exists l1 h1,
       getTextToKeyMap (keyGenerator_obj demo_processor) demo_heap = Some (l1, h1)
       /\ fst <$> generateKey_seq default_config [(0, ti_jiao)]
                    (keyGenerator_obj demo_processor)
                    (mutate_all l1 [MapSet ti_jiao (lit "x"); MapClear] h1)
          = fst <$> generateKey_seq default_config [(0, ti_jiao)]
                      (keyGenerator_obj demo_processor) demo_heap.
Proof.
  assert (Hst : generator_state (keyGenerator_obj demo_processor) demo_heap
                = Some empty_generator) by (vm_compute; reflexivity).
  assert (Hstore : store_state demo_processor demo_heap = Some ∅)
    by (vm_compute; reflexivity).
  split; [exact Hst |]. split; [exact Hstore |].
  destruct (accessors_hand_out_copies default_config demo_processor demo_heap
              empty_generator ∅ Hst Hstore)
    as (l1 & h1 & l2 & h2 & l3 & h3 & Hget & _ & _ & _ & _ & _ & Hframe).
  exists l1, h1. split; [exact Hget |].
  destruct (Hframe l1 h1 [MapSet ti_jiao (lit "x"); MapClear]
              ltac:(apply elem_of_cons; left; reflexivity))
    as (_ & _ & Hkeys & _).
  exact (Hkeys [(0, ti_jiao)]).
Defined.

End HeapFacts.

(* ===================================================================== *)
(** * Part III.  More of the code                                         *)
(* ===================================================================== *)

(** The remaining methods of the classes of Part I, the helpers of
    [ErrorUtils] and the loop over the files of a run.  The conventions
    are those of Part I; a plain object written with [obj[key] = value]
    is read as a dictionary, which leaves the key [__proto__] out of the
    model. *)

(** ** Slices *)

Module ListFacts.

Import LLM.

(** A slice that starts inside the array and has a length that is not
    negative is a [take] of a [drop]. *)
Lemma slice_take_drop {A} (l : list A) (i n : Z) :
  0 <= i -> 0 <= n ->
  slice l i (i + n) = take (Z.to_nat n) (drop (Z.to_nat i) l).
Proof.
  intros Hi Hn. unfold slice.
  destruct (Z.ltb_spec i 0); [lia |]. destruct (Z.ltb_spec (i + n) 0); [lia |].
  destruct (Z_le_gt_dec i (Z.of_nat (length l))).
  - rewrite (Z.min_l i) by lia.
    destruct (Z_le_gt_dec (i + n) (Z.of_nat (length l))).
    + rewrite Z.min_l by lia. f_equal. lia.
    + rewrite Z.min_r by lia. rewrite !take_ge; [reflexivity | |];
        rewrite length_drop; lia.
  - rewrite !Z.min_r by lia. rewrite (drop_ge l (Z.to_nat i)) by lia.
    rewrite take_nil, Z.sub_diag. reflexivity.
Qed.

End ListFacts.

(** ** KeyGenerator: the rest of the class *)

Module KeyGenMore.

Import KeyGen JSFacts KeyGenFacts.

Section Definitions.
Context `{PinyinPro} `{Md5}.
Variable cfg : KeyGenerationConfig.



End Definitions.

(** Every key the memo holds is in the set of used keys. *)
Definition memo_keys_used (g : KeyGenerator) : Prop :=
  forall t k, textToKeyMap g !! t = Some k -> k ∈ existingKeys g.

(** Every key the memo holds is the prefixed base key of its text. *)
Definition memo_consistent `{PinyinPro} `{Md5} (cfg : KeyGenerationConfig)
    (g : KeyGenerator) : Prop :=
  forall t k, textToKeyMap g !! t = Some k -> k = prefixedKey cfg t.

(** The longest key the generator can build: the prefix and its
    separator, the truncated transliteration, separator and digest, and
    the separator and digest of the duplicate handling. *)
Definition key_length_bound (cfg : KeyGenerationConfig) : nat :=
  (length (keyPrefix cfg) + length (separator cfg)
   + (Z.to_nat (maxChineseLength cfg) + length (separator cfg)
      + Z.to_nat (hashLength cfg))
   + (length (separator cfg) + Z.to_nat (hashLength cfg)))%nat.

Definition memo_bounded (cfg : KeyGenerationConfig) (g : KeyGenerator) : Prop :=
  forall t k, textToKeyMap g !! t = Some k -> (length k <= key_length_bound cfg)%nat.

Section Facts.
Context `{PinyinPro} `{Md5}.
Variable cfg : KeyGenerationConfig.

Lemma generateKey_seq_length calls g :
  length (generateKey_seq cfg calls g).1 = length calls.
Proof.
  revert g. induction calls as [| [now text] calls IH]; intros g; [reflexivity |].
  simpl. destruct (generateKey cfg now text g) as [key g1].
  specialize (IH g1). destruct (generateKey_seq cfg calls g1) as [keys g2].
  simpl in *. now rewrite IH.
Qed.

Lemma generateKey_seq_cons now text calls g :
  generateKey_seq cfg ((now, text) :: calls) g
  = ((generateKey cfg now text g).1
       :: (generateKey_seq cfg calls (generateKey cfg now text g).2).1,
     (generateKey_seq cfg calls (generateKey cfg now text g).2).2).
Proof.
  simpl. destruct (generateKey cfg now text g) as [key g1]. simpl.
  now destruct (generateKey_seq cfg calls g1).
Qed.

(** *** The used-key set covers the memo *)

Lemma generateKey_memo_keys_used now text g :
  memo_keys_used g ->
  memo_keys_used (generateKey cfg now text g).2
  /\ (generateKey cfg now text g).1 ∈ existingKeys (generateKey cfg now text g).2
  /\ existingKeys g ⊆ existingKeys (generateKey cfg now text g).2.
Proof.
  intros Hinv. unfold generateKey.
  destruct (if reuseExistingKey cfg then textToKeyMap g !! text else None)
    as [key |] eqn:Hhit; simpl.
  - split; [exact Hinv |]. split; [| set_solver].
    destruct (reuseExistingKey cfg); [| discriminate]. eauto.
  - split; [| split; set_solver].
    intros t k. simpl. rewrite lookup_insert. case_decide.
    + intros [= <-]. set_solver.
    + intros Hk. apply Hinv in Hk. set_solver.
Qed.

Lemma loadExistingKeys_memo_keys_used keys g :
  memo_keys_used g -> memo_keys_used (loadExistingKeys keys g).
Proof. intros Hinv t k Hk. simpl in *. apply Hinv in Hk. set_solver. Qed.

(** X3.  Once a memoized key is in the used-key set, it stays so: after
    any run of [generateKey] calls every memoized key and every key the
    run returned is a used key, and no used key is forgotten. *)
Theorem generateKey_seq_keys_are_used calls g :
  memo_keys_used g ->
  memo_keys_used (generateKey_seq cfg calls g).2
  /\ (forall key, key ∈ (generateKey_seq cfg calls g).1 ->
        key ∈ existingKeys (generateKey_seq cfg calls g).2)
  /\ existingKeys g ⊆ existingKeys (generateKey_seq cfg calls g).2.
Proof.
  revert g. induction calls as [| [now text] calls IH]; intros g Hinv.
  - simpl. split; [exact Hinv |]. split; [| reflexivity].
    intros key Hkey. inversion Hkey.
  - rewrite generateKey_seq_cons. cbn [fst snd].
    destruct (generateKey_memo_keys_used now text g Hinv) as (Hinv1 & Hkey1 & Hsub1).
    destruct (IH _ Hinv1) as (Hinv2 & Hkeys2 & Hsub2).
    split; [exact Hinv2 |]. split.
    + intros key Hkey. apply elem_of_cons in Hkey as [-> | Hkey]; [| auto].
      apply Hsub2, Hkey1.
    + etransitivity; eassumption.
Qed.

(** *** With reuse, a key depends on the text alone *)

Lemma generateKey_reuse_prefixedKey now text g :
  reuseExistingKey cfg = true ->
  memo_consistent cfg g ->
  (generateKey cfg now text g).1 = prefixedKey cfg text
  /\ memo_consistent cfg (generateKey cfg now text g).2.
Proof.
  intros Hr Hinv. unfold generateKey. rewrite Hr.
  destruct (textToKeyMap g !! text) as [key |] eqn:Hhit; simpl.
  - split; [now apply Hinv | exact Hinv].
  - split; [reflexivity |]. intros t k. simpl. rewrite lookup_insert.
    case_decide; [intros [= <-]; congruence | apply Hinv].
Qed.

(** X4.  With [reuseExistingKey = true] and a memo that only holds base
    keys (an empty one, say), the keys of a run are the prefixed base keys
    of its texts: a key depends on its text and on the configuration, not
    on the calls made before, on the clock or on the used-key set. *)
Theorem generateKey_seq_reuse_prefixedKey calls g :
  reuseExistingKey cfg = true ->
  memo_consistent cfg g ->
  (generateKey_seq cfg calls g).1 = (fun call => prefixedKey cfg call.2) <$> calls
  /\ memo_consistent cfg (generateKey_seq cfg calls g).2.
Proof.
  intros Hr. revert g. induction calls as [| [now text] calls IH]; intros g Hinv.
  - simpl. auto.
  - rewrite generateKey_seq_cons. cbn [fst snd fmap list_fmap].
    destruct (generateKey_reuse_prefixedKey now text g Hr Hinv) as [Hkey Hinv1].
    destruct (IH _ Hinv1) as [Hkeys Hinv2].
    split; [| exact Hinv2]. simpl. now rewrite Hkey, Hkeys.
Qed.

(** *** Loaded keys *)

Lemma generateKey_reuse_same_memo now text g g' :
  reuseExistingKey cfg = true ->
  textToKeyMap g = textToKeyMap g' ->
  (generateKey cfg now text g).1 = (generateKey cfg now text g').1
  /\ textToKeyMap (generateKey cfg now text g).2
     = textToKeyMap (generateKey cfg now text g').2.
Proof.
  intros Hr Hmemo. unfold generateKey. rewrite Hr, Hmemo.
  destruct (textToKeyMap g' !! text); simpl; auto.
Qed.

(** X5.  With [reuseExistingKey = true] the keys loaded with
    [loadExistingKeys] have no effect on the keys generated: a generated
    key may be one that was loaded. *)
Theorem loadExistingKeys_ignored_with_reuse keys calls g :
  reuseExistingKey cfg = true ->
  (generateKey_seq cfg calls (loadExistingKeys keys g)).1
  = (generateKey_seq cfg calls g).1.
Proof.
  intros Hr.
  assert (Hgen : forall g1 g2, textToKeyMap g1 = textToKeyMap g2 ->
            (generateKey_seq cfg calls g1).1 = (generateKey_seq cfg calls g2).1).
  { induction calls as [| [now text] calls IH]; intros g1 g2 Hmemo; [reflexivity |].
    rewrite !generateKey_seq_cons. cbn [fst].
    destruct (generateKey_reuse_same_memo now text g1 g2 Hr Hmemo) as [-> Hmemo'].
    f_equal. now apply IH. }
  now apply Hgen.
Qed.

(** *** generateKeys *)





(** *** The length of a key *)

Lemma take_length_le {A} (n : nat) (l : list A) : (length (take n l) <= n)%nat.
Proof. rewrite length_take. lia. Qed.

Lemma limitLength_length pinyin text :
  (length (limitLength cfg pinyin text)
   <= Z.to_nat (maxChineseLength cfg) + length (separator cfg)
      + Z.to_nat (hashLength cfg))%nat.
Proof.
  unfold limitLength, str_length.
  destruct (Z.leb_spec (Z.of_nat (length pinyin)) (maxChineseLength cfg)); [lia |].
  unfold generateHash, substring0. rewrite !length_app.
  pose proof (take_length_le (Z.to_nat (maxChineseLength cfg)) pinyin).
  pose proof (take_length_le (Z.to_nat (hashLength cfg)) (md5_hex text)). lia.
Qed.

Lemma prefixedKey_length text :
  (length (prefixedKey cfg text)
   <= length (keyPrefix cfg) + length (separator cfg)
      + (Z.to_nat (maxChineseLength cfg) + length (separator cfg)
         + Z.to_nat (hashLength cfg)))%nat.
Proof.
  unfold prefixedKey.
  pose proof (limitLength_length (convertToPinyin cfg text) text).
  destruct (truthy (keyPrefix cfg)); rewrite ?length_app; lia.
Qed.

(** X7.  Whatever the text, a generated key is at most [key_length_bound
    cfg] characters long; its length is bounded by the configuration, not
    by the text.  (The bound is larger than [maxChineseLength]: the
    prefix, the separators and the digests come on top.) *)
Theorem generateKey_length_bounded now text g :
  memo_bounded cfg g ->
  (length (generateKey cfg now text g).1 <= key_length_bound cfg)%nat
  /\ memo_bounded cfg (generateKey cfg now text g).2.
Proof.
  intros Hinv.
  pose proof (prefixedKey_length text) as Hbase.
  unfold generateKey.
  destruct (if reuseExistingKey cfg then textToKeyMap g !! text else None)
    as [key |] eqn:Hhit.
  - simpl. split; [| exact Hinv].
    destruct (reuseExistingKey cfg); [eauto | discriminate].
  - set (finalKey := if negb (reuseExistingKey cfg)
                          && bool_decide (prefixedKey cfg text ∈ existingKeys g)
                     then handleDuplicateKey cfg now (prefixedKey cfg text) text
                     else prefixedKey cfg text).
    assert (Hfinal : (length finalKey <= key_length_bound cfg)%nat).
    { unfold finalKey, key_length_bound.
      destruct (negb (reuseExistingKey cfg)
                && bool_decide (prefixedKey cfg text ∈ existingKeys g)); [| lia].
      unfold handleDuplicateKey, generateHash, substring0. rewrite !length_app.
      pose proof (take_length_le (Z.to_nat (hashLength cfg))
                    (md5_hex (text ++ Z_toString now))). lia. }
    simpl. split; [exact Hfinal |].
    intros t k. simpl. rewrite lookup_insert.
    case_decide; [intros [= <-]; exact Hfinal | apply Hinv].
Qed.

End Facts.

Lemma memo_keys_used_empty : memo_keys_used empty_generator.
Proof. intros t k Hk. simpl in Hk. rewrite lookup_empty in Hk. discriminate. Qed.

Lemma memo_consistent_empty `{PinyinPro} `{Md5} (cfg : KeyGenerationConfig) :
  memo_consistent cfg empty_generator.
Proof. intros t k Hk. simpl in Hk. rewrite lookup_empty in Hk. discriminate. Qed.

Lemma memo_bounded_empty (cfg : KeyGenerationConfig) : memo_bounded cfg empty_generator.
Proof. intros t k Hk. simpl in Hk. rewrite lookup_empty in Hk. discriminate. Qed.

Lemma generateKey_seq_keys_are_used_witness :
  memo_keys_used empty_generator
  /\ lit "ti_jiao"
     ∈ existingKeys (generateKey_seq default_config [(0, ti_jiao)] empty_generator).2.
Proof.
  split; [exact memo_keys_used_empty |].
  apply (proj1 (proj2 (generateKey_seq_keys_are_used default_config [(0, ti_jiao)]
                         empty_generator memo_keys_used_empty))).
  vm_compute. left.
Defined.

Lemma generateKey_seq_reuse_prefixedKey_witness :
  reuseExistingKey default_config = true
  /\ memo_consistent default_config empty_generator
  /\ (generateKey_seq default_config [(5, ti_jiao); (9, lit "ok"); (12, ti_jiao)]
        empty_generator).1
     = [prefixedKey default_config ti_jiao; prefixedKey default_config (lit "ok");
        prefixedKey default_config ti_jiao].
Proof.
  split; [reflexivity |]. split; [exact (memo_consistent_empty default_config) |].
  exact (proj1 (generateKey_seq_reuse_prefixedKey default_config
                  [(5, ti_jiao); (9, lit "ok"); (12, ti_jiao)] empty_generator
                  eq_refl (memo_consistent_empty default_config))).
Defined.

Lemma loadExistingKeys_ignored_with_reuse_witness :
  reuseExistingKey default_config = true
  /\ (generateKey_seq default_config [(0, ti_jiao)]
        (loadExistingKeys [lit "ti_jiao"] empty_generator)).1
     = (generateKey_seq default_config [(0, ti_jiao)] empty_generator).1.
Proof.
  split; [reflexivity |].
  exact (loadExistingKeys_ignored_with_reuse default_config [lit "ti_jiao"]
           [(0, ti_jiao)] empty_generator eq_refl).
Defined.

Lemma generateKey_length_bounded_witness :
  memo_bounded (short_config false) empty_generator
  /\ (length (generateKey (short_config false) 0 ti_jiao empty_generator).1
      <= key_length_bound (short_config false))%nat.
Proof.
  split; [exact (memo_bounded_empty (short_config false)) |].
  exact (proj1 (generateKey_length_bounded (short_config false) 0 ti_jiao
                  empty_generator (memo_bounded_empty (short_config false)))).
Defined.

Lemma generateKey_no_reuse_first_two_differ_witness :
  reuseExistingKey (short_config false) = false
  /\ separator (short_config false) <> []
  /\ (prefixedKey (short_config false) ti_jiao ∉ existingKeys empty_generator)
  /\ (generateKey (short_config false) 2 ti_jiao
        (generateKey (short_config false) 1 ti_jiao empty_generator).2).1
     <> (generateKey (short_config false) 1 ti_jiao empty_generator).1.
Proof.
  assert (Hsep : separator (short_config false) <> []) by discriminate.
  assert (Hfresh : prefixedKey (short_config false) ti_jiao ∉ existingKeys empty_generator)
    by apply not_elem_of_empty.
  split; [reflexivity |]. split; [exact Hsep |]. split; [exact Hfresh |].
  exact (proj2 (proj2 (generateKey_no_reuse_first_two_differ (short_config false) 1 2
                         ti_jiao empty_generator eq_refl Hsep Hfresh))).
Defined.

End KeyGenMore.

(** ** ErrorUtils ([src/utils/key-generator.ts]) *)

Module ErrorUtils.

Import LLM RetryFacts.

(** [PromiseSettledResult<R>] *)
Inductive Settled (R : Type) :=
| Fulfilled (value : R)
| Rejected (reason : Thrown).
Arguments Fulfilled {R}.
Arguments Rejected {R}.

(** An element of the array [collectErrors] is given: [error] and [data]
    are optional. *)
Record OperationResult (T : Type) := {
  op_success : bool;
  op_error : option jsstring;
  op_data : option T
}.
Arguments op_success {T}.
Arguments op_error {T}.
Arguments op_data {T}.

Record Collected (T : Type) := {
  successful : list T;
  failed : list jsstring;
  stats_total : Z;
  stats_success : Z;
  stats_failed : Z
}.
Arguments successful {T}.
Arguments failed {T}.
Arguments stats_total {T}.
Arguments stats_success {T}.
Arguments stats_failed {T}.

Section CollectErrors.
Variable T : Type.
(** Whether a value of type [T] is truthy. *)
Variable truthy_data : T -> bool.

(** The body of the loop of [collectErrors]. *)
Definition collect_result (acc : list T * list jsstring) (result : OperationResult T)
  : list T * list jsstring :=
  match op_data result with
  | Some d =>
      if op_success result && truthy_data d then (acc.1 ++ [d], acc.2)
      else match op_error result with
           | Some e => if truthy e then (acc.1, acc.2 ++ [e]) else acc
           | None => acc
           end
  | None =>
      match op_error result with
      | Some e => if truthy e then (acc.1, acc.2 ++ [e]) else acc
      | None => acc
      end
  end.

Definition collectErrors (results : list (OperationResult T)) : Collected T :=
  let '(successful, failed) := foldl collect_result ([], []) results in
  {| successful := successful;
     failed := failed;
     stats_total := Z.of_nat (length results);
     stats_success := Z.of_nat (length successful);
     stats_failed := Z.of_nat (length failed) |}.

(** A result that goes to neither list: it does not carry truthy data as
    a success, and its error is missing or empty. *)
Definition uncounted (result : OperationResult T) : bool :=
  negb (op_success result && from_option truthy_data false (op_data result))
  && negb (from_option truthy false (op_error result)).

End CollectErrors.

Arguments collect_result {T}.
Arguments collectErrors {T}.
Arguments uncounted {T}.

(** [limitConcurrency(items, concurrency, processor)]: [processor k item]
    is how the promise of the [k]-th call of [processor], made on [item],
    settles; [calls] counts the calls made so far.  The loop runs on
    fuel, since it need not end when [concurrency] is not positive. *)
Fixpoint limitConcurrency_loop {T R} (fuel : nat) (items : list T) (concurrency : Z)
    (processor : nat -> T -> Settled R) (i : Z) (results : list (Settled R))
    (calls : nat) : option (list (Settled R)) :=
  if i <? Z.of_nat (length items) then
    match fuel with
    | O => None
    | S fuel' =>
        let batch := slice items i (i + concurrency) in
        let batchResults := imap (fun j item => processor (calls + j)%nat item) batch in
        limitConcurrency_loop fuel' items concurrency processor (i + concurrency)
          (results ++ batchResults) (calls + length batch)
    end
  else Some results.

Definition limitConcurrency {T R} (items : list T) (concurrency : Z)
    (processor : nat -> T -> Settled R) : option (list (Settled R)) :=
  limitConcurrency_loop (length items) items concurrency processor 0 [] 0.

Section Facts.

(** *** withRetry *)

(** X9.  An error [shouldRetry] refuses is thrown again at once, as it is:
    the operation ran once, and there was no pause and no warning. *)
Theorem withRetry_not_retried {T} (operation : nat -> Thrown + T)
    (options : RetryOptions) (error : Thrown) (w : World) :
  0 <= maxRetries options ->
  operation (invocations w) = inl error ->
  shouldRetry options error = false ->
  withRetry operation options w
  = (inl error,
     {| invocations := S (invocations w); trace := trace w ++ [Invoked []] |}).
Proof.
  intros Hmax Herr Hno. unfold withRetry.
  replace (Z.to_nat (maxRetries options + 1)) with (S (Z.to_nat (maxRetries options)))
    by lia.
  rewrite (withRetry_loop_failed_attempt _ _ _ _ _ _ _ Herr), Hno.
  cbn [negb]. now rewrite orb_true_r.
Qed.

(** *** collectErrors *)

Lemma collect_result_lengths {T} (truthy_data : T -> bool)
    (acc : list T * list jsstring) (result : OperationResult T) :
  (length (collect_result truthy_data acc result).1
   + length (collect_result truthy_data acc result).2
   + (if uncounted truthy_data result then 1 else 0)
   = length acc.1 + length acc.2 + 1)%nat.
Proof.
  unfold collect_result, uncounted.
  destruct (op_data result) as [d |], (op_success result), (op_error result) as [e |];
    simpl; try destruct (truthy_data d); try destruct (truthy e); simpl;
    rewrite ?length_app; simpl; lia.
Qed.

(** X10.  The statistics of [collectErrors] need not add up: the results
    that are neither a success with truthy data nor carry a non-empty
    error are in neither list, so [success + failed] is [total] less the
    number of such results. *)
Theorem collectErrors_stats {T} (truthy_data : T -> bool)
    (results : list (OperationResult T)) :
  let collected := collectErrors truthy_data results in
  stats_success collected + stats_failed collected
  + Z.of_nat (length (List.filter (uncounted truthy_data) results))
  = stats_total collected.
Proof.
  unfold collectErrors.
  assert (Hgen : forall acc,
            (length (foldl (collect_result truthy_data) acc results).1
             + length (foldl (collect_result truthy_data) acc results).2
             + length (List.filter (uncounted truthy_data) results)
             = length acc.1 + length acc.2 + length results)%nat).
  { induction results as [| result rest IH]; intros acc; [simpl; lia |].
    cbn [foldl List.filter].
    pose proof (collect_result_lengths truthy_data acc result) as Hstep.
    specialize (IH (collect_result truthy_data acc result)).
    destruct (uncounted truthy_data result); cbn [length] in *; lia. }
  specialize (Hgen ([], [])).
  destruct (foldl (collect_result truthy_data) ([], []) results) as [ok ko].
  simpl in *. lia.
Qed.

(** *** limitConcurrency *)

Lemma limitConcurrency_loop_settles {T R} (items : list T) (concurrency : Z)
    (processor : nat -> T -> Settled R) (fuel : nat) :
  1 <= concurrency ->
  forall (n : nat) results,
  (length items - n <= fuel)%nat ->
  limitConcurrency_loop fuel items concurrency processor (Z.of_nat n) results n
  = Some (results ++ imap (fun j => processor (n + j)%nat) (drop n items)).
Proof.
  intros Hc. induction fuel as [| fuel IH]; intros n results Hfuel;
    cbn [limitConcurrency_loop];
    destruct (Z.ltb_spec (Z.of_nat n) (Z.of_nat (length items))); try lia.
  - rewrite drop_ge by lia. simpl. now rewrite app_nil_r.
  - rewrite ListFacts.slice_take_drop by lia. rewrite Nat2Z.id.
    set (c := Z.to_nat concurrency).
    assert (Hbatch : length (take c (drop n items)) = Nat.min c (length items - n))
      by (rewrite length_take, length_drop; reflexivity).
    destruct (Nat.le_gt_cases c (length items - n)) as [Hfull | Hshort].
    + replace (Z.of_nat n + concurrency) with (Z.of_nat (n + c)) by lia.
      replace (n + length (take c (drop n items)))%nat with (n + c)%nat by lia.
      rewrite IH by lia. f_equal. rewrite <- app_assoc. f_equal.
      rewrite <- (take_drop c (drop n items)) at 2.
      rewrite imap_app, drop_drop. f_equal.
      apply imap_ext. intros j x _. simpl. f_equal. rewrite length_take, length_drop. lia.
    + rewrite take_ge by (rewrite length_drop; lia).
      destruct fuel as [| fuel']; cbn [limitConcurrency_loop];
        (destruct (Z.ltb_spec (Z.of_nat n + concurrency) (Z.of_nat (length items)));
         [lia | reflexivity]).
  - rewrite drop_ge by lia. simpl. now rewrite app_nil_r.
Qed.

(** X11.  With a concurrency of at least one, [limitConcurrency] resolves
    with one settled result per item, in the order of the items: the
    result at index [k] is how the call on the item at index [k] settled,
    whether it was fulfilled or rejected. *)
Theorem limitConcurrency_results_in_order {T R} (items : list T) (concurrency : Z)
    (processor : nat -> T -> Settled R) :
  1 <= concurrency ->
  limitConcurrency items concurrency processor = Some (imap processor items).
Proof.
  intros Hc. unfold limitConcurrency.
  change 0 with (Z.of_nat 0).
  rewrite (limitConcurrency_loop_settles items concurrency processor (length items) Hc
             0 []) by lia.
  reflexivity.
Qed.

End Facts.

(** An operation that is always refused, and a processor that rejects
    the item 2 and multiplies the others by ten. *)
Definition refused : nat -> Thrown + unit := fun _ => inl (ThrownValue (lit "401")).

Definition times_ten : nat -> Z -> Settled Z :=
  fun _ item => if item =? 2 then Rejected (ThrownValue (lit "two"))
                else Fulfilled (item * 10).

Lemma withRetry_not_retried_witness :
  0 <= maxRetries {| maxRetries := 3; baseDelay := 1000; shouldRetry := fun _ => false |}
  /\ withRetry refused
       {| maxRetries := 3; baseDelay := 1000; shouldRetry := fun _ => false |} new_world
     = (inl (ThrownValue (lit "401")), {| invocations := 1; trace := [Invoked []] |}).
Proof.
  assert (Hmax : 0 <= maxRetries {| maxRetries := 3; baseDelay := 1000;
                                    shouldRetry := fun _ => false |})
    by (simpl; lia).
  split; [exact Hmax |].
  exact (withRetry_not_retried refused
           {| maxRetries := 3; baseDelay := 1000; shouldRetry := fun _ => false |}
           (ThrownValue (lit "401")) new_world Hmax eq_refl eq_refl).
Defined.

Lemma withRetry_always_failing_witness :
  0 <= maxRetries default_options
  /\ exists events,
       withRetry refused default_options new_world
       = (inl (ThrownValue (lit "401")), {| invocations := 4; trace := events |})
       /\ Z.of_nat (invoked events) = 4
       /\ delays events = [1000; 2000; 4000].
Proof.
  assert (Hmax : 0 <= maxRetries default_options) by (simpl; lia).
  split; [exact Hmax |].
  exact (withRetry_always_failing refused default_options
           (fun _ => ThrownValue (lit "401")) new_world Hmax
           (fun _ => eq_refl) (fun _ => eq_refl)).
Defined.

Lemma limitConcurrency_results_in_order_witness :
  1 <= 2
  /\ limitConcurrency [1; 2; 3] 2 times_ten
     = Some [Fulfilled 10; Rejected (ThrownValue (lit "two")); Fulfilled 30].
Proof.
  assert (Hc : 1 <= 2) by lia.
  split; [exact Hc |].
  exact (limitConcurrency_results_in_order [1; 2; 3] 2 times_ten Hc).
Defined.

End ErrorUtils.

(** ** LLMClient: the rest of the class *)

Module ClientMore.

Import LLM RetryFacts BatchFacts.

(** [ExtractionResult] *)
Record ExtractionResult := {
  extractedTexts : list (jsstring * jsstring);
  transformedCode : jsstring
}.

(** [JSON.parse(jsonStr)] read as an extraction response: [inl] when
    parsing throws, else [parsed.extractedTexts] ([None] when the field
    is missing or falsy; an object, even an empty one, is truthy) and
    [parsed.transformedCode] ([None] when the field is missing or [null],
    else the string; other types of value are left out). *)
Class ExtractionRuntime := {
  json_extraction :
    jsstring -> Thrown + (option (list (jsstring * jsstring)) * option jsstring)
}.

Definition msg_extract_failed : jsstring :=
  [0x6587; 0x672c; 0x63d0; 0x53d6; 0x5931; 0x8d25; 0x3a; 0x20]%N.
Definition msg_parse_extraction_failed : jsstring :=
  [0x89e3; 0x6790; 0x63d0; 0x53d6; 0x54cd; 0x5e94; 0x5931; 0x8d25; 0x3a; 0x20]%N.
Definition msg_missing_fields : jsstring :=
  [0x54cd; 0x5e94; 0x683c; 0x5f0f; 0x4e0d; 0x6b63; 0x786e; 0xff0c; 0x7f3a;
   0x5c11; 0x5fc5; 0x9700; 0x5b57; 0x6bb5]%N.

(** The prompt of [testConnection] and the first marker it looks for. *)
Definition testPrompt : jsstring :=
  [0x8bf7; 0x56de; 0x590d; 0x20; 0x22; 0x8fde; 0x63a5; 0x6210; 0x529f; 0x22]%N.
Definition marker_connected : jsstring := [0x8fde; 0x63a5; 0x6210; 0x529f]%N.

(** [s.includes(sub)] *)
Fixpoint includes (s sub : jsstring) : bool :=
  startsWith s sub
  || match s with
     | [] => false
     | _ :: rest => includes rest sub
     end.

Section Client.
Context `{Runtime} `{ExtractionRuntime}.
Variable config : LLMConfig.
Variable extractionLLM : LanguageModel.

Definition parseExtractionResponse (response : jsstring) : M ExtractionResult :=
  try_catch
    (let jsonStr := default response (fenced_json response) in
     parsed ← lift (json_extraction jsonStr);
     match parsed with
     | (Some texts, Some code) =>
         if truthy code
         then mret {| extractedTexts := texts; transformedCode := code |}
         else throw (ThrownError {| message := msg_missing_fields |})
     | _ => throw (ThrownError {| message := msg_missing_fields |})
     end)
    (fun error =>
       throw (ThrownError
                {| message := msg_parse_extraction_failed ++ errorMessage error |})).

Definition extractTexts (prompt : jsstring) : M ExtractionResult :=
  try_catch
    (response ← invokeWithRetry extractionLLM prompt (retryCount config);
     parseExtractionResponse response)
    (fun error =>
       throw (ThrownError {| message := msg_extract_failed ++ errorMessage error |})).

(** [testConnection()]; the [console.warn] of the [catch] branch is not
    modelled. *)
Definition testConnection (w : World) : bool * World :=
  match invokeWithRetry extractionLLM testPrompt 1 w with
  | (inr response, w') =>
      (includes response marker_connected || includes response (lit "success"), w')
  | (inl _, w') => (false, w')
  end.

End Client.

(** A runtime for the examples: a response that is not fenced and parses
    to one extracted text and the response itself as transformed code. *)
#[export] Instance echo_extraction : ExtractionRuntime := {|
  json_extraction := fun jsonStr => inr (Some [(lit "__P1__", lit "A")], Some jsonStr)
|}.

(** A provider that answers every invocation with the empty string, and
    one that rejects its first two invocations. *)
Definition answers_nothing : LanguageModel := fun _ _ => inr [].

Definition fails_twice : LanguageModel :=
  fun n _ => match n with
             | O | S O => inl (ThrownValue (lit "503"))
             | _ => inr (lit "ok")
             end.

Definition five_texts : list (jsstring * jsstring) :=
  [(lit "a", lit "A"); (lit "b", lit "B"); (lit "c", lit "C"); (lit "d", lit "D");
   (lit "e", lit "E")].

(** A runtime whose responses never parse. *)
Definition broken_json : Runtime := {|
  fenced_json := fun _ => None;
  json_translations := fun _ => inl (ThrownError {| message := lit "Unexpected token" |});
  compileTranslationTemplate := fun texts _ _ => inr (mjoin (fst <$> texts))
|}.

(** The warning [batchTranslateTexts] writes for a batch whose call
    failed on [new TemplateManager()]. *)
Definition reference_warning (e : Event) : Prop :=
  exists batch,
    e = Warned (BatchWarning batch (ThrownError {| message := msg_not_defined |})).

(** Why a parsed response is refused, if it is: the message of what
    [JSON.parse] threw, or the missing field. *)
Definition parse_failure (parsed : Thrown + option (gmap jsstring jsstring))
  : option jsstring :=
  match parsed with
  | inl error => Some (errorMessage error)
  | inr None => Some msg_missing_field
  | inr (Some _) => None
  end.

Section Facts.
Context `{Runtime} `{ExtractionRuntime}.

(** *** invokeWithRetry, whatever the provider does *)

Lemma retry_loop_invocations llm prompt maxRetries trips attempt lastError w :
  (invocations w
   <= invocations (retry_loop llm prompt maxRetries trips attempt lastError w).2
   <= invocations w + trips)%nat.
Proof.
  revert attempt lastError w.
  induction trips as [| trips IH]; intros attempt lastError w; [simpl; lia |].
  cbn [retry_loop]. destruct (llm (invocations w) prompt) as [error | content].
  - match goal with
    | |- context [retry_loop _ _ _ trips ?a ?e ?w2] => specialize (IH a e w2)
    end.
    destruct (attempt <? maxRetries); cbn [log invocations] in IH; lia.
  - simpl. lia.
Qed.

(** X12.  Whatever the provider answers or rejects with, one call of
    [invokeWithRetry] invokes it at most [maxRetries + 1] times (not at
    all when [maxRetries] is negative). *)
Theorem invokeWithRetry_invocations_bounded llm prompt maxRetries w :
  (invocations w
   <= invocations (invokeWithRetry llm prompt maxRetries w).2
   <= invocations w + Z.to_nat (maxRetries + 1))%nat.
Proof. apply retry_loop_invocations. Qed.

Lemma failed_rounds_shift prompt maxRetries (failure : nat -> Thrown) rounds n attempt :
  failed_rounds prompt maxRetries (fun j => failure (S j)) rounds n attempt
  = failed_rounds prompt maxRetries failure rounds (S n) attempt.
Proof.
  revert n attempt. induction rounds as [| rounds IH]; intros n attempt; [reflexivity |].
  cbn [failed_rounds]. now rewrite IH.
Qed.

Lemma retry_loop_recovers llm prompt maxRetries failure content (k : nat) :
  forall trips attempt lastError w,
  (k < trips)%nat ->
  attempt + Z.of_nat k <= maxRetries ->
  (forall j, (j < k)%nat -> llm (invocations w + j)%nat prompt = inl (failure j)) ->
  llm (invocations w + k)%nat prompt = inr content ->
  retry_loop llm prompt maxRetries trips attempt lastError w
  = (inr content,
     {| invocations := invocations w + S k;
        trace := trace w
                 ++ failed_rounds prompt maxRetries failure k 0 attempt
                 ++ [Invoked prompt] |}).
Proof.
  revert failure. induction k as [| k IH];
    intros failure trips attempt lastError w Htrips Hatt Hfail Hok;
    (destruct trips as [| trips]; [lia |]).
  - cbn [retry_loop]. replace (invocations w + 0)%nat with (invocations w) in Hok by lia.
    rewrite Hok. simpl. do 2 f_equal. lia.
  - assert (Hfirst : llm (invocations w) prompt = inl (failure O)).
    { rewrite <- (Hfail O) by lia. f_equal. lia. }
    rewrite (retry_loop_failed_attempt _ _ _ _ _ _ _ _ Hfirst).
    destruct (Z.ltb_spec attempt maxRetries); [| lia].
    rewrite (IH (fun j => failure (S j))); cbn [log invocations trace]; try lia.
    + rewrite message_toError. f_equal. f_equal; [lia |].
      cbn [failed_rounds failed_round]. rewrite failed_rounds_shift.
      rewrite <- !app_assoc. reflexivity.
    + intros j Hj. rewrite <- (Hfail (S j)) by lia. f_equal. lia.
    + rewrite <- Hok. f_equal. lia.
Qed.

(** X13.  When the provider rejects [k] invocations and answers the next
    one, with [k <= maxRetries], [invokeWithRetry] resolves with that
    answer after [k + 1] invocations, having slept [1000 * 2^attempt]
    milliseconds after each of the [k] failed attempts. *)
Theorem invokeWithRetry_recovers llm prompt maxRetries failure content (k : nat) w :
  Z.of_nat k <= maxRetries ->
  (forall j, (j < k)%nat -> llm (invocations w + j)%nat prompt = inl (failure j)) ->
  llm (invocations w + k)%nat prompt = inr content ->
  exists events,
    invokeWithRetry llm prompt maxRetries w
    = (inr content,
       {| invocations := invocations w + S k; trace := trace w ++ events |})
    /\ invoked events = S k
    /\ delays events = (fun attempt => 1000 * 2 ^ attempt) <$> seqZ 0 (Z.of_nat k).
Proof.
  intros Hk Hfail Hok. eexists. split; [| split].
  - unfold invokeWithRetry.
    apply (retry_loop_recovers llm prompt maxRetries failure content k); try lia; auto.
  - rewrite invoked_app, invoked_failed_rounds. cbn. lia.
  - rewrite delays_app, delays_failed_rounds. cbn. now rewrite app_nil_r.
Qed.


(** *** A response that does not parse *)

Lemma translateTexts_answered (config : LLMConfig) (translationLLM : LanguageModel)
    (prompt response : jsstring) (w : World) :
  0 <= retryCount config ->
  translationLLM (invocations w) prompt = inr response ->
  translateTexts config translationLLM prompt w
  = (match json_translations (default response (fenced_json response)) with
     | inl error =>
         inl (ThrownError
                {| message := msg_translate_failed ++ msg_parse_failed
                              ++ errorMessage error |})
     | inr None =>
         inl (ThrownError
                {| message := msg_translate_failed ++ msg_parse_failed
                              ++ msg_missing_field |})
     | inr (Some translations) => inr translations
     end,
     {| invocations := S (invocations w); trace := trace w ++ [Invoked prompt] |}).
Proof.
  intros Hretry Hok. unfold translateTexts, try_catch, mbind, M_bind.
  rewrite (invokeWithRetry_first_success _ _ _ _ _ Hretry Hok).
  unfold parseTranslationResponse, try_catch, mbind, M_bind, lift, throw.
  destruct (json_translations (default response (fenced_json response)))
    as [error | [translations |]]; reflexivity.
Qed.

(** X14.  A response that does not parse, or that lacks the [translations]
    field, is not asked for again: when the provider answers at once,
    [translateTexts] rejects after that single invocation, without a
    pause, and the message carries both prefixes. *)
Theorem translateTexts_parse_failure_not_retried (config : LLMConfig)
    (translationLLM : LanguageModel) (prompt response : jsstring) (w : World)
    (reason : jsstring) :
  0 <= retryCount config ->
  translationLLM (invocations w) prompt = inr response ->
  parse_failure (json_translations (default response (fenced_json response)))
  = Some reason ->
  translateTexts config translationLLM prompt w
  = (inl (ThrownError
            {| message := msg_translate_failed ++ msg_parse_failed ++ reason |}),
     {| invocations := S (invocations w); trace := trace w ++ [Invoked prompt] |}).
Proof.
  intros Hretry Hok Hparse. rewrite (translateTexts_answered _ _ _ _ _ Hretry Hok).
  destruct (json_translations (default response (fenced_json response)))
    as [error | [translations |]]; simpl in Hparse; congruence.
Qed.

(** X15.  [extractTexts] wants a transformed code that is truthy: a
    response that parses, with its extracted texts, but whose
    [transformedCode] is the empty string is rejected as lacking a field,
    after the single invocation that produced it. *)
Theorem extractTexts_rejects_empty_code (config : LLMConfig)
    (extractionLLM : LanguageModel) (prompt response : jsstring) (w : World)
    (texts : option (list (jsstring * jsstring))) :
  0 <= retryCount config ->
  extractionLLM (invocations w) prompt = inr response ->
  json_extraction (default response (fenced_json response)) = inr (texts, Some []) ->
  extractTexts config extractionLLM prompt w
  = (inl (ThrownError
            {| message := msg_extract_failed ++ msg_parse_extraction_failed
                          ++ msg_missing_fields |}),
     {| invocations := S (invocations w); trace := trace w ++ [Invoked prompt] |}).
Proof.
  intros Hretry Hok Hparse. unfold extractTexts, try_catch, mbind, M_bind.
  rewrite (invokeWithRetry_first_success _ _ _ _ _ Hretry Hok).
  unfold parseExtractionResponse, try_catch, mbind, M_bind, lift, throw.
  rewrite Hparse. destruct texts; reflexivity.
Qed.

(** *** testConnection *)

(** X16.  [testConnection] invokes the provider at most twice, whatever it
    answers; when both invocations reject, it returns [false] after one
    pause of 1000 milliseconds. *)
Theorem testConnection_two_attempts (extractionLLM : LanguageModel) (w : World) :
  (invocations (testConnection extractionLLM w).2 <= invocations w + 2)%nat
  /\ (forall error1 error2,
        extractionLLM (invocations w) testPrompt = inl error1 ->
        extractionLLM (S (invocations w)) testPrompt = inl error2 ->
        (testConnection extractionLLM w).1 = false
        /\ invocations (testConnection extractionLLM w).2 = (invocations w + 2)%nat
        /\ delays (drop (length (trace w)) (trace (testConnection extractionLLM w).2))
           = [1000]).
Proof.
  split.
  - unfold testConnection.
    pose proof (retry_loop_invocations extractionLLM testPrompt 1
                  (Z.to_nat (1 + 1)) 0 None w) as Hb.
    fold (invokeWithRetry extractionLLM testPrompt 1 w) in Hb.
    destruct (invokeWithRetry extractionLLM testPrompt 1 w) as [[error | response] w'];
      simpl in *; lia.
  - intros error1 error2 H1 H2. unfold testConnection, invokeWithRetry.
    change (Z.to_nat (1 + 1)) with 2%nat.
    cbn [retry_loop]. rewrite H1. change (0 <? 1) with true. cbv iota.
    cbn [log invocations trace]. rewrite H2.
    change (0 + 1 <? 1) with false. cbn.
    split; [reflexivity |]. split; [lia |].
    rewrite <- !app_assoc, drop_app_length. reflexivity.
Qed.

(** *** batchTranslateTexts *)

Section Batches.
Variable config : LLMConfig.
Variable translationLLM : LanguageModel.
Variable texts : list (jsstring * jsstring).

Lemma batch_round_keys (i : Z) (translations : gmap jsstring jsstring) (w : World) :
  0 <= i -> 0 <= translation_batchSize config ->
  batch_round config translationLLM texts i translations w
  = let batchKeys := take (Z.to_nat (translation_batchSize config))
                       (drop (Z.to_nat i) (object_keys texts)) in
    match translateBatch config translationLLM
            ((fun key => (key, object_get texts key)) <$> batchKeys) w with
    | (inr batchTranslations, w') => (batchTranslations ∪ translations, w')
    | (inl error, w') =>
        (use_original texts batchKeys translations,
         log (Warned (BatchWarning (i / translation_batchSize config + 1) error)) w')
    end.
Proof.
  intros Hi Hn. unfold batch_round. now rewrite ListFacts.slice_take_drop.
Qed.

(** **** Every batch falls back *)

Lemma use_original_app (keys1 keys2 : list jsstring)
    (translations : gmap jsstring jsstring) :
  use_original texts (keys1 ++ keys2) translations
  = use_original texts keys2 (use_original texts keys1 translations).
Proof. unfold use_original. apply foldl_app. Qed.

(** The loop with a positive batch size: every round takes the [catch]
    branch, which writes the original texts of its batch and one
    warning; nothing else happens to the world. *)
Lemma batch_loop_falls_back (fuel : nat) :
  1 <= translation_batchSize config ->
  forall i translations w,
  0 <= i ->
  Z.of_nat (length texts) - i <= Z.of_nat fuel ->
  exists events,
    batch_loop config translationLLM fuel texts i translations w
    = Some (use_original texts (drop (Z.to_nat i) (object_keys texts)) translations,
            {| invocations := invocations w; trace := trace w ++ events |})
    /\ Forall reference_warning events
    /\ Z.of_nat (length events)
       = if i <? Z.of_nat (length texts)
         then (Z.of_nat (length texts) - i + translation_batchSize config - 1)
              / translation_batchSize config
         else 0.
Proof.
  intros Hsize.
  assert (Hlen : length (object_keys texts) = length texts)
    by (unfold object_keys; apply length_fmap).
  assert (Hdone : forall i translations w,
            Z.of_nat (length texts) <= i ->
            exists events,
              Some (translations, w)
              = Some (use_original texts (drop (Z.to_nat i) (object_keys texts))
                        translations,
                      {| invocations := invocations w; trace := trace w ++ events |})
              /\ Forall reference_warning events
              /\ Z.of_nat (length events) = 0).
  { intros i translations w Hi. exists []. rewrite drop_ge, app_nil_r by lia.
    destruct w. split; [reflexivity |]. split; [constructor | reflexivity]. }
  induction fuel as [| fuel IH]; intros i translations w Hi Hfuel; cbn [batch_loop];
    rewrite Hlen; destruct (Z.ltb_spec i (Z.of_nat (length texts))); try lia;
    try (now apply Hdone).
  rewrite batch_round_keys by lia. cbv zeta.
  rewrite BatchFacts.translateBatch_rejects.
  edestruct (IH (i + translation_batchSize config)) as (events & -> & Hall & Hcount);
    [lia | lia |].
  eexists (_ :: events). split; [| split].
  - cbn [log invocations trace]. rewrite <- app_assoc. do 2 f_equal.
    rewrite <- use_original_app. f_equal.
    replace (Z.to_nat (i + translation_batchSize config))
      with (Z.to_nat i + Z.to_nat (translation_batchSize config))%nat by lia.
    rewrite <- drop_drop. apply take_drop.
  - constructor; [eexists; reflexivity | exact Hall].
  - cbn [length]. rewrite Nat2Z.inj_succ, Hcount.
    set (n := Z.of_nat (length texts)) in *.
    set (b := translation_batchSize config) in *.
    destruct (Z.ltb_spec (i + b) n).
    + replace (n - i + b - 1) with ((n - (i + b) + b - 1) + 1 * b) by lia.
      rewrite Z.div_add by lia. lia.
    + assert ((n - i + b - 1) / b = 1); [| lia].
      symmetry. apply (Z.div_unique_pos _ _ 1 (n - i - 1)); lia.
Qed.

Lemma lookup_list_to_map_object_get (key : jsstring) :
  (list_to_map texts : gmap jsstring jsstring) !! key
  = if decide (key ∈ object_keys texts) then Some (object_get texts key) else None.
Proof.
  unfold object_keys. induction texts as [| [k v] rest IH].
  - change (list_to_map [] : gmap jsstring jsstring) with (∅ : gmap jsstring jsstring).
    rewrite lookup_empty. destruct (decide (key ∈ [].*1)) as [Hin | _]; [| reflexivity].
    inversion Hin.
  - rewrite list_to_map_cons. cbn [fmap list_fmap fst object_get].
    destruct (decide (k = key)) as [-> | Hne].
    + rewrite lookup_insert_eq.
      destruct (decide (key ∈ key :: rest.*1)) as [_ | Hout]; [reflexivity |].
      exfalso. apply Hout. left.
    + rewrite lookup_insert_ne by exact Hne. rewrite IH.
      destruct (decide (key ∈ rest.*1)) as [Hin | Hout];
        destruct (decide (key ∈ k :: rest.*1)) as [Hin' | Hout'];
        try reflexivity.
      * exfalso. apply Hout'. now right.
      * apply elem_of_cons in Hin' as [-> | Hin']; contradiction.
Qed.

Lemma use_original_all :
  use_original texts (drop (Z.to_nat 0) (object_keys texts)) ∅ = list_to_map texts.
Proof.
  change (Z.to_nat 0) with 0%nat. rewrite drop_0.
  apply map_eq. intros key. rewrite use_original_lookup, lookup_list_to_map_object_get.
  case_decide; [reflexivity | apply lookup_empty].
Qed.

(** X17.  With the provider down (every invocation rejects),
    [batchTranslateTexts] still returns: the mapping it returns is the
    texts themselves, each key with its original text.  The translation
    phase then counts every text as translated. *)
Theorem batchTranslateTexts_provider_down (w : World) :
  1 <= translation_batchSize config ->
  (forall n p, exists error, translationLLM n p = inl error) ->
  exists w',
    batchTranslateTexts config translationLLM texts w = Some (list_to_map texts, w')
    /\ (forall writeTranslationFile,
          NoDup (object_keys texts) ->
          writeTranslationFile (list_to_map texts) = true ->
          Processor.processTranslation config translationLLM writeTranslationFile
            texts w
          = Some (Z.of_nat (length texts), w')).
Proof.
  intros Hsize Hdown. unfold batchTranslateTexts.
  destruct (batch_loop_falls_back (length texts) Hsize 0 ∅ w)
    as (events & Hrun & _); [lia | lia |].
  rewrite use_original_all in Hrun. eexists. split; [exact Hrun |].
  intros writeTranslationFile Hnd Hwrite.
  unfold Processor.processTranslation, batchTranslateTexts. rewrite Hrun. simpl.
  rewrite Hwrite. do 3 f_equal.
  rewrite <- length_map_to_list.
  apply Permutation_length, map_to_list_to_map. exact Hnd.
Qed.

(** X18.  As the client is written, batch translation never reaches the
    provider.  With a positive batch size, whatever the provider and the
    runtime, [batchTranslateTexts] returns the texts themselves, makes no
    provider invocation and no pause, and writes one warning per batch,
    [ceil(n / batchSize)] of them for [n] texts, each carrying the
    [ReferenceError] of [new TemplateManager()]. *)
Theorem batchTranslateTexts_never_invokes (w : World) :
  1 <= translation_batchSize config ->
  exists events,
    batchTranslateTexts config translationLLM texts w
    = Some (list_to_map texts,
            {| invocations := invocations w; trace := trace w ++ events |})
    /\ Forall reference_warning events
    /\ Z.of_nat (length events)
       = (Z.of_nat (length texts) + translation_batchSize config - 1)
         / translation_batchSize config.
Proof.
  intros Hsize. unfold batchTranslateTexts.
  destruct (batch_loop_falls_back (length texts) Hsize 0 ∅ w)
    as (events & Hrun & Hall & Hcount); [lia | lia |].
  rewrite use_original_all in Hrun. exists events.
  split; [exact Hrun |]. split; [exact Hall |]. rewrite Hcount.
  destruct (Z.ltb_spec 0 (Z.of_nat (length texts))).
  - do 2 f_equal. lia.
  - replace (Z.of_nat (length texts)) with 0 by lia.
    rewrite Z.div_small by lia. reflexivity.
Qed.

(** **** A batch size that is not positive *)

Lemma batch_loop_stuck (fuel : nat) :
  translation_batchSize config <= 0 ->
  texts <> [] ->
  forall i translations w,
  i <= 0 ->
  batch_loop config translationLLM fuel texts i translations w = None.
Proof.
  intros Hsize Hne.
  assert (Hlen : 0 < Z.of_nat (length (object_keys texts))).
  { unfold object_keys. rewrite length_fmap. destruct texts; [congruence | simpl; lia]. }
  induction fuel as [| fuel IH]; intros i translations w Hi; cbn [batch_loop];
    (destruct (Z.ltb_spec i (Z.of_nat (length (object_keys texts)))); [| lia]).
  - reflexivity.
  - destruct (batch_round config translationLLM texts i translations w).
    apply IH. lia.
Qed.

(** X20.  With a batch size of zero or less and at least one text the loop
    of [batchTranslateTexts] never ends: however many rounds it is given,
    it is still running. *)
Theorem batchTranslateTexts_never_returns (fuel : nat) (w : World) :
  translation_batchSize config <= 0 ->
  texts <> [] ->
  batch_loop config translationLLM fuel texts 0 ∅ w = None.
Proof. intros Hsize Hne. apply batch_loop_stuck; [assumption | assumption | lia]. Qed.

End Batches.

End Facts.

Lemma invokeWithRetry_recovers_witness :
  Z.of_nat 2 <= 3
  /\ (forall j, (j < 2)%nat ->
        fails_twice (invocations new_world + j)%nat (lit "translate")
        = inl (ThrownValue (lit "503")))
  /\ fails_twice (invocations new_world + 2)%nat (lit "translate") = inr (lit "ok")
  /\ exists events,
       invokeWithRetry fails_twice (lit "translate") 3 new_world
       = (inr (lit "ok"), {| invocations := 3; trace := events |})
       /\ invoked events = 3%nat
       /\ delays events = [1000; 2000].
Proof.
  assert (Hk : Z.of_nat 2 <= 3) by (simpl; lia).
  assert (Hfail : forall j, (j < 2)%nat ->
            fails_twice (invocations new_world + j)%nat (lit "translate")
            = inl (ThrownValue (lit "503"))).
  { intros [| [| j]] Hj; [reflexivity | reflexivity | lia]. }
  split; [exact Hk |]. split; [exact Hfail |]. split; [reflexivity |].
  exact (invokeWithRetry_recovers fails_twice (lit "translate") 3
           (fun _ => ThrownValue (lit "503")) (lit "ok") 2 new_world Hk Hfail eq_refl).
Defined.

Lemma translateTexts_parse_failure_not_retried_witness :
  0 <= retryCount {| retryCount := 2; translation_batchSize := 20 |}
  /\ @translateTexts broken_json {| retryCount := 2; translation_batchSize := 20 |}
       answers_nothing (lit "translate") new_world
     = (inl (ThrownError
               {| message := msg_translate_failed ++ msg_parse_failed
                             ++ lit "Unexpected token" |}),
        {| invocations := 1; trace := [Invoked (lit "translate")] |}).
Proof.
  assert (Hretry : 0 <= retryCount {| retryCount := 2; translation_batchSize := 20 |})
    by (simpl; lia).
  split; [exact Hretry |].
  exact (@translateTexts_parse_failure_not_retried broken_json
           {| retryCount := 2; translation_batchSize := 20 |} answers_nothing
           (lit "translate") [] new_world (lit "Unexpected token")
           Hretry eq_refl eq_refl).
Defined.

Lemma extractTexts_rejects_empty_code_witness :
  0 <= retryCount {| retryCount := 2; translation_batchSize := 20 |}
  /\ extractTexts {| retryCount := 2; translation_batchSize := 20 |}
       answers_nothing (lit "extract") new_world
     = (inl (ThrownError
               {| message := msg_extract_failed ++ msg_parse_extraction_failed
                             ++ msg_missing_fields |}),
        {| invocations := 1; trace := [Invoked (lit "extract")] |}).
Proof.
  assert (Hretry : 0 <= retryCount {| retryCount := 2; translation_batchSize := 20 |})
    by (simpl; lia).
  split; [exact Hretry |].
  exact (extractTexts_rejects_empty_code
           {| retryCount := 2; translation_batchSize := 20 |} answers_nothing
           (lit "extract") [] new_world (Some [(lit "__P1__", lit "A")])
           Hretry eq_refl eq_refl).
Defined.

Lemma testConnection_two_attempts_witness :
  (testConnection always_failing new_world).1 = false
  /\ invocations (testConnection always_failing new_world).2 = 2%nat.
Proof.
  destruct (proj2 (testConnection_two_attempts always_failing new_world) _ _
              eq_refl eq_refl) as (Hfalse & Hcount & _).
  split; [exact Hfalse | exact Hcount].
Defined.

Lemma batchTranslateTexts_provider_down_witness :
  1 <= translation_batchSize {| retryCount := 1; translation_batchSize := 1 |}
  /\ (forall n p, exists error, always_failing n p = inl error)
  /\ exists w',
       batchTranslateTexts {| retryCount := 1; translation_batchSize := 1 |}
         always_failing two_texts new_world
       = Some (list_to_map two_texts, w').
Proof.
  assert (Hsize : 1 <= translation_batchSize
                         {| retryCount := 1; translation_batchSize := 1 |})
    by (simpl; lia).
  assert (Hdown : forall n p, exists error, always_failing n p = inl error)
    by (intros n p; eexists; reflexivity).
  split; [exact Hsize |]. split; [exact Hdown |].
  destruct (batchTranslateTexts_provider_down
              {| retryCount := 1; translation_batchSize := 1 |} always_failing
              two_texts new_world Hsize Hdown) as (w' & Hrun & _).
  exists w'. exact Hrun.
Defined.

Lemma batchTranslateTexts_never_invokes_witness :
  1 <= translation_batchSize {| retryCount := 1; translation_batchSize := 2 |}
  /\ exists events,
       batchTranslateTexts {| retryCount := 1; translation_batchSize := 2 |}
         answers_nothing five_texts new_world
       = Some (list_to_map five_texts, {| invocations := 0; trace := events |})
       /\ Forall reference_warning events
       /\ Z.of_nat (length events) = 3.
Proof.
  assert (Hsize : 1 <= translation_batchSize
                         {| retryCount := 1; translation_batchSize := 2 |})
    by (simpl; lia).
  split; [exact Hsize |].
  exact (batchTranslateTexts_never_invokes
           {| retryCount := 1; translation_batchSize := 2 |} answers_nothing
           five_texts new_world Hsize).
Defined.

Lemma batchTranslateTexts_never_returns_witness :
  translation_batchSize {| retryCount := 1; translation_batchSize := 0 |} <= 0
  /\ two_texts <> []
  /\ batch_loop {| retryCount := 1; translation_batchSize := 0 |} answers_nothing
       1000 two_texts 0 ∅ new_world = None.
Proof.
  assert (Hsize : translation_batchSize
                    {| retryCount := 1; translation_batchSize := 0 |} <= 0)
    by (simpl; lia).
  assert (Hne : two_texts <> []) by discriminate.
  split; [exact Hsize |]. split; [exact Hne |].
  exact (batchTranslateTexts_never_returns
           {| retryCount := 1; translation_batchSize := 0 |} answers_nothing
           two_texts 1000 new_world Hsize Hne).
Defined.

End ClientMore.

(** ** CacheManager: the rest of the class *)

Module CacheMore.

Import Cache CacheFacts.

(** [createHash('sha256').update(content).digest('hex')] *)
Class Sha256 := { sha256_hex : jsstring -> jsstring }.

Inductive CacheType := extraction | translation.

Definition type_name (type : CacheType) : jsstring :=
  match type with
  | extraction => lit "extraction"
  | translation => lit "translation"
  end.

Definition generateCacheKey `{Sha256} (content : jsstring) (type : CacheType)
  : jsstring :=
  type_name type ++ lit ":" ++ sha256_hex content.

(** [TranslationResult] *)
Record TranslationResult := { translations : gmap jsstring jsstring }.

(** What the typed methods put in the cache. *)
Inductive CachedData :=
| ExtractionData (result : ClientMore.ExtractionResult)
| TranslationData (result : TranslationResult).

Section Manager.
Context {T : Type}.

(** [delete(key)]; [Map.prototype.delete] returns whether the key was
    there.  The deferred [saveToDisk] is left out, as in [set]. *)
Definition delete (key : jsstring) (c : CacheManager T) : bool * CacheManager T :=
  if negb (enabled (config c)) then (false, c)
  else (bool_decide (is_Some (map_get key (memoryCache c))),
        {| config := config c; memoryCache := map_delete key (memoryCache c) |}).

(** [cleanup()], called at time [now]. *)
Definition cleanup (now : Z) (c : CacheManager T) : option (CacheManager T) :=
  enforceSizeLimit (cleanExpired now c).

End Manager.

Section Typed.
Context `{Sha256}.
Variable content_hash : CachedData -> jsstring.

Definition cacheExtractionResult (now : Z) (prompt : jsstring)
    (result : ClientMore.ExtractionResult) (ttl : option Z)
    (c : CacheManager CachedData) : option (CacheManager CachedData) :=
  set content_hash now (generateCacheKey prompt extraction) (ExtractionData result) ttl c.

(** [return this.get<ExtractionResult>(key)]: the type argument checks
    nothing, the data comes back as it was stored. *)
Definition getExtractionResult (now : Z) (prompt : jsstring)
    (c : CacheManager CachedData) : option CachedData * CacheManager CachedData :=
  get now (generateCacheKey prompt extraction) c.

Definition cacheTranslationResult (now : Z) (prompt : jsstring)
    (result : TranslationResult) (ttl : option Z)
    (c : CacheManager CachedData) : option (CacheManager CachedData) :=
  set content_hash now (generateCacheKey prompt translation) (TranslationData result) ttl c.

Definition getTranslationResult (now : Z) (prompt : jsstring)
    (c : CacheManager CachedData) : option CachedData * CacheManager CachedData :=
  get now (generateCacheKey prompt translation) c.

(** Every entry under an extraction key holds an extraction result, and
    every entry under a translation key a translation result. *)
Definition well_typed (c : CacheManager CachedData) : Prop :=
  forall prompt type entry,
    (generateCacheKey prompt type, entry) ∈ memoryCache c ->
    match type, data entry with
    | extraction, ExtractionData _ => True
    | translation, TranslationData _ => True
    | _, _ => False
    end.

End Typed.

(** A digest for the examples. *)
Definition demo_sha256 : Sha256 := {| sha256_hex := fun content => content |}.

Section Facts.
Context {T : Type}.
Variable content_hash : T -> jsstring.
Implicit Types (m : list (jsstring * CacheEntry T)) (c : CacheManager T).
Implicit Types (key k : jsstring) (e entry : CacheEntry T).

(** *** The map *)

Lemma map_set_fresh key entry m :
  key ∉ m.*1 -> map_set key entry m = m ++ [(key, entry)].
Proof.
  induction m as [| [k e] m IH]; simpl; intros Hfresh; [reflexivity |].
  apply not_elem_of_cons in Hfresh as [Hne Hfresh].
  destruct (decide (k = key)); [congruence |]. now rewrite IH.
Qed.

Lemma map_set_length_present key entry m :
  key ∈ m.*1 -> length (map_set key entry m) = length m.
Proof.
  induction m as [| [k e] m IH]; simpl; intros Hin; [inversion Hin |].
  destruct (decide (k = key)); [reflexivity |]. simpl. f_equal. apply IH.
  apply elem_of_cons in Hin as [Heq | Hin]; [congruence | exact Hin].
Qed.

Lemma map_set_elem_of key entry m (p : jsstring * CacheEntry T) :
  p ∈ map_set key entry m -> p = (key, entry) \/ p ∈ m.
Proof.
  induction m as [| [k e] m IH]; simpl.
  - intros Hin. apply list_elem_of_singleton in Hin. auto.
  - destruct (decide (k = key)); rewrite !elem_of_cons; intros [Hp | Hp]; auto.
    destruct (IH Hp); auto.
Qed.

Lemma map_get_is_Some key m : is_Some (map_get key m) <-> key ∈ m.*1.
Proof.
  induction m as [| [k e] m IH]; simpl.
  - split; [intros [e He]; discriminate | intros Hin; inversion Hin].
  - rewrite elem_of_cons. destruct (decide (k = key)) as [-> | Hne].
    + split; [auto | eauto].
    + rewrite IH. split; [auto | intros [Heq | Hin]; [congruence | exact Hin]].
Qed.

Lemma map_get_filter_keys k (ks : list jsstring) m :
  k ∉ ks -> map_get k (filter (fun p => p.1 ∉ ks) m) = map_get k m.
Proof.
  intros Hk. induction m as [| [k' e] m IH]; [reflexivity |].
  rewrite filter_cons. simpl. destruct (decide (k' ∉ ks)) as [Hout | Hin]; simpl.
  - now rewrite IH.
  - rewrite IH. case_decide; [| reflexivity]. subst. contradiction.
Qed.

Lemma map_get_filter_NoDup k (P : jsstring * CacheEntry T -> Prop)
    `{!forall p, Decision (P p)} m :
  NoDup m.*1 ->
  map_get k (filter P m)
  = match map_get k m with
    | Some e => if decide (P (k, e)) then Some e else None
    | None => None
    end.
Proof.
  induction m as [| [k' e] m IH]; intros Hnd; [reflexivity |].
  apply NoDup_cons in Hnd as [Hk' Hnd]. rewrite filter_cons. simpl.
  destruct (decide (k' = k)) as [-> | Hne].
  - destruct (decide (P (k, e))) as [HP | HP]; simpl.
    + case_decide; [reflexivity | contradiction].
    + rewrite (IH Hnd).
      destruct (map_get k m) as [e' |] eqn:Hget; [| reflexivity].
      exfalso. apply Hk'. apply map_get_is_Some. eauto.
  - destruct (decide (P (k', e))); simpl; [case_decide; [contradiction |] |];
      apply (IH Hnd).
Qed.

Lemma delete_oldest_lookup trips i entries m m' k :
  delete_oldest trips i entries m = Some m' ->
  map_get k m' = map_get k m \/ map_get k m' = None.
Proof.
  revert i m. induction trips as [| trips IH]; intros i m; simpl.
  - intros [= <-]. auto.
  - destruct (entries !! i) as [[key e] |]; [| discriminate].
    intros Hrest. apply IH in Hrest as [Hsame | Hnone]; [| auto].
    rewrite Hsame. destruct (decide (k = key)) as [-> | Hne].
    + right. apply map_get_delete.
    + left. now apply map_get_delete_ne.
Qed.

Lemma enforceSizeLimit_lookup c c' k :
  enforceSizeLimit c = Some c' ->
  config c' = config c
  /\ (map_get k (memoryCache c') = map_get k (memoryCache c)
      \/ map_get k (memoryCache c') = None).
Proof.
  unfold enforceSizeLimit.
  destruct (Z.of_nat (length (memoryCache c)) <=? maxEntries (config c)).
  - intros [= <-]. auto.
  - destruct (delete_oldest _ 0 _ (memoryCache c)) as [m' |] eqn:Hdel; [| discriminate].
    intros [= <-]. simpl. split; [reflexivity |]. eapply delete_oldest_lookup, Hdel.
Qed.

Lemma delete_oldest_elem_of trips i entries m m' (p : jsstring * CacheEntry T) :
  delete_oldest trips i entries m = Some m' -> p ∈ m' -> p ∈ m.
Proof.
  revert i m. induction trips as [| trips IH]; intros i m; simpl.
  - intros [= <-]. auto.
  - destruct (entries !! i) as [[key e] |]; [| discriminate].
    intros Hrest Hp. apply (IH _ _ Hrest) in Hp.
    unfold map_delete in Hp. now apply list_elem_of_filter in Hp as [_ Hp].
Qed.

Lemma enforceSizeLimit_elem_of c c' (p : jsstring * CacheEntry T) :
  enforceSizeLimit c = Some c' -> p ∈ memoryCache c' -> p ∈ memoryCache c.
Proof.
  unfold enforceSizeLimit.
  destruct (Z.of_nat (length (memoryCache c)) <=? maxEntries (config c));
    [intros [= <-]; auto |].
  destruct (delete_oldest _ 0 _ (memoryCache c)) as [m' |] eqn:Hdel; [| discriminate].
  intros [= <-]. simpl. eapply delete_oldest_elem_of, Hdel.
Qed.

(** *** The sort *)

Lemma sort_insert_snoc (p q : jsstring * CacheEntry T) (sorted : list (jsstring * CacheEntry T)) :
  timestamp q.2 <= timestamp p.2 ->
  sort_insert q (sorted ++ [p]) = sort_insert q sorted ++ [p].
Proof.
  intros Hle. induction sorted as [| r sorted IH]; simpl.
  - destruct (Z.ltb_spec (timestamp p.2) (timestamp q.2)); [lia | reflexivity].
  - destruct (timestamp r.2 <? timestamp q.2); [now rewrite IH | reflexivity].
Qed.

Lemma sort_by_timestamp_snoc (p : jsstring * CacheEntry T) m :
  Forall (fun q => timestamp q.2 <= timestamp p.2) m ->
  sort_by_timestamp (m ++ [p]) = sort_by_timestamp m ++ [p].
Proof.
  unfold sort_by_timestamp. induction 1 as [| q m Hq Hm IH]; [reflexivity |].
  simpl. rewrite IH. now apply sort_insert_snoc.
Qed.

(** *** A round trip *)

(** X21.  What is stored comes back until it expires.  On an enabled cache
    that holds no more than its limit of at least one entry, none of them
    created after [now], [set] at time [now] completes, and [get] then
    returns the data at every time up to [now + ttl] (the default time to
    live when none, or zero, was given) and nothing after: when the cache
    is full, the entry that makes room is another one. *)
Theorem set_then_get c now key d ttl :
  enabled (config c) = true ->
  1 <= maxEntries (config c) ->
  Z.of_nat (length (memoryCache c)) <= maxEntries (config c) ->
  NoDup (memoryCache c).*1 ->
  Forall (fun p => timestamp p.2 <= now) (memoryCache c) ->
  exists c',
    set content_hash now key d ttl c = Some c'
    /\ forall now',
         (get now' key c').1
         = if now' >? now + ttl_or_default ttl c then None else Some d.
Proof.
  intros Hon Hmax Hsize Hnd Hts.
  rewrite (set_enabled content_hash c now key d ttl Hon).
  set (entry := {| data := d; timestamp := now;
                   expiresAt := now + ttl_or_default ttl c;
                   hash := content_hash d |}).
  set (c1 := {| config := config c;
                memoryCache := map_set key entry (memoryCache c) |}).
  assert (Hget : forall c' now',
            config c' = config c ->
            map_get key (memoryCache c') = Some entry ->
            (get now' key c').1
            = if now' >? now + ttl_or_default ttl c then None else Some d).
  { intros c' now' Hcfg Hentry. unfold get. rewrite Hcfg, Hon, Hentry. simpl.
    unfold isExpired. simpl. now destruct (now' >? now + ttl_or_default ttl c). }
  destruct (Z.le_gt_cases (Z.of_nat (length (memoryCache c1))) (maxEntries (config c1)))
    as [Hfits | Hfull].
  - exists c1. rewrite (enforceSizeLimit_within c1 Hfits). split; [reflexivity |].
    intros now'. apply Hget; [reflexivity | apply map_get_set].
  - assert (Hfresh : key ∉ (memoryCache c).*1).
    { intros Hin. simpl in Hfull.
      rewrite (map_set_length_present _ entry _ Hin) in Hfull. lia. }
    assert (Hins : memoryCache c1 = memoryCache c ++ [(key, entry)])
      by apply (map_set_fresh _ _ _ Hfresh).
    assert (Hlen : Z.of_nat (length (memoryCache c)) = maxEntries (config c)).
    { rewrite Hins, length_app in Hfull. simpl in Hfull. lia. }
    rewrite (enforceSizeLimit_exceeded c1) by (simpl in *; lia).
    eexists. split; [reflexivity |]. intros now'.
    apply Hget; [reflexivity |]. cbn [memoryCache].
    rewrite map_get_filter_keys; [apply map_get_set |].
    unfold oldest. rewrite Hins, length_app. cbn [length config].
    match goal with
    | |- context [take ?n _] =>
        replace n with 1%nat by (subst c1; cbn [config memoryCache] in *; lia)
    end.
    rewrite sort_by_timestamp_snoc by exact Hts.
    pose proof (sort_by_timestamp_Permutation (memoryCache c)) as Hperm.
    destruct (sort_by_timestamp (memoryCache c)) as [| q sorted] eqn:Hsorted.
    + apply Permutation_length in Hperm. simpl in Hperm. lia.
    + simpl. rewrite list_elem_of_singleton. intros ->. apply Hfresh.
      apply list_elem_of_fmap. exists q. split; [reflexivity |].
      rewrite <- Hperm. left.
Qed.

(** *** What [set] does to the other keys *)

(** X22.  A [set] on one key never gives another key a value, and never
    changes the value it has: after the call, [get] on another key returns
    what it returned before, or nothing (the entry was evicted to make
    room). *)
Theorem set_leaves_other_keys c c' now key d ttl k now' :
  set content_hash now key d ttl c = Some c' ->
  k <> key ->
  (get now' k c').1 = (get now' k c).1 \/ (get now' k c').1 = None.
Proof.
  intros Hset Hk. unfold set in Hset.
  destruct (enabled (config c)) eqn:Hon; simpl in Hset.
  - apply (enforceSizeLimit_lookup _ _ k) in Hset as [Hcfg Hlook].
    cbn [config memoryCache] in Hcfg, Hlook.
    rewrite (map_get_set_ne _ _ _ _ Hk) in Hlook.
    unfold get. rewrite Hcfg, Hon. simpl.
    destruct Hlook as [-> | ->]; [left | right; reflexivity].
    destruct (map_get k (memoryCache c)) as [e |]; [| reflexivity].
    now destruct (isExpired now' e).
  - injection Hset as <-. now left.
Qed.

(** *** delete *)

(** X23.  On an enabled cache [delete] tells whether the key had an entry
    (expired or not); afterwards [get] and [has] find nothing under the
    key, at any time, and every other key answers as before. *)
Theorem delete_removes_the_key c key :
  enabled (config c) = true ->
  ((delete key c).1 = true <-> key ∈ (memoryCache c).*1)
  /\ (forall now, (get now key (delete key c).2).1 = None
                  /\ (has now key (delete key c).2).1 = false)
  /\ (forall now k, k <> key ->
        (get now k (delete key c).2).1 = (get now k c).1).
Proof.
  intros Hon. unfold delete. rewrite Hon. cbn [negb fst snd]. split; [| split].
  - rewrite bool_decide_eq_true. apply map_get_is_Some.
  - intros now. unfold get, has. cbn [config memoryCache]. rewrite Hon.
    now rewrite map_get_delete.
  - intros now k Hk. unfold get. cbn [config memoryCache]. rewrite Hon.
    rewrite (map_get_delete_ne _ _ _ Hk). simpl.
    destruct (map_get k (memoryCache c)) as [e |]; [| reflexivity].
    now destruct (isExpired now e).
Qed.

(** *** Eager and lazy expiry *)

Lemma get_after_cleanExpired c now1 now2 k :
  NoDup (memoryCache c).*1 ->
  now1 <= now2 ->
  (get now2 k (cleanExpired now1 c)).1 = (get now2 k c).1.
Proof.
  intros Hnd Hclock. unfold get, cleanExpired. cbn [config memoryCache].
  destruct (enabled (config c)); simpl; [| reflexivity].
  rewrite (map_get_filter_NoDup k _ _ Hnd).
  destruct (map_get k (memoryCache c)) as [e |]; [| reflexivity].
  unfold isExpired. simpl. case_decide as Hkeep.
  - now destruct (now2 >? expiresAt e).
  - destruct (Z.gtb_spec now2 (expiresAt e)); [reflexivity | lia].
Qed.

(** X24.  Removing the expired entries ahead of time is not observable:
    after [cleanExpired], and so after the deferred part of [saveToDisk],
    every later [get] returns what it would have returned without it. *)
Theorem cleanExpired_not_observable c now1 now2 k :
  NoDup (memoryCache c).*1 ->
  now1 <= now2 ->
  (get now2 k (cleanExpired now1 c)).1 = (get now2 k c).1
  /\ (get now2 k (saveToDisk_resumed now1 c)).1 = (get now2 k c).1.
Proof.
  intros Hnd Hclock. split; [now apply get_after_cleanExpired |].
  unfold saveToDisk_resumed. destruct (persistent (config c)); [| reflexivity].
  now apply get_after_cleanExpired.
Qed.

(** *** cleanup *)

(** X25.  With a limit that is not negative [cleanup] completes, and
    leaves a cache within its limit that holds no expired entry; it only
    removes entries. *)
Theorem cleanup_result c now :
  0 <= maxEntries (config c) ->
  exists c',
    cleanup now c = Some c'
    /\ config c' = config c
    /\ Z.of_nat (length (memoryCache c')) <= maxEntries (config c)
    /\ Forall (fun p => isExpired now p.2 = false) (memoryCache c')
    /\ memoryCache c' `sublist_of` memoryCache c.
Proof.
  intros Hmax. unfold cleanup.
  set (c1 := cleanExpired now c).
  assert (Hfresh : Forall (fun p => isExpired now p.2 = false) (memoryCache c1)).
  { apply Forall_forall. intros p Hp. apply list_elem_of_filter in Hp as [Hp _].
    unfold isExpired. destruct (Z.gtb_spec now (expiresAt p.2)); [lia | reflexivity]. }
  assert (Hsub : memoryCache c1 `sublist_of` memoryCache c) by apply sublist_filter.
  destruct (Z.le_gt_cases (Z.of_nat (length (memoryCache c1))) (maxEntries (config c1)))
    as [Hfits | Hfull].
  - exists c1. rewrite (enforceSizeLimit_within c1 Hfits). simpl in *. auto.
  - assert (Hgt : 0 <= maxEntries (config c1) < Z.of_nat (length (memoryCache c1)))
      by (simpl in *; lia).
    rewrite (enforceSizeLimit_exceeded c1 Hgt). eexists. split; [reflexivity |].
    cbn [config memoryCache]. split; [reflexivity |]. split; [| split].
    + exact (filter_oldest_length c1 Hgt).
    + apply Forall_forall. intros p Hp. apply list_elem_of_filter in Hp as [_ Hp].
      revert p Hp. now apply Forall_forall.
    + etransitivity; [apply sublist_filter | exact Hsub].
Qed.

End Facts.

Section TypedFacts.
Context `{Sha256}.
Variable content_hash : CachedData -> jsstring.

Lemma generateCacheKey_type prompt1 prompt2 type1 type2 :
  generateCacheKey prompt1 type1 = generateCacheKey prompt2 type2 -> type1 = type2.
Proof. destruct type1, type2; try reflexivity; discriminate. Qed.

Lemma set_well_typed now key d ttl (c c' : CacheManager CachedData) :
  (forall prompt type, key = generateCacheKey prompt type ->
     match type, d with
     | extraction, ExtractionData _ => True
     | translation, TranslationData _ => True
     | _, _ => False
     end) ->
  well_typed c ->
  set content_hash now key d ttl c = Some c' ->
  well_typed c'.
Proof.
  intros Hkey Hinv Hset prompt type entry Hin. unfold set in Hset.
  destruct (enabled (config c)); simpl in Hset;
    [| injection Hset as <-; exact (Hinv _ _ _ Hin)].
  apply (enforceSizeLimit_elem_of _ _ _ Hset) in Hin. cbn [memoryCache] in Hin.
  apply map_set_elem_of in Hin as [[= Hk ->] | Hin]; [| exact (Hinv _ _ _ Hin)].
  simpl. symmetry in Hk. exact (Hkey _ _ Hk).
Qed.

(** X26.  The typed methods keep the two kinds of result apart: as long as
    the cache is only written with [cacheExtractionResult] and
    [cacheTranslationResult], what [getExtractionResult] returns is an
    extraction result and what [getTranslationResult] returns is a
    translation result, though neither checks. *)
Theorem typed_methods_keep_kinds (c : CacheManager CachedData) :
  well_typed c ->
  (forall now prompt result ttl c',
     cacheExtractionResult content_hash now prompt result ttl c = Some c' ->
     well_typed c')
  /\ (forall now prompt result ttl c',
        cacheTranslationResult content_hash now prompt result ttl c = Some c' ->
        well_typed c')
  /\ (forall now prompt d,
        (getExtractionResult now prompt c).1 = Some d ->
        exists result, d = ExtractionData result)
  /\ (forall now prompt d,
        (getTranslationResult now prompt c).1 = Some d ->
        exists result, d = TranslationData result).
Proof.
  intros Hinv.
  assert (Hget : forall now prompt type d,
            (get now (generateCacheKey prompt type) c).1 = Some d ->
            match type, d with
            | extraction, ExtractionData _ => True
            | translation, TranslationData _ => True
            | _, _ => False
            end).
  { intros now prompt type d. unfold get.
    destruct (enabled (config c)); simpl; [| discriminate].
    destruct (map_get _ (memoryCache c)) as [entry |] eqn:Hentry; [| discriminate].
    destruct (isExpired now entry); simpl; [discriminate |]. intros [= <-].
    apply map_get_elem_of in Hentry. exact (Hinv _ _ _ Hentry). }
  split; [| split; [| split]].
  - intros now prompt result ttl c'. apply set_well_typed; [| exact Hinv].
    intros prompt' type Hk. now rewrite <- (generateCacheKey_type _ _ _ _ Hk).
  - intros now prompt result ttl c'. apply set_well_typed; [| exact Hinv].
    intros prompt' type Hk. now rewrite <- (generateCacheKey_type _ _ _ _ Hk).
  - intros now prompt d Hd. apply Hget in Hd. destruct d; [eauto | contradiction].
  - intros now prompt d Hd. apply Hget in Hd. destruct d; [contradiction | eauto].
Qed.

End TypedFacts.

(** A cache of strings for the examples, at its limit of two entries:
    [k1] created at time 1 and [k2] at time 2, both expiring at 100, and
    what the third [set] leaves of it. *)
Definition demo_entry (d : jsstring) (created : Z) : CacheEntry jsstring :=
  {| data := d; timestamp := created; expiresAt := 100; hash := d |}.

Definition full_cache : CacheManager jsstring :=
  {| config := spread default_config limit_two;
     memoryCache := [(lit "k1", demo_entry (lit "A") 1);
                     (lit "k2", demo_entry (lit "B") 2)] |}.

Definition after_third_set : CacheManager jsstring :=
  {| config := spread default_config limit_two;
     memoryCache := [(lit "k2", demo_entry (lit "B") 2);
                     (lit "k3", {| data := lit "C"; timestamp := 3; expiresAt := 13;
                                   hash := lit "C" |})] |}.

Lemma full_cache_NoDup : NoDup (memoryCache full_cache).*1.
Proof. apply (bool_decide_unpack _). vm_compute. exact I. Qed.

Lemma set_then_get_witness :
  enabled (config full_cache) = true
  /\ 1 <= maxEntries (config full_cache)
  /\ Z.of_nat (length (memoryCache full_cache)) <= maxEntries (config full_cache)
  /\ exists c',
       set (fun d => d) 3 (lit "k3") (lit "C") (Some 10) full_cache = Some c'
       /\ (get 13 (lit "k3") c').1 = Some (lit "C")
       /\ (get 14 (lit "k3") c').1 = None.
Proof.
  assert (Hmax : 1 <= maxEntries (config full_cache)) by (simpl; lia).
  assert (Hsize : Z.of_nat (length (memoryCache full_cache))
                  <= maxEntries (config full_cache)) by (simpl; lia).
  assert (Hts : Forall (fun p : jsstring * CacheEntry jsstring => timestamp p.2 <= 3)
                  (memoryCache full_cache)).
  { repeat constructor; simpl; lia. }
  split; [reflexivity |]. split; [exact Hmax |]. split; [exact Hsize |].
  destruct (set_then_get (fun d => d) full_cache 3 (lit "k3") (lit "C") (Some 10)
              eq_refl Hmax Hsize full_cache_NoDup Hts) as (c' & Hset & Hget).
  exists c'. split; [exact Hset |]. split; [exact (Hget 13) | exact (Hget 14)].
Defined.

Lemma set_leaves_other_keys_witness :
  set (fun d => d) 3 (lit "k3") (lit "C") (Some 10) full_cache = Some after_third_set
  /\ lit "k1" <> lit "k3"
  /\ ((get 4 (lit "k1") after_third_set).1 = (get 4 (lit "k1") full_cache).1
      \/ (get 4 (lit "k1") after_third_set).1 = None).
Proof.
  assert (Hset : set (fun d => d) 3 (lit "k3") (lit "C") (Some 10) full_cache
                 = Some after_third_set) by (vm_compute; reflexivity).
  assert (Hk : lit "k1" <> lit "k3") by discriminate.
  split; [exact Hset |]. split; [exact Hk |].
  exact (set_leaves_other_keys (fun d => d) full_cache after_third_set 3 (lit "k3")
           (lit "C") (Some 10) (lit "k1") 4 Hset Hk).
Defined.

Lemma delete_removes_the_key_witness :
  enabled (config full_cache) = true
  /\ (get 5 (lit "k1") (delete (lit "k1") full_cache).2).1 = None
  /\ (get 5 (lit "k2") (delete (lit "k1") full_cache).2).1 = (get 5 (lit "k2") full_cache).1.
Proof.
  split; [reflexivity |].
  destruct (delete_removes_the_key full_cache (lit "k1") eq_refl) as (_ & Hgone & Hrest).
  split; [exact (proj1 (Hgone 5)) |].
  apply Hrest. discriminate.
Defined.

Lemma cleanExpired_not_observable_witness :
  NoDup (memoryCache full_cache).*1
  /\ 101 <= 102
  /\ (get 102 (lit "k1") (cleanExpired 101 full_cache)).1
     = (get 102 (lit "k1") full_cache).1.
Proof.
  assert (Hclock : 101 <= 102) by lia.
  split; [exact full_cache_NoDup |]. split; [exact Hclock |].
  exact (proj1 (cleanExpired_not_observable full_cache 101 102 (lit "k1")
                  full_cache_NoDup Hclock)).
Defined.

Lemma cleanup_result_witness :
  0 <= maxEntries (config full_cache)
  /\ exists c',
       cleanup 101 full_cache = Some c'
       /\ Z.of_nat (length (memoryCache c')) <= maxEntries (config full_cache).
Proof.
  assert (Hmax : 0 <= maxEntries (config full_cache)) by (simpl; lia).
  split; [exact Hmax |].
  destruct (cleanup_result full_cache 101 Hmax) as (c' & Hrun & _ & Hsize & _).
  exists c'. split; [exact Hrun | exact Hsize].
Defined.

Lemma well_typed_empty `{Sha256} : well_typed (new_CacheManager no_change).
Proof. intros prompt type entry Hin. inversion Hin. Qed.

Lemma typed_methods_keep_kinds_witness :
  @well_typed demo_sha256 (new_CacheManager no_change)
  /\ forall now prompt d,
       (@getExtractionResult demo_sha256 now prompt (new_CacheManager no_change)).1
       = Some d ->
       exists result, d = ExtractionData result.
Proof.
  split; [exact (@well_typed_empty demo_sha256) |].
  exact (proj1 (proj2 (proj2 (@typed_methods_keep_kinds demo_sha256 (fun _ => [])
                                (new_CacheManager no_change)
                                (@well_typed_empty demo_sha256))))).
Defined.

End CacheMore.

(** ** FileProcessor: the files of a run *)

Module ProcessorMore.

Import KeyGen Processor KeyGenFacts ProcessorFacts ErrorUtils.

(** The result [processFilesConcurrently] builds for a file whose
    promise rejects. *)
Definition failure_result (file : jsstring) : FileProcessResult :=
  {| filePath := file; success := false; extractedCount := 0 |}.

(** [processFilesConcurrently(files, concurrency)] of the concurrent
    variant.  A file is given by its [filePath]; [processFile k file] is
    how the promise of the [k]-th call of [processFile], made on [file],
    settles.  [Promise.allSettled] does not reject, so the [catch] around
    it is never entered.  The loop runs on fuel, since it need not end
    when [concurrency] is not positive. *)
Fixpoint processFilesConcurrently_loop (fuel : nat) (files : list jsstring)
    (concurrency : Z) (processFile : nat -> jsstring -> Settled FileProcessResult)
    (i : Z) (results : list FileProcessResult) (calls : nat)
  : option (list FileProcessResult) :=
  if i <? Z.of_nat (length files) then
    match fuel with
    | O => None
    | S fuel' =>
        let batch := LLM.slice files i (i + concurrency) in
        let batchResults :=
          imap (fun j file =>
                  match processFile (calls + j)%nat file with
                  | Fulfilled value => value
                  | Rejected _ => failure_result file
                  end) batch in
        processFilesConcurrently_loop fuel' files concurrency processFile
          (i + concurrency) (results ++ batchResults) (calls + length batch)
    end
  else Some results.

Definition processFilesConcurrently (files : list jsstring) (concurrency : Z)
    (processFile : nat -> jsstring -> Settled FileProcessResult)
  : option (list FileProcessResult) :=
  processFilesConcurrently_loop (length files) files concurrency processFile 0 [] 0.




Section Facts.

(** *** Every file is accounted for *)

Lemma processFilesConcurrently_loop_settles (files : list jsstring) (concurrency : Z)
    (processFile : nat -> jsstring -> Settled FileProcessResult) (fuel : nat) :
  1 <= concurrency ->
  forall (n : nat) results,
  (length files - n <= fuel)%nat ->
  processFilesConcurrently_loop fuel files concurrency processFile (Z.of_nat n) results n
  = Some (results
          ++ imap (fun j file =>
                     match processFile (n + j)%nat file with
                     | Fulfilled value => value
                     | Rejected _ => failure_result file
                     end) (drop n files)).
Proof.
  intros Hc. induction fuel as [| fuel IH]; intros n results Hfuel;
    cbn [processFilesConcurrently_loop];
    destruct (Z.ltb_spec (Z.of_nat n) (Z.of_nat (length files))); try lia.
  - rewrite drop_ge by lia. simpl. now rewrite app_nil_r.
  - rewrite ListFacts.slice_take_drop by lia. rewrite Nat2Z.id.
    set (c := Z.to_nat concurrency).
    assert (Hbatch : length (take c (drop n files)) = Nat.min c (length files - n))
      by (rewrite length_take, length_drop; reflexivity).
    destruct (Nat.le_gt_cases c (length files - n)) as [Hfull | Hshort].
    + replace (Z.of_nat n + concurrency) with (Z.of_nat (n + c)) by lia.
      replace (n + length (take c (drop n files)))%nat with (n + c)%nat by lia.
      rewrite IH by lia. f_equal. rewrite <- app_assoc. f_equal.
      rewrite <- (take_drop c (drop n files)) at 2.
      rewrite imap_app, drop_drop. f_equal.
      apply imap_ext. intros j x _. simpl.
      rewrite length_take, length_drop.
      replace (n + (c `min` (length files - n) + j))%nat with (n + c + j)%nat by lia.
      reflexivity.
    + rewrite take_ge by (rewrite length_drop; lia).
      destruct fuel as [| fuel']; cbn [processFilesConcurrently_loop];
        (destruct (Z.ltb_spec (Z.of_nat n + concurrency) (Z.of_nat (length files)));
         [lia | reflexivity]).
  - rewrite drop_ge by lia. simpl. now rewrite app_nil_r.
Qed.

Lemma filter_success_length (results : list FileProcessResult) :
  (length (List.filter success results)
   + length (List.filter (fun r => negb (success r)) results)
   = length results)%nat.
Proof.
  induction results as [| r results IH]; [reflexivity |].
  simpl. destruct (success r); simpl; lia.
Qed.

(** X27.  With a concurrency of at least one, the concurrent variant gets
    one result per file, in the order of the files, a file whose promise
    rejects counting as a failure under its own path; and the statistics
    of [processAll] account for every file once: the number of files
    processed and the number of failed files add up to the number of
    files. *)
Theorem processAll_counts_every_file (files : list jsstring)
    (concurrency : Z) (processFile : nat -> jsstring -> Settled FileProcessResult) :
  1 <= concurrency ->
  exists results,
    processFilesConcurrently files concurrency processFile = Some results
    /\ results = imap (fun k file =>
                         match processFile k file with
                         | Fulfilled value => value
                         | Rejected _ => failure_result file
                         end) files
    /\ forall (runtime : LLM.Runtime) config translationLLM writeTranslationFile
              texts skipTranslate w stats w',
         processAll_stats config translationLLM writeTranslationFile results texts
           skipTranslate w = Some (stats, w') ->
         filesProcessed stats + Z.of_nat (length (failedFiles stats))
         = Z.of_nat (length files).
Proof.
  intros Hc. eexists. split; [| split; [reflexivity |]].
  - unfold processFilesConcurrently. change 0 with (Z.of_nat 0).
    rewrite (processFilesConcurrently_loop_settles files concurrency processFile
               (length files) Hc 0 []) by lia.
    reflexivity.
  - intros runtime config translationLLM writeTranslationFile texts skipTranslate w
      stats w'.
    unfold processAll_stats.
    destruct (if negb skipTranslate && (0 <? Z.of_nat (length texts))
              then processTranslation config translationLLM writeTranslationFile texts w
              else Some (0, w)) as [[translatedCount w1] |]; [| discriminate].
    simpl. intros [= <- <-]. simpl. rewrite length_fmap.
    match goal with
    | |- context [List.filter success ?rs] =>
        pose proof (filter_success_length rs) as Hsum;
        assert (Hlen : length rs = length files) by apply length_imap
    end.
    lia.
Qed.

(** *** The two variants build the same store *)

Section Variants.
Context `{PinyinPro} `{Md5}.
Variable cfg : KeyGenerationConfig.









End Variants.

End Facts.

(** A run of three files in which the second call of [processFile]
    rejects, and a unit of one text. *)
Definition second_rejects : nat -> jsstring -> Settled FileProcessResult :=
  fun k file =>
    match k with
    | 1%nat => Rejected (ThrownValue (lit "EACCES"))
    | _ => Fulfilled {| filePath := file; success := true; extractedCount := 1 |}
    end.

Definition three_files : list jsstring := [lit "a.tsx"; lit "b.tsx"; lit "c.tsx"].


Lemma processAll_counts_every_file_witness :
  1 <= 2
  /\ processFilesConcurrently three_files 2 second_rejects
     = Some [{| filePath := lit "a.tsx"; success := true; extractedCount := 1 |};
             failure_result (lit "b.tsx");
             {| filePath := lit "c.tsx"; success := true; extractedCount := 1 |}].
Proof.
  assert (Hc : 1 <= 2) by lia.
  split; [exact Hc |].
  destruct (processAll_counts_every_file three_files 2 second_rejects Hc)
    as (results & Hrun & -> & _).
  exact Hrun.
Defined.


End ProcessorMore.
